(** * configkit: requirement registry, discovery and redaction

    A shallow embedding of [kits/configkit] (discovery.go, redact.go) of
    froppa/stackkit, and the properties of its registry, its check pass,
    its unknown-key scan, its field specifications, its skeleton renderer
    and its redactor.

    Go strings are byte strings and are modelled by [string]. Letter case
    follows Go: [strings.ToLower] works on bytes for ASCII text and on the
    runes of the UTF-8 decoding otherwise, with the case table of the Go
    release, which is no part of the repository, as a parameter. White
    space is the six ASCII white-space bytes. *)

From Stdlib Require Import Strings.String Strings.Ascii Structures.OrdersEx.
From Stdlib Require Import ZArith Lia Sorting.Sorted Sorting.Permutation.
From Stdlib Require Import Numbers.DecimalString.
From stdpp Require Import gmap strings list fin_maps.

Set Warnings "-register-all,-clear-no-such-hyp".
Local Open Scope string_scope.
Local Open Scope list_scope.

(** ** Package [unicode/utf8] *)

Module utf8.
Local Open Scope Z_scope.

Definition RuneError : Z := 0xFFFD.
Definition RuneSelf : Z := 0x80.
Definition MaxRune : Z := 0x10FFFF.

Definition byte (c : ascii) : Z := Z.of_nat (nat_of_ascii c).
Definition char (z : Z) : ascii := ascii_of_nat (Z.to_nat z).

(** The byte lies in the range a continuation byte is accepted in. *)
Definition within (lo hi : Z) (c : ascii) : bool :=
  (lo <=? byte c) && (byte c <=? hi).

(** The six low bits of a continuation byte. *)
Definition low6 (c : ascii) : Z := Z.land (byte c) 0x3F.

(** [DecodeRuneInString]: the first rune of the string and its width in
    bytes. A byte that starts no valid encoding (a continuation byte, an
    encoding that is too long, cut short, of a surrogate or above
    [MaxRune]) is [RuneError] of width 1; the empty string is [RuneError]
    of width 0. *)
Definition DecodeRuneInString (s : string) : Z * nat :=
  match s with
  | EmptyString => (RuneError, 0%nat)
  | String c0 rest =>
      let b0 := byte c0 in
      if b0 <? 0x80 then (b0, 1%nat)
      else if b0 <? 0xC2 then (RuneError, 1%nat)
      else if b0 <? 0xE0 then
        match rest with
        | String c1 _ =>
            if within 0x80 0xBF c1
            then (Z.lor (Z.shiftl (Z.land b0 0x1F) 6) (low6 c1), 2%nat)
            else (RuneError, 1%nat)
        | _ => (RuneError, 1%nat)
        end
      else if b0 <? 0xF0 then
        let lo := if b0 =? 0xE0 then 0xA0 else 0x80 in
        let hi := if b0 =? 0xED then 0x9F else 0xBF in
        match rest with
        | String c1 (String c2 _) =>
            if within lo hi c1 && within 0x80 0xBF c2
            then (Z.lor (Z.shiftl (Z.land b0 0x0F) 12)
                    (Z.lor (Z.shiftl (low6 c1) 6) (low6 c2)), 3%nat)
            else (RuneError, 1%nat)
        | _ => (RuneError, 1%nat)
        end
      else if b0 <? 0xF5 then
        let lo := if b0 =? 0xF0 then 0x90 else 0x80 in
        let hi := if b0 =? 0xF4 then 0x8F else 0xBF in
        match rest with
        | String c1 (String c2 (String c3 _)) =>
            if within lo hi c1 && within 0x80 0xBF c2 && within 0x80 0xBF c3
            then (Z.lor (Z.shiftl (Z.land b0 0x07) 18)
                    (Z.lor (Z.shiftl (low6 c1) 12)
                       (Z.lor (Z.shiftl (low6 c2) 6) (low6 c3))), 4%nat)
            else (RuneError, 1%nat)
        | _ => (RuneError, 1%nat)
        end
      else (RuneError, 1%nat)
  end.

(** A continuation byte with the six bits of [z] from bit [shift] on. *)
Definition contByte (z : Z) (shift : Z) : ascii :=
  char (Z.lor 0x80 (Z.land (Z.shiftr z shift) 0x3F)).

(** [AppendRune] to the empty string: the UTF-8 encoding of the rune; a
    rune out of range or a surrogate is encoded as [RuneError]. *)
Definition AppendRune (r : Z) : string :=
  if (0 <=? r) && (r <=? 0x7F) then String (char r) EmptyString
  else if (0 <=? r) && (r <=? 0x7FF) then
    String (char (Z.lor 0xC0 (Z.shiftr r 6))) (String (contByte r 0) EmptyString)
  else
    let r := if (r <? 0) || (MaxRune <? r) || ((0xD800 <=? r) && (r <=? 0xDFFF))
             then RuneError else r in
    if r <=? 0xFFFF then
      String (char (Z.lor 0xE0 (Z.shiftr r 12)))
        (String (contByte r 6) (String (contByte r 0) EmptyString))
    else
      String (char (Z.lor 0xF0 (Z.shiftr r 18)))
        (String (contByte r 12)
           (String (contByte r 6) (String (contByte r 0) EmptyString))).

End utf8.

(** ** Package [unicode] *)

Module unicode.
Local Open Scope Z_scope.

(** The case table [CaseRanges] belongs to the Go release the program is
    built with: [To_LowerCase r] is [To(LowerCase, r)], the lower-case
    image of [r] in that table, and [r] itself where the table has no
    entry for it. *)
Class Tables := { To_LowerCase : Z -> Z }.

Definition MaxASCII : Z := 0x7F.

Definition ToLower `{Tables} (r : Z) : Z :=
  if r <=? MaxASCII then
    if (65 <=? r) && (r <=? 90) then r + 32 else r
  else To_LowerCase r.

End unicode.

(** ** Package [strings] *)

Module strings.

(** The six ASCII white-space bytes that [strings.TrimSpace] strips. *)
Definition isSpace (c : ascii) : bool :=
  existsb (Ascii.eqb c) ["009"; "010"; "011"; "012"; "013"; " "]%char.

Fixpoint trimLeft (s : string) : string :=
  match s with
  | String c s' => if isSpace c then trimLeft s' else s
  | EmptyString => EmptyString
  end.

Fixpoint trimRight (s : string) : string :=
  match s with
  | String c s' =>
      match trimRight s' with
      | EmptyString => if isSpace c then EmptyString else String c EmptyString
      | r => String c r
      end
  | EmptyString => EmptyString
  end.

Definition TrimSpace (s : string) : string := trimRight (trimLeft s).

Definition lowerByte (c : ascii) : ascii :=
  let n := nat_of_ascii c in
  if (65 <=? n)%nat && (n <=? 90)%nat then ascii_of_nat (n + 32) else c.

(** The runes a [range] over the string yields; [skip] bytes of the rune
    before are still to be passed over. *)
Fixpoint runesFrom (skip : nat) (s : string) : list Z :=
  match s with
  | EmptyString => []
  | String _ rest =>
      match skip with
      | S k => runesFrom k rest
      | O =>
          let '(r, width) := utf8.DecodeRuneInString s in
          r :: runesFrom (Nat.pred width) rest
      end
  end.

Definition runes (s : string) : list Z := runesFrom 0 s.

(** [strings.Map]: every rune of the string, an invalid byte being read as
    [utf8.RuneError], gives way to the encoding of its image; a rune with
    a negative image is dropped. (The source copies the runes in front of
    the first one that changes as they are, which is the same bytes, and
    returns the string itself when no rune changes.) *)
Definition Map (mapping : Z -> Z) (s : string) : string :=
  fold_right (fun c out =>
      let r := mapping c in
      if (0 <=? r)%Z then utf8.AppendRune r +:+ out else out)
    "" (runes s).

Fixpoint isASCII (s : string) : bool :=
  match s with
  | String c s' => (utf8.byte c <? utf8.RuneSelf)%Z && isASCII s'
  | EmptyString => true
  end.

Fixpoint hasUpper (s : string) : bool :=
  match s with
  | String c s' =>
      let n := nat_of_ascii c in
      ((65 <=? n)%nat && (n <=? 90)%nat) || hasUpper s'
  | EmptyString => false
  end.

(** The loop of [strings.ToLower] over an ASCII string. *)
Fixpoint lowerASCII (s : string) : string :=
  match s with
  | String c s' => String (lowerByte c) (lowerASCII s')
  | EmptyString => EmptyString
  end.

(** [strings.ToLower]: byte by byte for an ASCII string, rune by rune
    with [unicode.ToLower] otherwise. *)
Definition ToLower `{unicode.Tables} (s : string) : string :=
  if isASCII s then
    if hasUpper s then lowerASCII s else s
  else Map unicode.ToLower s.

(** [strings.Split(s, sep)] for a one-byte separator: [n + 1] pieces for
    [n] occurrences, so never the empty list. *)
Fixpoint Split (s : string) (sep : ascii) : list string :=
  match s with
  | EmptyString => [EmptyString]
  | String c s' =>
      if Ascii.eqb c sep then EmptyString :: Split s' sep
      else match Split s' sep with
           | p :: ps => String c p :: ps
           | [] => [String c EmptyString]
           end
  end.

Fixpoint Join (elems : list string) (sep : string) : string :=
  match elems with
  | [] => ""
  | [x] => x
  | x :: rest => x +:+ sep +:+ Join rest sep
  end.

(** [strings.Index]: the byte offset of the first occurrence. *)
Fixpoint Index (s substr : string) : option nat :=
  if String.prefix substr s then Some 0%nat
  else match s with
       | String _ s' => S <$> Index s' substr
       | EmptyString => None
       end.

(** [strings.LastIndex]: the byte offset of the last occurrence. *)
Fixpoint LastIndex (s substr : string) : option nat :=
  match s with
  | String _ s' =>
      match LastIndex s' substr with
      | Some i => Some (S i)
      | None => if String.prefix substr s then Some 0%nat else None
      end
  | EmptyString => if String.prefix substr s then Some 0%nat else None
  end.

Definition Contains (s substr : string) : bool :=
  bool_decide (is_Some (Index s substr)).

(** The slices [s[i:]] and [s[:j]]. *)
Fixpoint sliceFrom (i : nat) (s : string) : string :=
  match i, s with
  | S i', String _ s' => sliceFrom i' s'
  | _, _ => s
  end.

Fixpoint sliceTo (j : nat) (s : string) : string :=
  match j, s with
  | S j', String c s' => String c (sliceTo j' s')
  | _, _ => EmptyString
  end.

Fixpoint Repeat (s : string) (count : nat) : string :=
  match count with
  | O => ""
  | S n => s +:+ Repeat s n
  end.

(** The order [<] of Go strings: lexicographic on bytes. *)
Definition lt (a b : string) : bool :=
  match String_as_OT.compare a b with Lt => true | _ => false end.

End strings.

(** ** Package [sort] *)

Module sort.

Section Stable.
Context {A : Type} (less : A -> A -> bool).

(** Insert [x] in front of the first element that is not below it: an
    element stays in front of the later elements it is equivalent to. *)
Fixpoint insert (x : A) (l : list A) : list A :=
  match l with
  | [] => [x]
  | y :: l' => if less y x then y :: insert x l' else x :: y :: l'
  end.

(** [sort.SliceStable]: the stable sort by [less], which has one result
    whatever the algorithm. *)
Definition SliceStable (l : list A) : list A := foldr insert [] l.
End Stable.

(** [sort.Strings]. *)
Definition Strings (l : list string) : list string := SliceStable strings.lt l.

End sort.

(** ** Package [reflect]: types as the registry sees them *)

Module reflect.

Inductive LeafKind :=
| Invalid | Bool | Int | Int8 | Int16 | Int32 | Int64
| Uint | Uint8 | Uint16 | Uint32 | Uint64 | Uintptr
| Float32 | Float64 | Complex64 | Complex128
| Array | Chan | Func | Interface | Map | Slice | String_ | UnsafePointer.

Inductive Kind := Leaf (k : LeafKind) | Ptr | Struct.

Definition LeafKind_String (k : LeafKind) : string :=
  match k with
  | Invalid => "invalid" | Bool => "bool" | Int => "int" | Int8 => "int8"
  | Int16 => "int16" | Int32 => "int32" | Int64 => "int64"
  | Uint => "uint" | Uint8 => "uint8" | Uint16 => "uint16"
  | Uint32 => "uint32" | Uint64 => "uint64" | Uintptr => "uintptr"
  | Float32 => "float32" | Float64 => "float64"
  | Complex64 => "complex64" | Complex128 => "complex128"
  | Array => "array" | Chan => "chan" | Func => "func"
  | Interface => "interface" | Map => "map" | Slice => "slice"
  | String_ => "string" | UnsafePointer => "unsafe.Pointer"
  end.

Definition Kind_String (k : Kind) : string :=
  match k with
  | Leaf k => LeafKind_String k
  | Ptr => "ptr"
  | Struct => "struct"
  end.

(** A struct tag, by its key/value pairs in the order they are written. *)
Definition StructTag := list (string * string).

(** [StructTag.Get]: the value of the first pair with that key, or the
    empty string. *)
Fixpoint Tag_Get (tag : StructTag) (key : string) : string :=
  match tag with
  | [] => ""
  | (k, v) :: rest => if String.eqb k key then v else Tag_Get rest key
  end.

(** [reflect.StructField], over the representation of types. [PkgPath] is
    empty exactly for the exported fields. *)
Record StructField_ (T : Type) := mkField {
  Name : string;
  PkgPath : string;
  Type_ : T;
  Tag : StructTag;
  Anonymous : bool
}.
Arguments mkField {T} _ _ _ _ _.
Arguments Name {T} _.
Arguments PkgPath {T} _.
Arguments Type_ {T} _.
Arguments Tag {T} _.
Arguments Anonymous {T} _.

(** A [reflect.Type]: a pointer type, a struct type with its fields, or a
    type of any other kind. Every type other than a pointer carries its name,
    the import path of its package and its string form. The types are
    finite trees: a struct type that holds itself below a pointer
    ([type Node struct { Next *Node }]) is none of them. On such a type
    [walkStruct], which follows every field of struct type, does not return,
    and [Spec] and [Skeleton] with it; what is proved of them is proved of
    the types that are not recursive. *)
Inductive rtype :=
| TPtr (elem : rtype)
| TStruct (name pkgPath str : string) (fields : list (StructField_ rtype))
| TLeaf (k : LeafKind) (name pkgPath str : string).

Abbreviation StructField := (StructField_ rtype).

Definition Kind_of (t : rtype) : Kind :=
  match t with
  | TPtr _ => Ptr
  | TStruct _ _ _ _ => Struct
  | TLeaf k _ _ _ => Leaf k
  end.

(** [Type.Name]: empty for pointer types. *)
Definition Type_Name (t : rtype) : string :=
  match t with
  | TPtr _ => ""
  | TStruct name _ _ _ => name
  | TLeaf _ name _ _ => name
  end.

(** [Type.PkgPath]: empty for pointer types. *)
Definition Type_PkgPath (t : rtype) : string :=
  match t with
  | TPtr _ => ""
  | TStruct _ pkg _ _ => pkg
  | TLeaf _ _ pkg _ => pkg
  end.

(** [Type.String]: a pointer type is written with a star in front. *)
Fixpoint Type_String (t : rtype) : string :=
  match t with
  | TPtr e => "*" +:+ Type_String e
  | TStruct _ _ str _ => str
  | TLeaf _ _ _ str => str
  end.

(** The loop [for t.Kind() == reflect.Ptr { t = t.Elem() }]. *)
Fixpoint indirect (t : rtype) : rtype :=
  match t with
  | TPtr e => indirect e
  | _ => t
  end.

(** The nesting depth of a type, which bounds the search of promoted
    fields. *)
Fixpoint depth (t : rtype) : nat :=
  match t with
  | TPtr e => S (depth e)
  | TStruct _ _ _ fields =>
      S (fold_right (fun f d => Nat.max (depth (Type_ f)) d) 0%nat fields)
  | TLeaf _ _ _ _ => 0%nat
  end.

(** The struct an embedded field of type [T] or [*T] brings in. *)
Definition embeddedFields (f : StructField) : option (list StructField) :=
  if Anonymous f then
    match (match Type_ f with TPtr e => e | ty => ty end) with
    | TStruct _ _ _ fields => Some fields
    | _ => None
    end
  else None.

(** [FieldByNameFunc] for a name: the structs of one embedding depth are
    scanned together; one match at the shallowest depth that has any is the
    answer, and two of them annihilate each other. *)
Fixpoint fieldByNameLevel (fuel : nat) (level : list (list StructField))
    (name : string) : option StructField :=
  match fuel with
  | O => None
  | S fuel' =>
      let fs := concat level in
      match List.filter (fun f => String.eqb (Name f) name) fs with
      | [f] => Some f
      | _ :: _ :: _ => None
      | [] =>
          match omap embeddedFields fs with
          | [] => None
          | next => fieldByNameLevel fuel' next name
          end
      end
  end.

(** [Type.FieldByName] of a struct type: first the quick check of the
    struct's own fields, then the search through the embedded structs. *)
Definition FieldByName (t : rtype) (name : string) : option StructField :=
  match t with
  | TStruct _ _ _ fields =>
      match (if String.eqb name "" then None
             else List.find (fun f => String.eqb (Name f) name) fields) with
      | Some f => Some f
      | None =>
          if existsb Anonymous fields
          then fieldByNameLevel (depth t) [fields] name
          else None
      end
  | _ => None
  end.

End reflect.

(** ** Dynamic values: what a decoded document is made of *)

Module dyn.

(** The values that are neither a map nor a slice. [SOther] stands for a
    value of any other Go type, by the text that [fmt.Sprint] prints. *)
Inductive scalar :=
| SNil
| SString (s : string)
| SInt (z : Z)
| SBool (b : bool)
| SOther (repr : string).

(** An [any] holding a decoded document. A [map[interface{}]interface{}]
    is the list of its entries in the order a [range] visits them; a
    [map[string]interface{}] is a finite map. *)
Inductive value :=
| VScalar (x : scalar)
| VMapAny (es : list (scalar * value))
| VMapStr (m : gmap string value)
| VSeq (l : list value).

(** [fmt.Sprint] of a scalar. *)
Definition Sprint (x : scalar) : string :=
  match x with
  | SNil => "<nil>"
  | SString s => s
  | SInt z => NilEmpty.string_of_int (Z.to_int z)
  | SBool true => "true"
  | SBool false => "false"
  | SOther repr => repr
  end.

End dyn.

(** ** Package [configkit]: discovery.go *)

Module configkit.

(** Go's [error] values, as far as the package tells them apart. *)
Inductive error :=
| NotFoundError (key typ : string)
    (* fmt.Errorf("config: requirement not found for %q %q", key, typ) *)
| ExternalError (msg : string).
    (* an error of the provider or of the validator, with its [Error()] text *)

Module Requirement.
Record t := mk { Key : string; Type_ : string; PkgPath : string }.
End Requirement.

Record reqEntry := mkReqEntry {
  key : string;
  t : reflect.rtype;     (* generic parameter T *)
  base : reflect.rtype   (* T with all pointer indirections removed *)
}.

(** The package variables [reqSeen] and [reqs] (both behind [reqMu]). *)
Record Registry := mkRegistry {
  reqSeen : gset string;
  reqs : list reqEntry
}.

(** The registry of a fresh process, and after [ResetDiscoveryForTests]. *)
Definition emptyRegistry : Registry := mkRegistry ∅ [].

Definition ResetDiscoveryForTests (_ : Registry) : Registry := emptyRegistry.

Definition typeKey (key : string) (t : reflect.rtype) : string :=
  key +:+ String "000" EmptyString +:+ reflect.Type_String t.

Definition registerRequirementType (key : string) (typ : reflect.rtype)
    (st : Registry) : Registry :=
  let base := reflect.indirect typ in
  let k := typeKey key typ in
  if decide (k ∈ reqSeen st) then st
  else mkRegistry ({[k]} ∪ reqSeen st) (reqs st ++ [mkReqEntry key typ base]).

(** [RegisterRequirement]: the sample is an [any]; [None] is the nil
    interface, which has no type. *)
Definition RegisterRequirement (key : string) (sample : option reflect.rtype)
    (st : Registry) : Registry :=
  match sample with
  | None => st
  | Some typ => registerRequirementType key typ st
  end.

Definition RegisterRequirementType (key : string) (typ : option reflect.rtype)
    (st : Registry) : Registry :=
  match typ with
  | None => st
  | Some typ => registerRequirementType key typ st
  end.

(** The type name shown to users: [Name()] with the last segment of the
    import path in front. Written out three times in the source
    ([Requirements], [Known], [Check]). *)
Definition displayName (typ : reflect.rtype) : string :=
  let tname := reflect.Type_Name typ in
  let pkg := reflect.Type_PkgPath typ in
  if String.eqb pkg "" then tname
  else
    let parts := strings.Split pkg "/" in
    let short := List.last parts "" in
    if String.eqb short "" then tname else short +:+ "." +:+ tname.

Definition requirementOf (r : reqEntry) : Requirement.t :=
  Requirement.mk (key r) (displayName (base r)) (reflect.Type_PkgPath (base r)).

(** The comparison both [Requirements] and [Check] sort with. *)
Definition lessByKeyType (k1 t1 k2 t2 : string) : bool :=
  if String.eqb k1 k2 then strings.lt t1 t2 else strings.lt k1 k2.

Definition lessRequirement (a b : Requirement.t) : bool :=
  lessByKeyType (Requirement.Key a) (Requirement.Type_ a)
                (Requirement.Key b) (Requirement.Type_ b).

(** [Requirements] reads the registry under the lock and leaves it as it
    is: the result is the snapshot together with the registry. *)
Definition Requirements (st : Registry) : list Requirement.t * Registry :=
  (sort.SliceStable lessRequirement (map requirementOf (reqs st)), st).

Module FieldSpec.
Record t := mk { Path : string; Type_ : string; Required : bool }.
End FieldSpec.

Definition hasRequired (tag : string) : bool :=
  if String.eqb tag "" then false
  else existsb (fun tok => String.eqb (strings.TrimSpace tok) "required")
               (strings.Split tag ",").

Definition trimPkg (s : string) : string :=
  match strings.LastIndex s "." with
  | Some i => strings.sliceFrom (i + 1) s
  | None => s
  end.

Definition parseYAMLTag `{unicode.Tables} (tag : string) (f : reflect.StructField) : string * bool :=
  let tag := strings.TrimSpace tag in
  if String.eqb tag "" then
    let j := strings.TrimSpace (reflect.Tag_Get (reflect.Tag f) "json") in
    let parts := strings.Split j "," in
    let p0 := List.hd "" parts in
    if negb (String.eqb j "") && negb (String.eqb p0 "") && negb (String.eqb p0 "-")
    then (p0, false)
    else (strings.ToLower (strings.sliceTo 1 (reflect.Name f))
            +:+ strings.sliceFrom 1 (reflect.Name f), false)
  else
    let parts := strings.Split tag "," in
    let p0 := List.hd "" parts in
    let name := if String.eqb p0 "" then reflect.Name f else p0 in
    let inline :=
      existsb (fun p => String.eqb (strings.TrimSpace p) "inline") (List.tl parts) in
    (name, inline).

(** The path of a field below [prefix], as [walkStruct] computes it. *)
Definition fieldPath (prefix name : string) (inline : bool) : string :=
  if inline then prefix
  else if String.eqb prefix "" then name
  else prefix +:+ "." +:+ name.

(** The kind shown for a leaf: the type's name when it has one. *)
Definition leafKindName (k : reflect.LeafKind) (name : string) : string :=
  if String.eqb name "" then reflect.LeafKind_String k else name.

(** The body of the loop of [walkStruct] for the field [f], from the
    [switch base.Kind()] on, by recursion on the field's type: pointers are
    unwrapped, a struct is walked with the field's path as prefix, and any
    other type is a leaf. [out] is the slice the source appends to. *)
Fixpoint walkType `{unicode.Tables} (ft : reflect.rtype) (name : string) (inline required : bool)
    (prefix : string) (out : list FieldSpec.t) {struct ft} : list FieldSpec.t :=
  let path := fieldPath prefix name inline in
  match ft with
  | reflect.TPtr e => walkType e name inline required prefix out
  | reflect.TStruct _ _ _ fields =>
      fold_left (fun out f =>
        if negb (String.eqb (reflect.PkgPath f) "") then out
        else
          let '(name', inline') :=
            parseYAMLTag (reflect.Tag_Get (reflect.Tag f) "yaml") f in
          let required' := hasRequired (reflect.Tag_Get (reflect.Tag f) "validate") in
          walkType (reflect.Type_ f) name' inline' required' path out)
        fields out
  | reflect.TLeaf k nm _ _ =>
      if String.eqb name "-" then out
      else out ++ [FieldSpec.mk path (leafKindName k nm) required]
  end.

Definition walkField `{unicode.Tables} (prefix : string) (out : list FieldSpec.t)
    (f : reflect.StructField) : list FieldSpec.t :=
  if negb (String.eqb (reflect.PkgPath f) "") then out
  else
    let '(name, inline) := parseYAMLTag (reflect.Tag_Get (reflect.Tag f) "yaml") f in
    let required := hasRequired (reflect.Tag_Get (reflect.Tag f) "validate") in
    walkType (reflect.Type_ f) name inline required prefix out.

Definition walkStruct `{unicode.Tables} (t : reflect.rtype) (prefix : string)
    (out : list FieldSpec.t) : list FieldSpec.t :=
  let t := match t with reflect.TPtr e => e | _ => t end in
  match t with
  | reflect.TStruct _ _ _ fields => fold_left (walkField prefix) fields out
  | _ => out
  end.

(** [Spec]: the first entry whose base type has the requirement's package
    path and type name. *)
Definition Spec `{unicode.Tables} (req : Requirement.t) (st : Registry)
    : (list FieldSpec.t + error) * Registry :=
  let found :=
    List.find (fun r =>
      String.eqb (reflect.Type_PkgPath (base r)) (Requirement.PkgPath req)
      && String.eqb (reflect.Type_Name (base r)) (trimPkg (Requirement.Type_ req)))
      (reqs st) in
  match found with
  | None => (inr (NotFoundError (Requirement.Key req) (Requirement.Type_ req)), st)
  | Some r => (inl (walkStruct (base r) "" []), st)
  end.

(** *** Unknown key detection *)

Definition exported (f : reflect.StructField) : bool :=
  String.eqb (reflect.PkgPath f) "".

Definition yamlName `{unicode.Tables} (f : reflect.StructField) : string * bool :=
  parseYAMLTag (reflect.Tag_Get (reflect.Tag f) "yaml") f.

(** The first loop of [findUnknownKeys]: the map [allowed] and the slice
    [inlineFields]. *)
Definition collectAllowed `{unicode.Tables} (fields : list reflect.StructField)
    : gmap string reflect.StructField * list reflect.StructField :=
  fold_left (fun '(allowed, inlineFields) f =>
      if negb (exported f) then (allowed, inlineFields)
      else
        let '(name, inline) := yamlName f in
        if String.eqb name "-" then (allowed, inlineFields)
        else if inline then (allowed, (inlineFields ++ [f])%list)
        else (<[name := f]> allowed, inlineFields))
    fields (∅, []).

(** The second loop: the names of the fields of every inline struct are
    added, except the excluded and the inline ones among them. *)
Definition mergeInline `{unicode.Tables} (allowed : gmap string reflect.StructField)
    (inlineFields : list reflect.StructField) : gmap string reflect.StructField :=
  fold_left (fun allowed f =>
      match reflect.indirect (reflect.Type_ f) with
      | reflect.TStruct _ _ _ sfields =>
          fold_left (fun allowed sf =>
              if negb (exported sf) then allowed
              else
                let '(n, inl_) := yamlName sf in
                if String.eqb n "-" || inl_ then allowed
                else <[n := sf]> allowed)
            sfields allowed
      | _ => allowed
      end)
    inlineFields allowed.

Definition allowedFields `{unicode.Tables} (fields : list reflect.StructField)
    : gmap string reflect.StructField :=
  let '(allowed, inlineFields) := collectAllowed fields in
  mergeInline allowed inlineFields.

Definition joinPrefix (prefix ks : string) : string :=
  if String.eqb prefix "" then ks else prefix +:+ "." +:+ ks.

(** [findUnknownKeys], by recursion on the document. The third loop visits
    the entries of the map: of a [map[interface{}]interface{}] directly, of
    a [map[string]interface{}] after its copy into one. *)
Fixpoint findUnknownKeys `{unicode.Tables} (y : dyn.value) (t : reflect.rtype) (prefix : string)
    {struct y} : list string :=
  match reflect.indirect t with
  | reflect.TStruct _ _ _ fields =>
      let allowed := allowedFields fields in
      let visit (unknown : list string) (ks : string) (v : dyn.value) :=
        match allowed !! ks with
        | None => unknown ++ [joinPrefix prefix ks]
        | Some f =>
            let ft := reflect.indirect (reflect.Type_ f) in
            match ft with
            | reflect.TStruct _ _ _ _ =>
                unknown ++ findUnknownKeys v ft (joinPrefix prefix ks)
            | _ => unknown
            end
        end in
      match y with
      | dyn.VMapAny es =>
          sort.Strings
            (fold_left (fun unknown '(k, v) => visit unknown (dyn.Sprint k) v) es [])
      | dyn.VMapStr mm =>
          sort.Strings (map_fold (fun k v unknown => visit unknown k v) [] mm)
      | _ => []
      end
  | _ => []
  end.

(** *** Validation issue formatting *)

(** [strconv.Quote], as [%q] prints a string: only the escapes of the
    double quote and of the backslash are modelled. *)
Fixpoint quoteBody (s : string) : string :=
  match s with
  | EmptyString => EmptyString
  | String c s' =>
      if Ascii.eqb c "034" || Ascii.eqb c "092"
      then String "092" (String c (quoteBody s'))
      else String c (quoteBody s')
  end.

Definition Quote (s : string) : string :=
  String "034" (quoteBody s) +:+ String "034" EmptyString.

(** The method [Error] of an error. *)
Definition Error (e : error) : string :=
  match e with
  | NotFoundError key typ =>
      "config: requirement not found for " +:+ Quote key +:+ " " +:+ Quote typ
  | ExternalError msg => msg
  end.

Definition fieldPattern : string := "Field validation for '".

Definition extractFieldAndRule (s : string) : string * string :=
  match strings.Index s fieldPattern with
  | Some i =>
      let rest := strings.sliceFrom (i + String.length fieldPattern) s in
      match strings.Index rest "'" with
      | Some j =>
          let field := strings.sliceTo j rest in
          match strings.Index rest "' tag" with
          | Some k =>
              let prev := strings.sliceTo k rest in
              match strings.LastIndex prev "'" with
              | Some q => (field, strings.sliceFrom (q + 1) prev)
              | None => (field, "")
              end
          | None => (field, "")
          end
      | None => ("", "")
      end
  | None => ("", "")
  end.

(** The loop of [yamlPathFromStructNS] over the remaining segments, with
    the variables [cur] and [path]; [segs] is the whole slice, which the
    early return joins. *)
Fixpoint yamlPathLoop `{unicode.Tables} (segs rest : list string) (cur : reflect.rtype)
    (path : list string) : string :=
  match rest with
  | [] => strings.Join path "."
  | name :: rest' =>
      match reflect.FieldByName cur name with
      | None => strings.Join segs "."
      | Some f =>
          let '(y, inline) := yamlName f in
          let path := if inline then path else path ++ [y] in
          let cur := reflect.indirect (reflect.Type_ f) in
          match cur with
          | reflect.TStruct _ _ _ _ => yamlPathLoop segs rest' cur path
          | _ => strings.Join path "."
          end
      end
  end.

Definition yamlPathFromStructNS `{unicode.Tables} (ns : string) (root : reflect.rtype) : string :=
  let root := reflect.indirect root in
  match root with
  | reflect.TStruct _ _ _ _ =>
      if String.eqb ns "" then ""
      else
        let segs := strings.Split ns "." in
        let segs :=
          if String.eqb (List.hd "" segs) (reflect.Type_Name root)
          then List.tl segs else segs in
        yamlPathLoop segs segs root []
  | _ => ""
  end.

(** One line of the validator's message, as the loop of
    [formatValidationIssues] treats it after trimming. *)
Definition formatIssueLine `{unicode.Tables} (root : reflect.rtype) (p : string) : string :=
  let '(field, rule) := extractFieldAndRule p in
  if negb (String.eqb field "") then
    let yaml := yamlPathFromStructNS field root in
    let yaml := if String.eqb yaml "" then field else yaml in
    yaml +:+ ": " +:+ rule
  else p.

Definition formatValidationIssues `{unicode.Tables} (err : error) (root : reflect.rtype)
    : list string :=
  let msg := Error err in
  let parts := strings.Split msg "010" in
  fold_left (fun out p =>
      let p := strings.TrimSpace p in
      if String.eqb p "" then out
      else out ++ [formatIssueLine root p])
    parts [].

(** *** Check *)

Module CheckResult.
Record t := mk {
  Key : string;
  Type_ : string;
  OK : bool;
  Err : option error;
  Issues : list string;
  Unknown : list string
}.
End CheckResult.

Definition lessCheckResult (a b : CheckResult.t) : bool :=
  lessByKeyType (CheckResult.Key a) (CheckResult.Type_ a)
                (CheckResult.Key b) (CheckResult.Type_ b).

Section Check.
Context {caseTables : unicode.Tables}.
(** What [Check] is given from outside the package: the provider, and the
    shared validator. [bound] is the type of the populated values. *)
Context {bound : Type}.

(** [p.Get(key).Populate(v.Interface())] for [v := reflect.New(base)]. *)
Variable Populate : string -> reflect.rtype -> bound + error.
(** [p.Get(key).Populate(&raw)] for [raw] an [any]. *)
Variable PopulateRaw : string -> dyn.value + error.
(** [validate.Struct] on a populated value. *)
Variable validateStruct : reflect.rtype -> bound -> option error.

(** The body of the loop of [Check]. *)
Definition checkEntry (r : reqEntry) : CheckResult.t :=
  let '(err, issues) :=
    match Populate (key r) (base r) with
    | inr e => (Some e, [])
    | inl v =>
        match validateStruct (base r) v with
        | Some verr => (Some verr, formatValidationIssues verr (base r))
        | None => (None, [])
        end
    end in
  let raw :=
    match PopulateRaw (key r) with
    | inl raw => raw
    | inr _ => dyn.VScalar dyn.SNil
    end in
  let unknown := findUnknownKeys raw (base r) "" in
  let ok := bool_decide (err = None) && (Nat.eqb (List.length unknown) 0) in
  CheckResult.mk (key r) (displayName (base r)) ok err issues unknown.

Definition Check (st : Registry) : list CheckResult.t * Registry :=
  let snapshot := reqs st in
  (sort.SliceStable lessCheckResult (map checkEntry snapshot), st).
End Check.

(** *** YAML skeleton generation *)

(** What the tree of [Skeleton] holds behind [interface{}], with the
    dynamic type: a placeholder of type [string], a map of the local type
    [node], or a map of type [map[string]interface{}]. *)
Inductive any :=
| AString (s : string)
| ANode (m : gmap string any)
| AMap (m : gmap string any).

Definition placeholderFor `{unicode.Tables} (s : FieldSpec.t) : string :=
  let t := strings.ToLower (FieldSpec.Type_ s) in
  let ph :=
    if String.eqb t "string" then String "034" (String "034" EmptyString)
    else if existsb (String.eqb t) ["int"; "int32"; "int64"; "uint"; "uint32"; "uint64"]
    then "0"
    else if existsb (String.eqb t) ["float32"; "float64"] then "0.0"
    else if String.eqb t "bool" then "false"
    else if strings.Contains t "duration"
    then String "034" ("1s" +:+ String "034" EmptyString)
    else "<value>" in
  if FieldSpec.Required s then ph +:+ "  # required" else ph.

(** The inner loop of [Skeleton] over the segments of one path, from the map
    [cur] on; the result is [cur] after the writes, which go through to the
    maps nested in it. [None] is the run-time panic of a write to a nil map:
    [cur[seg].(node)] yields the nil map when [cur[seg]] is not a [node]. *)
Fixpoint setPath (cur : gmap string any) (parts : list string) (ph : string)
    : option (gmap string any) :=
  match parts with
  | [] => Some cur
  | [seg] => Some (<[seg := AString ph]> cur)
  | seg :: rest =>
      let cur := match cur !! seg with
                 | None => <[seg := ANode ∅]> cur
                 | Some _ => cur
                 end in
      match cur !! seg with
      | Some (ANode nxt) =>
          match setPath nxt rest ph with
          | Some nxt' => Some (<[seg := ANode nxt']> cur)
          | None => None
          end
      | _ => None
      end
  end.

(** The outer loop of [Skeleton]. *)
Definition buildTree `{unicode.Tables} (specs : list FieldSpec.t) : option (gmap string any) :=
  fold_left (fun root s =>
      match root with
      | None => None
      | Some root =>
          if String.eqb (FieldSpec.Path s) "" then Some root
          else setPath root (strings.Split (FieldSpec.Path s) ".") (placeholderFor s)
      end)
    specs (Some ∅).

(** The keys of a map in the order of [sort.Strings]. *)
Definition sortedKeys {V : Type} (n : gmap string V) : list string :=
  sort.Strings (map fst (map_to_list n)).

(** The text of the entries of a map in the order of its sorted keys, given
    the text of each entry. *)
Definition inKeyOrder (texts : gmap string string) : list string :=
  map (fun k => default "" (texts !! k)) (sortedKeys texts).

(** [fmt.Fprint] of a value of the tree: a string as it is, a map as
    [map[k1:v1 k2:v2]] with the keys sorted. *)
Fixpoint Fprint (v : any) : string :=
  let printMap (m : gmap string any) :=
    "map[" +:+ strings.Join
      (inKeyOrder (map_imap (fun k v' => Some (k +:+ ":" +:+ Fprint v')) m)) " "
      +:+ "]" in
  match v with
  | AString s => s
  | ANode m => printMap m
  | AMap m => printMap m
  end.

(** The body of the loop of [renderNode] for the key [k] with value [v]:
    the type switch has a case for [map[string]interface{}] only. *)
Fixpoint renderEntry (indent : nat) (k : string) (v : any) : string :=
  let pad := strings.Repeat " " indent in
  match v with
  | AMap vv =>
      pad +:+ k +:+ (":" +:+ String "010" EmptyString)
        +:+ strings.Join
              (inKeyOrder (map_imap (fun k' v' => Some (renderEntry (indent + 2) k' v')) vv))
              ""
  | _ => pad +:+ k +:+ ": " +:+ Fprint v +:+ String "010" EmptyString
  end.

(** [renderNode]: the text written to the builder. *)
Definition renderNode (n : gmap string any) (indent : nat) : string :=
  strings.Join (inKeyOrder (map_imap (fun k v => Some (renderEntry indent k v)) n)) "".

(** [Skeleton]. The outer [None] is a run-time panic. *)
Definition Skeleton `{unicode.Tables} (req : Requirement.t) (st : Registry)
    : option (string + error) * Registry :=
  match fst (Spec req st) with
  | inr err => (Some (inr err), st)
  | inl specs =>
      match buildTree specs with
      | None => (None, st)
      | Some root =>
          if negb (String.eqb (Requirement.Key req) "")
          then (Some (inl (Requirement.Key req +:+ (":" +:+ String "010" EmptyString)
                             +:+ renderNode root 2)), st)
          else (Some (inl (renderNode root 0)), st)
      end
  end.

(** ** Package [configkit]: redact.go *)

Definition secretWords : list string :=
  ["password"; "secret"; "token"; "apikey"; "key"; "dsn"; "cookie"; "bearer"].

Definition isSecretKey `{unicode.Tables} (k : string) : bool :=
  let low := strings.ToLower k in
  existsb (fun w => strings.Contains low w) secretWords.

Definition asString (v : dyn.scalar) : string :=
  match v with
  | dyn.SString s => s
  | s => dyn.Sprint s
  end.

Fixpoint normalize (v : dyn.value) : dyn.value :=
  match v with
  | dyn.VMapAny es =>
      dyn.VMapStr
        (fold_left (fun out '(k, val) => <[asString k := normalize val]> out) es ∅)
  | dyn.VMapStr m => dyn.VMapStr (normalize <$> m)
  | dyn.VSeq l => dyn.VSeq (normalize <$> l)
  | _ => v
  end.

Definition mask : dyn.value := dyn.VScalar (dyn.SString "***").

Fixpoint redact `{unicode.Tables} (v : dyn.value) : dyn.value :=
  match v with
  | dyn.VMapStr m =>
      dyn.VMapStr
        (map_imap (fun k val => Some (if isSecretKey k then mask else redact val)) m)
  | dyn.VSeq l => dyn.VSeq (redact <$> l)
  | _ => v
  end.

Definition Redact `{unicode.Tables} (_ : string) (v : dyn.value) : dyn.value :=
  redact (normalize v).

End configkit.

(** * Properties *)

(** ** The recursive functions in the shape of the source *)

Section SourceShape.
Import reflect configkit.
Context {caseTables : unicode.Tables}.

Lemma indirect_not_ptr (t : rtype) : Kind_of (indirect t) <> Ptr.
Proof. induction t; done. Qed.

Lemma walkType_indirect ft name inline required prefix out :
  walkType ft name inline required prefix out
  = walkType (indirect ft) name inline required prefix out.
Proof. induction ft; done. Qed.

(** The body of the loop of [walkStruct], with the recursive call the
    source makes on the base type of a struct field. *)
Lemma walkField_unfold prefix out f :
  walkField prefix out f =
    if negb (String.eqb (PkgPath f) "") then out
    else
      let '(name, inline) :=
        parseYAMLTag (Tag_Get (Tag f) "yaml") f in
      let required := hasRequired (Tag_Get (Tag f) "validate") in
      let path := fieldPath prefix name inline in
      let base := indirect (Type_ f) in
      match Kind_of base with
      | Struct => walkStruct base path out
      | _ =>
          if String.eqb name "-" then out
          else
            let kind :=
              if String.eqb (Type_Name base) "" then Kind_String (Kind_of base)
              else Type_Name base in
            out ++ [FieldSpec.mk path kind required]
      end.
Proof.
  unfold walkField. destruct (negb _); [done|].
  destruct (parseYAMLTag _ f) as [name inline].
  rewrite walkType_indirect. pose proof (indirect_not_ptr (Type_ f)) as Hp.
  by destruct (indirect (Type_ f)).
Qed.

(** The case [map[string]interface{}] of [renderNode] renders the nested
    map one level deeper. *)
Lemma renderEntry_AMap indent k vv :
  renderEntry indent k (AMap vv)
  = strings.Repeat " " indent +:+ k +:+ (":" +:+ String "010" EmptyString)
      +:+ renderNode vv (indent + 2).
Proof. reflexivity. Qed.

(** Every other value is printed by [fmt.Fprint] on the line of its key. *)
Lemma renderEntry_default indent k v :
  (forall vv, v <> AMap vv) ->
  renderEntry indent k v
  = strings.Repeat " " indent +:+ k +:+ ": " +:+ Fprint v +:+ String "010" EmptyString.
Proof. intros H. destruct v; [done..|]. by destruct (H m). Qed.

End SourceShape.

(** ** Strings *)

Lemma str_app_nil_l (s : string) : "" +:+ s = s.
Proof. reflexivity. Qed.

Lemma str_app_cons (c : ascii) (a b : string) : String c a +:+ b = String c (a +:+ b).
Proof. reflexivity. Qed.

Lemma str_app_nil_r (s : string) : s +:+ "" = s.
Proof. induction s as [|c s IH]; [done|]. by rewrite str_app_cons, IH. Qed.

Lemma str_app_assoc (a b c : string) : (a +:+ b) +:+ c = a +:+ b +:+ c.
Proof. induction a as [|x a IH]; [done|]. by rewrite !str_app_cons, IH. Qed.

Lemma str_length_app (a b : string) :
  String.length (a +:+ b) = (String.length a + String.length b)%nat.
Proof. induction a as [|x a IH]; [done|]. rewrite str_app_cons. simpl. by rewrite IH. Qed.

(** ** The order of strings *)

Lemma lt_spec (a b : string) : strings.lt a b = true <-> String_as_OT.lt a b.
Proof.
  unfold strings.lt, String_as_OT.lt.
  destruct (String_as_OT.compare a b); split; congruence.
Qed.

Lemma lt_irrefl (a : string) : strings.lt a a = false.
Proof.
  destruct (strings.lt a a) eqn:E; [|reflexivity].
  apply lt_spec in E. exfalso. exact (StrictOrder_Irreflexive a E).
Qed.

Lemma lt_trans (a b c : string) :
  strings.lt a b = true -> strings.lt b c = true -> strings.lt a c = true.
Proof.
  rewrite !lt_spec. apply (StrictOrder_Transitive (R := String_as_OT.lt)).
Qed.

Lemma lt_trichotomy (a b : string) :
  strings.lt a b = true \/ a = b \/ strings.lt b a = true.
Proof.
  rewrite !lt_spec.
  destruct (String_as_OT.compare_spec a b); auto.
Qed.

Lemma lt_asym (a b : string) : strings.lt a b = true -> strings.lt b a = false.
Proof.
  intros H. destruct (strings.lt b a) eqn:E; [|reflexivity].
  pose proof (lt_trans _ _ _ H E) as F. rewrite lt_irrefl in F. discriminate.
Qed.

(** [a <= b] on strings, as the negation of [b < a]. *)
Definition str_le (a b : string) : Prop := strings.lt b a = false.

Lemma str_le_trans (a b c : string) : str_le a b -> str_le b c -> str_le a c.
Proof.
  unfold str_le. intros Hab Hbc.
  destruct (strings.lt c a) eqn:E; [|reflexivity].
  destruct (lt_trichotomy a b) as [H | [-> | H]]; try congruence.
  pose proof (lt_trans _ _ _ E H). congruence.
Qed.

(** The lexicographic order on (key, type name) pairs. *)
Definition keyType_le (k1 t1 k2 t2 : string) : Prop :=
  strings.lt k1 k2 = true \/ (k1 = k2 /\ str_le t1 t2).

Lemma lessByKeyType_le (k1 t1 k2 t2 : string) :
  configkit.lessByKeyType k2 t2 k1 t1 = false <-> keyType_le k1 t1 k2 t2.
Proof.
  unfold configkit.lessByKeyType, keyType_le, str_le.
  destruct (String.eqb_spec k2 k1) as [-> | Hne].
  - rewrite lt_irrefl. intuition congruence.
  - split.
    + intros H. left. destruct (lt_trichotomy k1 k2) as [? | [? | ?]]; congruence.
    + intros [H | [? _]]; [by apply lt_asym | congruence].
Qed.

Lemma keyType_le_trans (k1 t1 k2 t2 k3 t3 : string) :
  keyType_le k1 t1 k2 t2 -> keyType_le k2 t2 k3 t3 -> keyType_le k1 t1 k3 t3.
Proof.
  unfold keyType_le.
  intros [H12 | [-> H12]] [H23 | [-> H23]]; auto.
  - left. eapply lt_trans; eauto.
  - right. split; [reflexivity | eapply str_le_trans; eauto].
Qed.

Lemma lessByKeyType_asym (k1 t1 k2 t2 : string) :
  configkit.lessByKeyType k1 t1 k2 t2 = true ->
  configkit.lessByKeyType k2 t2 k1 t1 = false.
Proof.
  unfold configkit.lessByKeyType.
  destruct (String.eqb_spec k1 k2) as [-> | Hne].
  - rewrite String.eqb_refl. apply lt_asym.
  - destruct (String.eqb_spec k2 k1); [congruence | apply lt_asym].
Qed.

(** ** The stable sort *)

Section SortFacts.
Context {A : Type} (less : A -> A -> bool).

Lemma insert_Permutation (x : A) (l : list A) :
  Permutation (sort.insert less x l) (x :: l).
Proof.
  induction l as [|y l IH]; simpl; [reflexivity|].
  destruct (less y x); [|reflexivity].
  rewrite IH. apply perm_swap.
Qed.

Lemma SliceStable_Permutation (l : list A) :
  Permutation (sort.SliceStable less l) l.
Proof.
  induction l as [|x l IH]; simpl; [reflexivity|].
  rewrite insert_Permutation. by constructor.
Qed.

Lemma SliceStable_length (l : list A) :
  List.length (sort.SliceStable less l) = List.length l.
Proof. apply Permutation_length, SliceStable_Permutation. Qed.

(** [le a b]: [b] is not below [a]. *)
Let le (a b : A) : Prop := less b a = false.

Hypothesis less_asym : forall a b, less a b = true -> less b a = false.
Hypothesis le_trans : forall a b c, le a b -> le b c -> le a c.

Lemma insert_StronglySorted (x : A) (l : list A) :
  StronglySorted le l -> StronglySorted le (sort.insert less x l).
Proof.
  induction 1 as [|y l Hs IH Hall]; simpl.
  - repeat constructor.
  - destruct (less y x) eqn:E.
    + constructor; [exact IH|].
      rewrite List.Forall_forall. intros z Hz.
      apply (Permutation_in _ (insert_Permutation x l)) in Hz.
      destruct Hz as [<- | Hz].
      * by apply less_asym.
      * rewrite List.Forall_forall in Hall. by apply Hall.
    + constructor; [by constructor|].
      constructor; [exact E|].
      eapply List.Forall_impl; [|exact Hall]. intros z Hz. by eapply le_trans.
Qed.

Lemma SliceStable_StronglySorted (l : list A) :
  StronglySorted le (sort.SliceStable less l).
Proof.
  induction l as [|x l IH]; simpl; [constructor|].
  by apply insert_StronglySorted.
Qed.

End SortFacts.

Lemma StronglySorted_impl {A : Type} (R R' : A -> A -> Prop) (l : list A) :
  (forall a b, R a b -> R' a b) -> StronglySorted R l -> StronglySorted R' l.
Proof.
  intros HR. induction 1 as [|x l _ IH Hall]; constructor; [done|].
  eapply List.Forall_impl; [|exact Hall]. apply HR.
Qed.

Lemma Strings_sorted (l : list string) : StronglySorted str_le (sort.Strings l).
Proof.
  apply SliceStable_StronglySorted.
  - apply lt_asym.
  - apply str_le_trans.
Qed.

Lemma Strings_Permutation (l : list string) : Permutation (sort.Strings l) l.
Proof. apply SliceStable_Permutation. Qed.

(** ** The requirement registry *)

Section RegistryFacts.
Import configkit.

(** The deduplication key of an entry. *)
Definition entryKey (e : reqEntry) : string := typeKey (key e) (t e).

(** The registries a process can be in: registrations since the start
    (or since the last reset). *)
Inductive Reachable : Registry -> Prop :=
| Reachable_empty : Reachable emptyRegistry
| Reachable_register k typ st :
    Reachable st -> Reachable (registerRequirementType k typ st).

(** [reqSeen] is the set of the keys of [reqs], which has no key twice. *)
Definition consistent (st : Registry) : Prop :=
  (forall k, k ∈ reqSeen st <-> k ∈ map entryKey (reqs st))
  /\ NoDup (map entryKey (reqs st)).

Lemma register_seen k typ st :
  typeKey k typ ∈ reqSeen st -> registerRequirementType k typ st = st.
Proof. intros H. unfold registerRequirementType. by rewrite decide_True. Qed.

Lemma register_fresh k typ st :
  typeKey k typ ∉ reqSeen st ->
  registerRequirementType k typ st =
    mkRegistry ({[typeKey k typ]} ∪ reqSeen st)
               (reqs st ++ [mkReqEntry k typ (reflect.indirect typ)]).
Proof. intros H. unfold registerRequirementType. by rewrite decide_False. Qed.

Lemma register_marks_seen k typ st :
  typeKey k typ ∈ reqSeen (registerRequirementType k typ st).
Proof.
  destruct (decide (typeKey k typ ∈ reqSeen st)) as [H | H].
  - by rewrite register_seen.
  - rewrite register_fresh by done. simpl. set_solver.
Qed.

Lemma register_idempotent k typ st :
  registerRequirementType k typ (registerRequirementType k typ st) =
  registerRequirementType k typ st.
Proof. apply register_seen, register_marks_seen. Qed.

Lemma Reachable_consistent st : Reachable st -> consistent st.
Proof.
  induction 1 as [|k typ st _ [IHseen IHnd]].
  - split; [|constructor]. intros k. simpl. set_solver.
  - destruct (decide (typeKey k typ ∈ reqSeen st)) as [H | H].
    + rewrite register_seen by done. by split.
    + rewrite register_fresh by done. split; simpl.
      * intros k'. rewrite map_app, elem_of_app, elem_of_union, IHseen. simpl.
        rewrite elem_of_singleton, list_elem_of_singleton. unfold entryKey at 2.
        simpl. tauto.
      * rewrite map_app. simpl. apply NoDup_app. split; [done|].
        split; [|apply NoDup_singleton].
        intros k' Hk' Hin. apply list_elem_of_singleton in Hin. subst k'.
        apply H, IHseen, Hk'.
Qed.

(** The string form of a pointer type differs from that of its element. *)
Lemma Type_String_ptr_ne (typ : reflect.rtype) :
  reflect.Type_String (reflect.TPtr typ) <> reflect.Type_String typ.
Proof.
  simpl. intros H. apply (f_equal String.length) in H.
  rewrite str_length_app in H. simpl in H. lia.
Qed.

Lemma typeKey_inj_type k t1 t2 :
  typeKey k t1 = typeKey k t2 -> reflect.Type_String t1 = reflect.Type_String t2.
Proof.
  unfold typeKey. intros H.
  induction k as [|c k IH]; simpl in H; [|apply IH]; by injection H.
Qed.

Lemma requirementOf_ptr k typ :
  requirementOf (mkReqEntry k (reflect.TPtr typ) (reflect.indirect (reflect.TPtr typ)))
  = requirementOf (mkReqEntry k typ (reflect.indirect typ)).
Proof. reflexivity. Qed.

End RegistryFacts.

Section RegistryClaims.
Import configkit.

Local Abbreviation register := registerRequirementType.

Lemma Requirements_length st :
  List.length (fst (Requirements st)) = List.length (reqs st).
Proof. simpl. by rewrite SliceStable_length, length_map. Qed.

Lemma Requirements_Permutation st :
  Permutation (fst (Requirements st)) (map requirementOf (reqs st)).
Proof. apply SliceStable_Permutation. Qed.

Lemma lessRequirement_irrefl r : lessRequirement r r = false.
Proof.
  unfold lessRequirement, lessByKeyType. rewrite String.eqb_refl. apply lt_irrefl.
Qed.

Lemma count_entryKey_fresh k (l : list reqEntry) :
  k ∉ map entryKey l ->
  List.filter (fun e => bool_decide (entryKey e = k)) l = [].
Proof.
  induction l as [|e l IH]; simpl; [done|]. intros H.
  rewrite bool_decide_eq_false_2 by set_solver. apply IH. set_solver.
Qed.

Lemma count_entryKey_seen k (l : list reqEntry) :
  NoDup (map entryKey l) -> k ∈ map entryKey l ->
  List.length (List.filter (fun e => bool_decide (entryKey e = k)) l) = 1%nat.
Proof.
  induction l as [|e l IH]; simpl; [set_solver|].
  intros [Hne Hnd]%NoDup_cons Hin. case_bool_decide as E.
  - subst k. simpl. by rewrite count_entryKey_fresh.
  - apply IH; [done|]. set_solver.
Qed.

(** The byte NUL, which [typeKey] puts between the key and the string
    form of the type, does not occur in [s]. The string form of a Go type
    is made of identifiers, import paths and punctuation and holds none. *)
Fixpoint noNUL (s : string) : bool :=
  match s with
  | String c s' => negb (Ascii.eqb c "000") && noNUL s'
  | EmptyString => true
  end.

(** The string forms of the registered types are string forms of Go
    types. *)
Definition plainTypes (st : Registry) : Prop :=
  forall e, e ∈ reqs st -> noNUL (reflect.Type_String (t e)) = true.

(** The entry is one of the pair of the key [k] and the signature of
    [typ], the string form of the type. *)
Definition ofPair (k : string) (typ : reflect.rtype) (e : reqEntry) : bool :=
  String.eqb (key e) k
  && String.eqb (reflect.Type_String (t e)) (reflect.Type_String typ).

Definition pairEntries (k : string) (typ : reflect.rtype) (st : Registry)
    : list reqEntry :=
  List.filter (ofPair k typ) (reqs st).

Lemma noNUL_app_NUL (a b : string) :
  noNUL (a +:+ String "000" b) = false.
Proof.
  induction a as [|c a IH]; [done|].
  rewrite str_app_cons. simpl. rewrite IH. apply andb_false_r.
Qed.

Lemma str_app_inv_tail (a b c : string) : a +:+ c = b +:+ c -> a = b.
Proof.
  revert b. induction a as [|x a IH]; intros [|y b] H.
  - done.
  - apply (f_equal String.length) in H. rewrite !str_length_app in H.
    simpl in H. lia.
  - apply (f_equal String.length) in H. rewrite !str_length_app in H.
    simpl in H. lia.
  - rewrite !str_app_cons in H. injection H as -> H. f_equal. by apply IH.
Qed.

(** One type under two keys has two deduplication keys. *)
Lemma typeKey_inj_key (k1 k2 : string) (typ : reflect.rtype) :
  typeKey k1 typ = typeKey k2 typ -> k1 = k2.
Proof.
  unfold typeKey. apply str_app_inv_tail.
Qed.

Lemma typeKey_cons (k : string) (typ : reflect.rtype) :
  typeKey k typ = k +:+ String "000" (reflect.Type_String typ).
Proof. unfold typeKey. by rewrite str_app_cons, str_app_nil_l. Qed.

Lemma split_at_NUL (k1 k2 s1 s2 : string) :
  noNUL s1 = true -> noNUL s2 = true ->
  k1 +:+ String "000" s1 = k2 +:+ String "000" s2 ->
  k1 = k2 /\ s1 = s2.
Proof.
  intros H1 H2. revert k2.
  induction k1 as [|c k1 IH]; intros [|d k2] H.
  - rewrite !str_app_nil_l in H. by injection H.
  - rewrite str_app_nil_l, str_app_cons in H. injection H as <- H.
    rewrite H, noNUL_app_NUL in H1. done.
  - rewrite str_app_nil_l, str_app_cons in H. injection H as -> H.
    rewrite <- H, noNUL_app_NUL in H2. done.
  - rewrite !str_app_cons in H. injection H as -> H.
    apply IH in H as [-> ->]. done.
Qed.

(** The deduplication key tells the pairs of a key and a signature
    apart. *)
Lemma typeKey_inj (k1 k2 : string) (t1 t2 : reflect.rtype) :
  noNUL (reflect.Type_String t1) = true ->
  noNUL (reflect.Type_String t2) = true ->
  typeKey k1 t1 = typeKey k2 t2 ->
  k1 = k2 /\ reflect.Type_String t1 = reflect.Type_String t2.
Proof. rewrite !typeKey_cons. apply split_at_NUL. Qed.

Lemma ofPair_entryKey (k : string) (typ : reflect.rtype) (e : reqEntry) :
  noNUL (reflect.Type_String (t e)) = true ->
  noNUL (reflect.Type_String typ) = true ->
  ofPair k typ e = bool_decide (entryKey e = typeKey k typ).
Proof.
  intros He Ht. unfold ofPair, entryKey. case_bool_decide as E.
  - apply typeKey_inj in E as [-> ->]; [|done..].
    by rewrite !String.eqb_refl.
  - apply andb_false_iff.
    destruct (String.eqb_spec (key e) k) as [Hk|]; [|by left]. right.
    apply String.eqb_neq. intros Hs. apply E. unfold typeKey.
    by rewrite Hk, Hs.
Qed.

Lemma plainTypes_register (k : string) (typ : reflect.rtype) (st : Registry) :
  plainTypes st -> noNUL (reflect.Type_String typ) = true ->
  plainTypes (register k typ st).
Proof.
  intros Hst Ht e. unfold register, registerRequirementType.
  case_decide; [apply Hst|]. simpl.
  intros [He | ->%list_elem_of_singleton]%elem_of_app; [by apply Hst | done].
Qed.

(** In a registry built by registrations, the deduplication key of a pair
    has been seen exactly when an entry of the pair is there. *)
Lemma seen_ofPair (k : string) (typ : reflect.rtype) (st : Registry) :
  Reachable st -> plainTypes st -> noNUL (reflect.Type_String typ) = true ->
  typeKey k typ ∈ reqSeen st
  <-> exists e, e ∈ reqs st /\ key e = k
                /\ reflect.Type_String (t e) = reflect.Type_String typ.
Proof.
  intros Hst Hplain Ht.
  destruct (Reachable_consistent _ Hst) as [Hseen _]. rewrite Hseen. split.
  - intros (e & He & Hin)%list_elem_of_In%in_map_iff.
    apply list_elem_of_In in Hin. exists e. split; [done|].
    apply typeKey_inj; [by apply Hplain | done..].
  - intros (e & Hin & Hk & Hs). apply list_elem_of_In, in_map_iff.
    exists e. split; [|by apply list_elem_of_In].
    unfold entryKey, typeKey. by rewrite Hk, Hs.
Qed.

Lemma pairEntries_registered (k : string) (typ : reflect.rtype) (st : Registry) :
  Reachable st -> plainTypes st -> noNUL (reflect.Type_String typ) = true ->
  List.length (pairEntries k typ (register k typ st)) = 1%nat.
Proof.
  intros Hst Hplain Ht. unfold pairEntries.
  pose proof (plainTypes_register k typ st Hplain Ht) as Hplain'.
  rewrite (filter_ext_in (ofPair k typ)
             (fun e => bool_decide (entryKey e = typeKey k typ))).
  - destruct (Reachable_consistent _ (Reachable_register k typ st Hst))
      as [Hseen Hnd].
    apply count_entryKey_seen; [done|]. apply Hseen, register_marks_seen.
  - intros e He. apply ofPair_entryKey; [|done].
    by apply Hplain', list_elem_of_In.
Qed.

Lemma pairEntries_nil (k : string) (typ : reflect.rtype) (st : Registry) :
  pairEntries k typ st = []
  <-> ~ exists e, e ∈ reqs st /\ key e = k
                  /\ reflect.Type_String (t e) = reflect.Type_String typ.
Proof.
  unfold pairEntries. split.
  - intros Hnil (e & Hin & Hk & Hs).
    assert (He : List.In e (List.filter (ofPair k typ) (reqs st))).
    { apply filter_In. split; [by apply list_elem_of_In|].
      unfold ofPair. rewrite Hk, Hs. by rewrite !String.eqb_refl. }
    by rewrite Hnil in He.
  - intros Hno. destruct (List.filter _ _) as [|e l] eqn:E; [done|].
    assert (He : List.In e (List.filter (ofPair k typ) (reqs st)))
      by (rewrite E; by left).
    apply filter_In in He as [Hin [Hk Hs]%andb_true_iff].
    destruct Hno. exists e. split; [by apply list_elem_of_In|].
    split; [by apply String.eqb_eq | by apply String.eqb_eq].
Qed.

(** C2. Registration is idempotent and deduplicates by the pair of the key
    and the signature (the string form of the type): registering a pair
    again changes nothing; in a registry built by registrations a
    registration is dropped exactly when an entry with that key and that
    signature is there, and after it there is exactly one such entry,
    however often the pair is registered; from the empty registry the same
    pair registered twice gives one entry in [Requirements()], one key with
    two types of different signatures gives two, and so does one type
    under two keys. *)
Theorem registration_idempotent_and_distinct :
  (forall st k typ, register k typ (register k typ st) = register k typ st)
  /\ (forall st k typ,
        Reachable st -> plainTypes st ->
        noNUL (reflect.Type_String typ) = true ->
        (register k typ st = st
         <-> exists e, e ∈ reqs st /\ key e = k
                       /\ reflect.Type_String (t e) = reflect.Type_String typ)
        /\ List.length (pairEntries k typ (register k typ st)) = 1%nat
        /\ List.length (pairEntries k typ (register k typ (register k typ st)))
           = 1%nat
        /\ (pairEntries k typ st = [] ->
            List.length (fst (Requirements (register k typ (register k typ st))))
            = S (List.length (fst (Requirements st)))))
  /\ (forall k typ,
        fst (Requirements (register k typ (register k typ emptyRegistry)))
        = [requirementOf (mkReqEntry k typ (reflect.indirect typ))])
  /\ (forall st k t1 t2,
        Reachable st -> plainTypes st ->
        noNUL (reflect.Type_String t1) = true ->
        noNUL (reflect.Type_String t2) = true ->
        reflect.Type_String t1 <> reflect.Type_String t2 ->
        pairEntries k t1 st = [] -> pairEntries k t2 st = [] ->
        List.length (fst (Requirements (register k t2 (register k t1 st))))
        = S (S (List.length (fst (Requirements st)))))
  /\ (forall k t1 t2,
        reflect.Type_String t1 <> reflect.Type_String t2 ->
        List.length (fst (Requirements (register k t2 (register k t1 emptyRegistry))))
        = 2%nat)
  /\ (forall k1 k2 typ,
        k1 <> k2 ->
        List.length (fst (Requirements (register k2 typ (register k1 typ emptyRegistry))))
        = 2%nat).
Proof.
  assert (Htwo : forall st k1 k2 t1 t2,
    typeKey k1 t1 <> typeKey k2 t2 ->
    typeKey k1 t1 ∉ reqSeen st -> typeKey k2 t2 ∉ reqSeen st ->
    List.length (fst (Requirements (register k2 t2 (register k1 t1 st))))
    = S (S (List.length (fst (Requirements st))))).
  { intros st k1 k2 t1 t2 Hne H1 H2. rewrite !Requirements_length.
    rewrite (register_fresh k1 t1) by done. rewrite register_fresh.
    - simpl. rewrite !length_app. simpl. lia.
    - simpl. intros [E%elem_of_singleton | E]%elem_of_union; [|done].
      by destruct Hne. }
  assert (Hfresh : forall st k typ,
    Reachable st -> plainTypes st -> noNUL (reflect.Type_String typ) = true ->
    pairEntries k typ st = [] -> typeKey k typ ∉ reqSeen st).
  { intros st k typ Hst Hplain Ht Hnil Hin.
    apply (seen_ofPair k typ st Hst Hplain Ht) in Hin.
    by apply pairEntries_nil in Hnil. }
  split; [intros; apply register_idempotent|].
  split; [|split; [|split; [|split]]].
  - intros st k typ Hst Hplain Ht. split; [|split; [|split]].
    + rewrite <- (seen_ofPair k typ st Hst Hplain Ht). split.
      * intros E. destruct (decide (typeKey k typ ∈ reqSeen st)) as [|Hn]; [done|].
        rewrite register_fresh in E by done.
        apply (f_equal (fun r => List.length (reqs r))) in E. simpl in E.
        rewrite length_app in E. simpl in E. lia.
      * apply register_seen.
    + by apply pairEntries_registered.
    + rewrite register_idempotent. by apply pairEntries_registered.
    + intros Hnil. rewrite register_idempotent, !Requirements_length.
      rewrite register_fresh by by apply Hfresh.
      simpl. rewrite length_app. simpl. lia.
  - intros k typ. rewrite register_idempotent. reflexivity.
  - intros st k t1 t2 Hst Hplain Ht1 Ht2 Hne Hn1 Hn2.
    apply Htwo; [|by apply Hfresh..].
    intros E. by apply typeKey_inj_type in E.
  - intros k t1 t2 Hne. rewrite Htwo; [done| |simpl; set_solver..].
    intros E. by apply typeKey_inj_type in E.
  - intros k1 k2 typ Hne. rewrite Htwo; [done| |simpl; set_solver..].
    intros E. by apply typeKey_inj_key in E.
Qed.

Lemma registration_idempotent_and_distinct_witness :
  let T1 := reflect.TStruct "Config" "example.com/db" "db.Config" [] in
  let T2 := reflect.TLeaf reflect.Int "Port" "example.com/db" "db.Port" in
  let st := register "cache" T1 emptyRegistry in
  List.length (pairEntries "db" T1 (register "db" T1 (register "db" T1 st))) = 1%nat
  /\ List.length (fst (Requirements (register "db" T1 (register "db" T1 st))))
     = S (List.length (fst (Requirements st)))
  /\ List.length (fst (Requirements (register "db" T2 (register "db" T1 st))))
     = S (S (List.length (fst (Requirements st)))).
Proof.
  intros T1 T2 st.
  destruct registration_idempotent_and_distinct as (_ & Hpair & _ & Hsig & _ & _).
  assert (Hst : Reachable st) by (apply Reachable_register; constructor).
  assert (Hplain : plainTypes st).
  { intros e ->%list_elem_of_singleton. reflexivity. }
  destruct (Hpair st "db" T1 Hst Hplain eq_refl) as (_ & _ & Hone & Hnew).
  split; [exact Hone|]. split; [by apply Hnew|].
  by apply Hsig.
Defined.

(** C10. Deduplication is by the string form of the registered type,
    pointers included, while [Requirements()] shows the base type: after
    (k, T) and then (k, *T) are registered, [Requirements()] holds two
    entries with the same Key, Type and PkgPath. *)
Theorem pointer_registration_duplicates_entry :
  (forall k typ,
     fst (Requirements (register k (reflect.TPtr typ) (register k typ emptyRegistry)))
     = [requirementOf (mkReqEntry k typ (reflect.indirect typ));
        requirementOf (mkReqEntry k typ (reflect.indirect typ))])
  /\ (forall st k typ,
        typeKey k typ ∉ reqSeen st -> typeKey k (reflect.TPtr typ) ∉ reqSeen st ->
        let r := requirementOf (mkReqEntry k typ (reflect.indirect typ)) in
        Permutation
          (fst (Requirements (register k (reflect.TPtr typ) (register k typ st))))
          (r :: r :: fst (Requirements st))).
Proof.
  assert (Hfresh : forall st k typ, typeKey k typ ∉ reqSeen st ->
    typeKey k (reflect.TPtr typ) ∉ reqSeen st ->
    reqs (register k (reflect.TPtr typ) (register k typ st))
    = reqs st ++ [mkReqEntry k typ (reflect.indirect typ);
                  mkReqEntry k (reflect.TPtr typ) (reflect.indirect typ)]).
  { intros st k typ H1 H2. rewrite (register_fresh k typ) by done.
    rewrite register_fresh.
    - simpl. by rewrite <- List.app_assoc.
    - simpl. intros [E%elem_of_singleton | E]%elem_of_union; [|done].
      apply typeKey_inj_type in E. by apply Type_String_ptr_ne in E. }
  split.
  - intros k typ. unfold Requirements. rewrite Hfresh by (simpl; set_solver).
    simpl. unfold requirementOf at 3. simpl.
    fold (requirementOf (mkReqEntry k typ (reflect.indirect typ))).
    by rewrite lessRequirement_irrefl.
  - intros st k typ H1 H2 r. rewrite !Requirements_Permutation.
    rewrite Hfresh by done. rewrite map_app. simpl.
    rewrite <- Permutation_app_comm. reflexivity.
Qed.

Lemma pointer_registration_duplicates_entry_witness :
  let T := reflect.TStruct "Config" "example.com/db" "db.Config" [] in
  let r := requirementOf (mkReqEntry "db" T T) in
  Permutation
    (fst (Requirements (register "db" (reflect.TPtr T) (register "db" T emptyRegistry))))
    (r :: r :: fst (Requirements emptyRegistry)).
Proof.
  intros T r.
  apply (proj2 pointer_registration_duplicates_entry emptyRegistry "db" T);
    simpl; set_solver.
Defined.

End RegistryClaims.

(** ** White space and the lines of a message *)

Fixpoint allSpace (s : string) : bool :=
  match s with
  | String c s' => strings.isSpace c && allSpace s'
  | EmptyString => true
  end.

Lemma trimRight_empty (s : string) :
  strings.trimRight s = "" <-> allSpace s = true.
Proof.
  induction s as [|c s IH]; simpl; [done|].
  destruct (strings.trimRight s) eqn:E.
  - destruct (strings.isSpace c); simpl; [tauto|]. split; discriminate.
  - rewrite andb_true_iff. split; [discriminate|].
    intros [_ H]. apply IH in H. discriminate.
Qed.

Lemma trimLeft_allSpace (s : string) : allSpace (strings.trimLeft s) = allSpace s.
Proof.
  induction s as [|c s IH]; simpl; [done|].
  destruct (strings.isSpace c) eqn:E; simpl; [done|]. by rewrite E.
Qed.

Lemma TrimSpace_empty (s : string) :
  strings.TrimSpace s = "" <-> allSpace s = true.
Proof. unfold strings.TrimSpace. by rewrite trimRight_empty, trimLeft_allSpace. Qed.

Lemma Split_nonempty (s : string) (sep : ascii) : strings.Split s sep <> [].
Proof.
  destruct s as [|c s]; simpl; [done|].
  destruct (Ascii.eqb c sep); [done|]. by destruct (strings.Split s sep).
Qed.

Lemma Split_allSpace (s : string) (sep : ascii) :
  strings.isSpace sep = true ->
  List.Forall (fun p => allSpace p = true) (strings.Split s sep) ->
  allSpace s = true.
Proof.
  intros Hsep. induction s as [|c s IH]; simpl; [done|].
  destruct (Ascii.eqb_spec c sep) as [-> | Hne].
  - intros H. inversion_clear H. rewrite Hsep. simpl. auto.
  - pose proof (Split_nonempty s sep) as Hne'.
    destruct (strings.Split s sep) as [|p ps]; [done|].
    intros H. inversion_clear H. simpl in *.
    apply andb_true_iff in H0 as [-> Hp]. simpl. apply IH. by constructor.
Qed.

Section IssueFacts.
Import configkit.
Context {caseTables : unicode.Tables}.

Lemma formatIssues_fold_nil root (parts : list string) (acc : list string) :
  fold_left (fun out p =>
      let p := strings.TrimSpace p in
      if String.eqb p "" then out else out ++ [formatIssueLine root p])
    parts acc = [] ->
  acc = [] /\ List.Forall (fun p => strings.TrimSpace p = "") parts.
Proof.
  revert acc. induction parts as [|p parts IH]; simpl; intros acc H; [done|].
  apply IH in H as [Hacc Hall].
  destruct (String.eqb_spec (strings.TrimSpace p) "") as [E | E].
  - split; [done|]. by constructor.
  - by destruct acc.
Qed.

(** A message that is not blank gives at least one issue. *)
Lemma formatValidationIssues_nonempty (err : error) root :
  strings.TrimSpace (Error err) <> "" -> formatValidationIssues err root <> [].
Proof.
  intros Hmsg Hnil. apply Hmsg, TrimSpace_empty.
  apply formatIssues_fold_nil in Hnil as [_ Hall].
  apply (Split_allSpace _ "010"); [done|].
  eapply List.Forall_impl; [|exact Hall].
  intros p Hp. by apply TrimSpace_empty.
Qed.

End IssueFacts.

(** ** Check *)

Section CheckClaims.
Import configkit.
Context {caseTables : unicode.Tables}.
Context {bound : Type}.
Variable Populate : string -> reflect.rtype -> bound + error.
Variable PopulateRaw : string -> dyn.value + error.
Variable validateStruct : reflect.rtype -> bound -> option error.

Local Abbreviation checkEntry' := (checkEntry Populate PopulateRaw validateStruct).
Local Abbreviation Check' := (Check Populate PopulateRaw validateStruct).

(** Sorted by (key, typeName). *)
Definition requirement_le (a b : Requirement.t) : Prop :=
  keyType_le (Requirement.Key a) (Requirement.Type_ a)
             (Requirement.Key b) (Requirement.Type_ b).

Definition checkResult_le (a b : CheckResult.t) : Prop :=
  keyType_le (CheckResult.Key a) (CheckResult.Type_ a)
             (CheckResult.Key b) (CheckResult.Type_ b).

(** C3. The lists of [Requirements()] and of [Check()] are sorted by
    (key, typeName); [Requirements()] leaves the registry as it is, so a
    second call returns the same list. *)
Theorem Requirements_and_Check_sorted (st : Registry) :
  StronglySorted requirement_le (fst (Requirements st))
  /\ StronglySorted checkResult_le (fst (Check' st))
  /\ snd (Requirements st) = st
  /\ fst (Requirements (snd (Requirements st))) = fst (Requirements st).
Proof.
  split; [|split; [|done]].
  - eapply StronglySorted_impl; [|apply (SliceStable_StronglySorted lessRequirement)].
    + intros a b H. by apply lessByKeyType_le in H.
    + intros a b. apply lessByKeyType_asym.
    + intros a b c. unfold lessRequirement.
      rewrite !lessByKeyType_le. apply keyType_le_trans.
  - eapply StronglySorted_impl; [|apply (SliceStable_StronglySorted lessCheckResult)].
    + intros a b H. by apply lessByKeyType_le in H.
    + intros a b. apply lessByKeyType_asym.
    + intros a b c. unfold lessCheckResult.
      rewrite !lessByKeyType_le. apply keyType_le_trans.
Qed.

(** The validator's errors have a message that is not blank. *)
Definition validatorSpeaks (typ : reflect.rtype) : Prop :=
  forall v err, validateStruct typ v = Some err ->
    strings.TrimSpace (Error err) <> "".

Lemma checkEntry_OK_elim (r : reqEntry) :
  CheckResult.OK (checkEntry' r) = true ->
  (exists v, Populate (key r) (base r) = inl v
             /\ validateStruct (base r) v = None)
  /\ CheckResult.Err (checkEntry' r) = None
  /\ CheckResult.Issues (checkEntry' r) = []
  /\ CheckResult.Unknown (checkEntry' r) = [].
Proof.
  unfold checkEntry.
  destruct (Populate (key r) (base r)) as [v | e] eqn:EP; [|done].
  destruct (validateStruct (base r) v) as [verr |] eqn:EV; simpl; [done|].
  rewrite Nat.eqb_eq, length_zero_iff_nil. intros Hu.
  split; [by exists v|]. by rewrite Hu.
Qed.

Lemma checkEntry_OK_intro (r : reqEntry) :
  validatorSpeaks (base r) ->
  (exists v, Populate (key r) (base r) = inl v) ->
  CheckResult.Issues (checkEntry' r) = [] ->
  CheckResult.Unknown (checkEntry' r) = [] ->
  CheckResult.OK (checkEntry' r) = true.
Proof.
  intros Hmsg [v EP]. unfold checkEntry. rewrite EP.
  destruct (validateStruct (base r) v) as [verr |] eqn:EV; simpl.
  - intros Hi. by apply formatValidationIssues_nonempty in Hi; [|eapply Hmsg].
  - intros _ ->. done.
Qed.

(** C1. [Check] returns one result for every requirement of the snapshot:
    the results are those of the loop body on the entries, in sorted order,
    whatever populating or validating an entry gives; a bind failure is the
    [Err] of that entry's result; and [OK] holds exactly when populating
    succeeded and there is neither an issue nor an unknown key (the
    validator never returning an error with a blank message). *)
Theorem Check_one_result_per_requirement (st : Registry) :
  Permutation (fst (Check' st)) (map checkEntry' (reqs st))
  /\ List.length (fst (Check' st)) = List.length (reqs st)
  /\ snd (Check' st) = st
  /\ (forall r, r ∈ reqs st ->
        CheckResult.Key (checkEntry' r) = key r
        /\ (forall e, Populate (key r) (base r) = inr e ->
              CheckResult.Err (checkEntry' r) = Some e
              /\ CheckResult.OK (checkEntry' r) = false)
        /\ (CheckResult.OK (checkEntry' r) = true ->
              (exists v, Populate (key r) (base r) = inl v)
              /\ CheckResult.Issues (checkEntry' r) = []
              /\ CheckResult.Unknown (checkEntry' r) = [])
        /\ (validatorSpeaks (base r) ->
            (exists v, Populate (key r) (base r) = inl v) ->
            CheckResult.Issues (checkEntry' r) = [] ->
            CheckResult.Unknown (checkEntry' r) = [] ->
            CheckResult.OK (checkEntry' r) = true)).
Proof.
  split; [apply SliceStable_Permutation|].
  split; [simpl; by rewrite SliceStable_length, length_map|].
  split; [done|].
  intros r _. split; [|split; [|split]].
  - unfold checkEntry. by destruct (Populate _ _) as [v|]; [destruct (validateStruct _ v)|].
  - intros e He. unfold checkEntry. by rewrite He.
  - intros H. apply checkEntry_OK_elim in H as ([v [Hv _]] & _ & Hi & Hu). eauto.
  - apply checkEntry_OK_intro.
Qed.

End CheckClaims.

(** ** Example types and documents *)

Module Examples.
Import reflect.

(** The case table the examples run with: the letters of Latin-1, and no
    example holds another letter outside ASCII. *)
#[global] Instance latin1 : unicode.Tables :=
  {| unicode.To_LowerCase r :=
       if ((0xC0 <=? r) && (r <=? 0xDE) && negb (r =? 0xD7))%Z then (r + 32)%Z else r |}.

Definition tString : rtype := TLeaf String_ "string" "" "string".
Definition tInt : rtype := TLeaf Int "int" "" "int".

(** An exported field with a [yaml] tag and a [validate] tag. *)
Definition field (name yaml validate : string) (typ : rtype) : StructField :=
  mkField name "" typ
    (("yaml", yaml) :: if String.eqb validate "" then [] else [("validate", validate)])
    false.

(** [type Config struct { Host string `yaml:"host" validate:"required"`;
    Port int `yaml:"port"` }] of a package [db]. *)
Definition dbConfig : rtype :=
  TStruct "Config" "example.com/app/db" "db.Config"
    [field "Host" "host" "required" tString; field "Port" "port" "" tInt].

Definition dbRegistry : configkit.Registry :=
  configkit.registerRequirementType "db" dbConfig configkit.emptyRegistry.

Definition dbRequirement : configkit.Requirement.t :=
  configkit.Requirement.mk "db" "db.Config" "example.com/app/db".

(** What the validator reports for a missing host. *)
Definition hostRequiredMessage : string :=
  "Key: 'Config.Host' Error:Field validation for 'Host' failed on the 'required' tag".

(** A provider over the document [db: {port: 5432}], with the populated
    value left abstract, and the validator's answer for it. *)
Definition portOnlyPopulate (key : string) (_ : rtype) : unit + configkit.error :=
  inl ().

Definition portOnlyRaw (key : string) : dyn.value + configkit.error :=
  inl (dyn.VMapAny [(dyn.SString "port", dyn.VScalar (dyn.SInt 5432))]).

Definition portOnlyValidate (_ : rtype) (_ : unit) : option configkit.error :=
  Some (configkit.ExternalError hostRequiredMessage).

End Examples.

(** Runes and letter case on a few strings: the letters É and é
    (U+00C9, U+00E9), the euro sign (U+20AC) and a face (U+1F600) in
    UTF-8, and bytes that are no UTF-8. *)
Module CaseExamples.

Definition bytes (l : list ascii) : string := fold_right String EmptyString l.

Definition Ecole : string := bytes ["195"; "137"]%char +:+ "COLE".
Definition ecole : string := bytes ["195"; "169"]%char +:+ "cole".
Definition euro : string := bytes ["226"; "130"; "172"]%char.
Definition face : string := bytes ["240"; "159"; "152"; "128"]%char.
Definition replacement : string := bytes ["239"; "191"; "189"]%char.

End CaseExamples.

Example DecodeRuneInString_examples :
  utf8.DecodeRuneInString CaseExamples.ecole = (0xE9%Z, 2%nat)
  /\ utf8.DecodeRuneInString CaseExamples.euro = (0x20AC%Z, 3%nat)
  /\ utf8.DecodeRuneInString CaseExamples.face = (0x1F600%Z, 4%nat)
  /\ utf8.DecodeRuneInString (CaseExamples.bytes ["192"; "128"]%char)
     = (utf8.RuneError, 1%nat)
  /\ utf8.DecodeRuneInString (CaseExamples.bytes ["237"; "160"; "128"]%char)
     = (utf8.RuneError, 1%nat)
  /\ utf8.DecodeRuneInString (CaseExamples.bytes ["226"; "130"]%char +:+ "x")
     = (utf8.RuneError, 1%nat)
  /\ utf8.DecodeRuneInString (CaseExamples.bytes ["244"; "144"; "128"; "128"]%char)
     = (utf8.RuneError, 1%nat).
Proof. repeat split; vm_compute; reflexivity. Qed.

Example AppendRune_examples :
  utf8.AppendRune 0xE9 = CaseExamples.bytes ["195"; "169"]%char
  /\ utf8.AppendRune 0x20AC = CaseExamples.euro
  /\ utf8.AppendRune 0x1F600 = CaseExamples.face
  /\ utf8.AppendRune 0xD800 = CaseExamples.replacement
  /\ utf8.AppendRune 0x110000 = CaseExamples.replacement
  /\ utf8.AppendRune utf8.RuneError = CaseExamples.replacement.
Proof. repeat split; vm_compute; reflexivity. Qed.

(** [strings.ToLower] with the Latin-1 table: a string with a letter
    outside ASCII goes rune by rune, and a byte that is no UTF-8 comes out
    as the replacement character. *)
Example ToLower_examples :
  strings.ToLower "EnablePprof" = "enablepprof"
  /\ strings.ToLower CaseExamples.Ecole = CaseExamples.ecole
  /\ strings.ToLower (CaseExamples.euro +:+ "UR") = CaseExamples.euro +:+ "ur"
  /\ strings.ToLower (CaseExamples.bytes ["201"]%char +:+ "COLE")
     = CaseExamples.replacement +:+ "cole".
Proof. repeat split; vm_compute; reflexivity. Qed.

(** The same provider over the document [db: {host: localhost, port: 5432}],
    which the validator accepts. *)
Module PassExample.

Definition raw (key : string) : dyn.value + configkit.error :=
  inl (dyn.VMapAny [(dyn.SString "host", dyn.VScalar (dyn.SString "localhost"));
                    (dyn.SString "port", dyn.VScalar (dyn.SInt 5432))]).

Definition validate (_ : reflect.rtype) (_ : unit) : option configkit.error := None.

End PassExample.

Lemma Check_one_result_per_requirement_witness :
  let r := configkit.mkReqEntry "db" Examples.dbConfig Examples.dbConfig in
  configkit.CheckResult.OK
    (configkit.checkEntry Examples.portOnlyPopulate PassExample.raw
       PassExample.validate r) = true
  /\ configkit.CheckResult.Issues
       (configkit.checkEntry Examples.portOnlyPopulate Examples.portOnlyRaw
          Examples.portOnlyValidate r) <> [].
Proof.
  intros r. split.
  - destruct (Check_one_result_per_requirement Examples.portOnlyPopulate
                PassExample.raw PassExample.validate Examples.dbRegistry)
      as (_ & _ & _ & H).
    destruct (H r) as (_ & _ & _ & Hok); [by apply list_elem_of_singleton|].
    apply Hok; [done | by exists () | by vm_compute..].
  - destruct (Check_one_result_per_requirement Examples.portOnlyPopulate
                Examples.portOnlyRaw Examples.portOnlyValidate Examples.dbRegistry)
      as (_ & _ & _ & H).
    destruct (H r) as (_ & _ & Hel & Hok); [by apply list_elem_of_singleton|].
    intros Hi.
    assert (Hfalse : configkit.CheckResult.OK
              (configkit.checkEntry Examples.portOnlyPopulate Examples.portOnlyRaw
                 Examples.portOnlyValidate r) = true).
    { apply Hok; [|by exists ()|done|by vm_compute].
      intros v err [= <-]. by vm_compute. }
    by vm_compute in Hfalse.
Defined.

(** The document of the spec's example that passes. *)
Example Check_validation_pass :
  fst (configkit.Check Examples.portOnlyPopulate PassExample.raw
         PassExample.validate Examples.dbRegistry)
  = [configkit.CheckResult.mk "db" "db.Config" true None [] []].
Proof. vm_compute. reflexivity. Qed.

(** The missing host of the spec's example: one issue, [host: required]. *)
Example Check_missing_required :
  fst (configkit.Check Examples.portOnlyPopulate Examples.portOnlyRaw
         Examples.portOnlyValidate Examples.dbRegistry)
  = [configkit.CheckResult.mk "db" "db.Config" false
       (Some (configkit.ExternalError Examples.hostRequiredMessage))
       ["host: required"] []].
Proof. vm_compute. reflexivity. Qed.

(** ** Spec, the unknown-key scan and Skeleton on nested types *)

Module NestedExamples.
Import reflect Examples.

Definition nl : string := String "010" EmptyString.
Definition dq : string := String "034" EmptyString.

(** [type Inner struct { X string `yaml:"x"` }],
    [type Mid struct { A string `yaml:"a"`; Inner `yaml:",inline"` }],
    [type Outer struct { Mid `yaml:",inline"` }]. *)
Definition Inner : rtype :=
  TStruct "Inner" "example.com/app" "app.Inner" [field "X" "x" "" tString].

Definition Mid : rtype :=
  TStruct "Mid" "example.com/app" "app.Mid"
    [field "A" "a" "" tString;
     mkField "Inner" "" Inner [("yaml", ",inline")] true].

Definition Outer : rtype :=
  TStruct "Outer" "example.com/app" "app.Outer"
    [mkField "Mid" "" Mid [("yaml", ",inline")] true].

(** The document [{a: "1", x: "2"}], as the YAML decoder returns it. *)
Definition flatDocument : dyn.value :=
  dyn.VMapAny [(dyn.SString "a", dyn.VScalar (dyn.SString "1"));
               (dyn.SString "x", dyn.VScalar (dyn.SString "2"))].

(** [type Hidden struct { Name string `yaml:"name"`;
    Token string `yaml:"-"`; Internal struct { X string `yaml:"x"` } `yaml:"-"` }]. *)
Definition Hidden : rtype :=
  TStruct "Hidden" "example.com/app" "app.Hidden"
    [field "Name" "name" "" tString;
     field "Token" "-" "" tString;
     field "Internal" "-" ""
       (TStruct "" "" "struct { X string }" [field "X" "x" "" tString])].

(** [type Server struct { Host string `yaml:"host"`; Port int `yaml:"port"` }],
    [type App struct { Server Server `yaml:"server"` }]. *)
Definition App : rtype :=
  TStruct "App" "example.com/app" "app.App"
    [field "Server" "server" ""
       (TStruct "Server" "example.com/app" "app.Server"
          [field "Host" "host" "" tString; field "Port" "port" "" tInt])].

Definition registryOf (key : string) (typ : rtype) : configkit.Registry :=
  configkit.registerRequirementType key typ configkit.emptyRegistry.

Definition requirementFor (key : string) (typ : rtype) : configkit.Requirement.t :=
  configkit.requirementOf (configkit.mkReqEntry key typ (indirect typ)).

End NestedExamples.

Section NestedClaims.
Import configkit NestedExamples.
Context {caseTables : unicode.Tables}.

(** What the scan does on every input: nothing for a value that is not a
    map or a type that is not a struct, a sorted result, and a report of
    every key of the map that is not among the allowed names. *)
Lemma findUnknownKeys_not_mapping t prefix :
  (forall x, findUnknownKeys (dyn.VScalar x) t prefix = [])
  /\ (forall l, findUnknownKeys (dyn.VSeq l) t prefix = []).
Proof. split; intros; simpl; by destruct (reflect.indirect t). Qed.

Lemma findUnknownKeys_not_struct y t prefix :
  reflect.Kind_of (reflect.indirect t) <> reflect.Struct ->
  findUnknownKeys y t prefix = [].
Proof. intros H. destruct y; simpl; by destruct (reflect.indirect t). Qed.

Lemma findUnknownKeys_sorted y t prefix :
  StronglySorted str_le (findUnknownKeys y t prefix).
Proof.
  destruct y; simpl; destruct (reflect.indirect t);
    first [apply Strings_sorted | constructor].
Qed.

Lemma fold_left_keeps {A : Type} (f : list string -> A -> list string)
    (l : list A) (acc : list string) (x : string) :
  (forall a y, x ∈ a -> x ∈ f a y) -> x ∈ acc -> x ∈ fold_left f l acc.
Proof.
  intros Hf. revert acc. induction l as [|y l IH]; intros acc Hx; simpl; [done|].
  by apply IH, Hf.
Qed.

Lemma findUnknownKeys_reports es t n p s fields prefix k v :
  reflect.indirect t = reflect.TStruct n p s fields ->
  (k, v) ∈ es ->
  allowedFields fields !! dyn.Sprint k = None ->
  joinPrefix prefix (dyn.Sprint k) ∈ findUnknownKeys (dyn.VMapAny es) t prefix.
Proof.
  intros Ht Hin Hk. simpl. rewrite Ht.
  apply list_elem_of_In.
  eapply Permutation_in; [symmetry; apply Strings_Permutation|].
  apply list_elem_of_In.
  match goal with |- _ ∈ fold_left ?f _ _ => set (visit := f) end.
  assert (Hkeep : forall a y, joinPrefix prefix (dyn.Sprint k) ∈ a ->
                    joinPrefix prefix (dyn.Sprint k) ∈ visit a y).
  { intros a [k2 v2] Ha. unfold visit.
    destruct (allowedFields fields !! dyn.Sprint k2) as [f|].
    - destruct (reflect.indirect (reflect.Type_ f)); [done| |done].
      apply elem_of_app. by left.
    - apply elem_of_app. by left. }
  generalize (@nil string) as acc. revert Hin.
  induction es as [|[k' v'] es IH]; intros Hin acc; [by apply elem_of_nil in Hin|].
  cbn [fold_left].
  apply elem_of_cons in Hin as [[= <- <-] | Hin]; [|by apply IH].
  apply fold_left_keeps; [done|]. unfold visit. rewrite Hk.
  apply elem_of_app. right. by apply list_elem_of_singleton.
Qed.

(** C4. On a struct whose inline field has an inline field of its own, the
    scan reports the key [x] of the inner struct as unknown, although [Spec]
    lists [x] as a path of the same type: the names of inline fields are
    merged one level deep only. *)
Theorem findUnknownKeys_nested_inline :
  findUnknownKeys flatDocument Outer "" = ["x"]
  /\ map FieldSpec.Path (walkStruct Outer "" []) = ["a"; "x"]
  /\ findUnknownKeys flatDocument Mid "" = [].
Proof. vm_compute. done. Qed.

(** C6. A field marked excluded is left out of [Spec] when it is a leaf,
    but a struct field marked excluded is walked, with "-" as a segment of
    the paths of its fields. *)
Theorem Spec_excluded_struct_field :
  fst (Spec (requirementFor "app" Hidden) (registryOf "app" Hidden))
  = inl [FieldSpec.mk "name" "string" false; FieldSpec.mk "-.x" "string" false]
  /\ findUnknownKeys
       (dyn.VMapAny [(dyn.SString "-", dyn.VMapAny [(dyn.SString "x", dyn.VScalar dyn.SNil)])])
       Hidden "" = ["-"].
Proof. vm_compute. done. Qed.

(** C7. [Skeleton] renders the flat example of the claim as stated, but a
    nested struct is printed on one line in the form [map[...]] of [fmt],
    not as an indented level: the nested maps have the dynamic type [node],
    which the case [map[string]interface{}] of the type switch in
    [renderNode] does not match. *)
Theorem Skeleton_nested_struct :
  fst (Skeleton Examples.dbRequirement Examples.dbRegistry)
  = Some (inl ("db:" +:+ nl +:+ "  host: " +:+ dq +:+ dq +:+ "  # required" +:+ nl
               +:+ "  port: 0" +:+ nl))
  /\ fst (Skeleton (requirementFor "app" App) (registryOf "app" App))
     = Some (inl ("app:" +:+ nl
                  +:+ "  server: map[host:" +:+ dq +:+ dq +:+ " port:0]" +:+ nl))
  /\ fst (Skeleton (requirementFor "app" App) (registryOf "app" App))
     <> Some (inl ("app:" +:+ nl +:+ "  server:" +:+ nl
                   +:+ "    host: " +:+ dq +:+ dq +:+ nl
                   +:+ "    port: 0" +:+ nl)).
Proof. vm_compute. done. Qed.

(** The placeholders: the integer kinds the switch names give [0], the
    others fall to the default. *)
Example placeholderFor_kinds :
  map (fun k => placeholderFor (FieldSpec.mk "p" k false))
      ["string"; "int"; "int64"; "uint32"; "float64"; "bool"; "Duration"; "int8"; "uint16"]
  = [dq +:+ dq; "0"; "0"; "0"; "0.0"; "false"; dq +:+ "1s" +:+ dq; "<value>"; "<value>"].
Proof. vm_compute. reflexivity. Qed.

(** With the nested map held as a [map[string]interface{}], [renderNode]
    does render the level below with two more spaces. *)
Example renderNode_nested_map :
  renderNode
    {[ "server" := AMap (<["host" := AString "h"]> {[ "port" := AString "0" ]}) ]} 2
  = "  server:" +:+ nl +:+ "    host: h" +:+ nl +:+ "    port: 0" +:+ nl.
Proof. vm_compute. reflexivity. Qed.

(** The unknown key of the spec's example. *)
Example findUnknownKeys_extra :
  findUnknownKeys
    (dyn.VMapAny [(dyn.SString "host", dyn.VScalar (dyn.SString "localhost"));
                  (dyn.SString "port", dyn.VScalar (dyn.SInt 5432));
                  (dyn.SString "extra", dyn.VScalar (dyn.SBool true))])
    Examples.dbConfig ""
  = ["extra"].
Proof. vm_compute. reflexivity. Qed.

End NestedClaims.

(** ** Induction on dynamic values *)

Section ValueInduction.
Import dyn.

Fixpoint vsize (v : value) : nat :=
  match v with
  | VScalar _ => 0
  | VMapAny es => S (fold_right (fun '(_, x) n => vsize x + n) 0 es)
  | VMapStr m => S (map_fold (fun _ x n => vsize x + n) 0 m)
  | VSeq l => S (fold_right (fun x n => vsize x + n) 0 l)
  end.

Lemma vsize_entry (es : list (scalar * value)) k x :
  List.In (k, x) es -> vsize x < vsize (VMapAny es).
Proof.
  simpl. induction es as [|[k' x'] es IH]; simpl; [done|].
  intros [[= -> ->] | H]; [lia|]. apply IH in H. lia.
Qed.

Lemma vsize_lookup (m : gmap string value) k x :
  m !! k = Some x -> vsize x < vsize (VMapStr m).
Proof.
  simpl. revert k x.
  apply (map_fold_weak_ind (fun n m => forall k x, m !! k = Some x -> vsize x < S n)).
  - intros k x. by rewrite lookup_empty.
  - intros i y m' n Hi IH k x. rewrite lookup_insert.
    case_decide as E; [intros [= ->]; lia|]. intros Hk. apply IH in Hk. lia.
Qed.

Lemma vsize_elem (l : list value) x : List.In x l -> vsize x < vsize (VSeq l).
Proof.
  simpl. induction l as [|y l IH]; simpl; [done|].
  intros [-> | H]; [lia|]. apply IH in H. lia.
Qed.

(** Induction on a value, with the hypothesis for every value it holds. *)
Lemma value_ind' (P : value -> Prop) :
  (forall x, P (VScalar x)) ->
  (forall es, (forall k x, List.In (k, x) es -> P x) -> P (VMapAny es)) ->
  (forall m, (forall k x, m !! k = Some x -> P x) -> P (VMapStr m)) ->
  (forall l, (forall x, List.In x l -> P x) -> P (VSeq l)) ->
  forall v, P v.
Proof.
  intros Hs Ha Hm Hl v.
  remember (vsize v) as n eqn:En. revert v En.
  induction n as [n IH] using lt_wf_ind. intros v ->.
  destruct v as [x | es | m | l].
  - apply Hs.
  - apply Ha. intros k x H. eapply IH; [|reflexivity]. by eapply vsize_entry.
  - apply Hm. intros k x H. eapply IH; [|reflexivity]. by eapply vsize_lookup.
  - apply Hl. intros x H. eapply IH; [|reflexivity]. by apply vsize_elem.
Qed.

End ValueInduction.

(** ** Substrings *)

Lemma prefix_spec (a b : string) :
  String.prefix a b = true <-> exists post, b = a +:+ post.
Proof.
  revert b. induction a as [|c a IH]; intros b.
  - destruct b; simpl; split; eauto.
  - destruct b as [|d b]; simpl.
    + split; [done|]. by intros [post ?].
    + destruct (ascii_dec c d) as [-> | Hne].
      * rewrite IH. split; intros [post E]; exists post.
        -- by rewrite str_app_cons, E.
        -- rewrite str_app_cons in E. by injection E.
      * split; [done|]. intros [post E]. rewrite str_app_cons in E. by injection E.
Qed.

(** [sub] occurs in [s]. *)
Definition occurs (sub s : string) : Prop :=
  exists pre post, s = pre +:+ sub +:+ post.

Lemma Index_unfold (s sub : string) :
  strings.Index s sub =
    if String.prefix sub s then Some 0%nat
    else match s with
         | String _ s' => S <$> strings.Index s' sub
         | EmptyString => None
         end.
Proof. by destruct s. Qed.

Lemma Index_is_Some (s sub : string) :
  is_Some (strings.Index s sub) <-> occurs sub s.
Proof.
  induction s as [|c s IH]; rewrite Index_unfold.
  - destruct (String.prefix sub "") eqn:E.
    + split; [|by eexists]. intros _. apply prefix_spec in E as [post E].
      exists "", post. by rewrite str_app_nil_l.
    + split; [by intros [? ?]|]. intros (pre & post & H).
      destruct pre; [|done]. rewrite str_app_nil_l in H.
      assert (String.prefix sub "" = true) by (apply prefix_spec; eauto).
      congruence.
  - destruct (String.prefix sub (String c s)) eqn:E.
    + split; [|by eexists]. intros _. apply prefix_spec in E as [post E].
      exists "", post. by rewrite str_app_nil_l.
    + rewrite fmap_is_Some, IH. split.
      * intros (pre & post & ->). exists (String c pre), post.
        by rewrite str_app_cons.
      * intros (pre & post & H). destruct pre as [|d pre].
        -- rewrite str_app_nil_l in H.
           assert (String.prefix sub (String c s) = true)
             by (apply prefix_spec; eauto).
           congruence.
        -- rewrite str_app_cons in H. injection H as _ ->. by exists pre, post.
Qed.

Lemma Contains_spec (s sub : string) :
  strings.Contains s sub = true <-> occurs sub s.
Proof. unfold strings.Contains. by rewrite bool_decide_eq_true, Index_is_Some. Qed.



Lemma lowerASCII_no_upper (s : string) :
  strings.hasUpper s = false -> strings.lowerASCII s = s.
Proof.
  induction s as [|c s IH]; [done|].
  cbn [strings.hasUpper strings.lowerASCII]. cbv zeta.
  intros [Hc Hs]%orb_false_iff. rewrite IH by done.
  unfold strings.lowerByte. cbv zeta. by rewrite Hc.
Qed.

(** On an ASCII string [strings.ToLower] is the loop over its bytes. *)
Lemma ToLower_ASCII {caseTables : unicode.Tables} (s : string) :
  strings.isASCII s = true -> strings.ToLower s = strings.lowerASCII s.
Proof.
  intros H. unfold strings.ToLower. rewrite H.
  destruct (strings.hasUpper s) eqn:E; [done|]. by rewrite lowerASCII_no_upper.
Qed.

(** ** Runes and letter case *)

Section CaseFacts.
Context {caseTables : unicode.Tables}.

(** The string is empty or starts with an ASCII byte: a rune starts
    there, whatever comes before. *)
Definition startsASCII (s : string) : Prop :=
  match s with
  | String d _ => (utf8.byte d <? 0x80)%Z = true
  | EmptyString => True
  end.

Lemma within_ASCII (lo hi : Z) (d : ascii) :
  (utf8.byte d <? 0x80)%Z = true -> (0x80 <= lo)%Z -> utf8.within lo hi d = false.
Proof.
  intros Hd Hlo. unfold utf8.within. apply andb_false_iff. left.
  apply Z.leb_gt. apply Z.ltb_lt in Hd. lia.
Qed.

(** What [DecodeRuneInString] reads at the end of a string does not change
    when a string that starts a rune is put behind. *)
Lemma Decode_app (c : ascii) (a b : string) :
  startsASCII b ->
  utf8.DecodeRuneInString (String c (a +:+ b)) = utf8.DecodeRuneInString (String c a).
Proof.
  intros Hb. unfold utf8.DecodeRuneInString.
  destruct (utf8.byte c <? 0x80)%Z; [done|].
  destruct (utf8.byte c <? 0xC2)%Z; [done|].
  assert (Hd : forall lo hi d rest, b = String d rest -> (0x80 <= lo)%Z ->
            utf8.within lo hi d = false).
  { intros lo hi d rest -> Hlo. by apply within_ASCII. }
  destruct (utf8.byte c <? 0xE0)%Z.
  { destruct a as [|c1 a]; [|by rewrite str_app_cons].
    rewrite str_app_nil_l. destruct b as [|d b]; [done|].
    by rewrite (Hd _ _ d b eq_refl). }
  destruct (utf8.byte c <? 0xF0)%Z.
  { set (lo := if (utf8.byte c =? 0xE0)%Z then 0xA0%Z else 0x80%Z).
    assert (Hlo : (0x80 <= lo)%Z) by (subst lo; by destruct (_ =? _)%Z).
    destruct a as [|c1 [|c2 a]]; rewrite ?str_app_cons, ?str_app_nil_l; [| |done].
    - destruct b as [|d [|d2 b]]; [done..|].
      by rewrite (Hd lo _ d _ eq_refl).
    - destruct b as [|d b]; [done|].
      rewrite (Hd 0x80%Z _ d b eq_refl) by done. by rewrite andb_false_r. }
  destruct (utf8.byte c <? 0xF5)%Z; [|done].
  set (lo := if (utf8.byte c =? 0xF0)%Z then 0x90%Z else 0x80%Z).
  assert (Hlo : (0x80 <= lo)%Z) by (subst lo; by destruct (_ =? _)%Z).
  destruct a as [|c1 [|c2 [|c3 a]]]; rewrite ?str_app_cons, ?str_app_nil_l;
    [| | |done].
  - destruct b as [|d [|d2 [|d3 b]]]; [done..|].
    by rewrite (Hd lo _ d _ eq_refl).
  - destruct b as [|d [|d2 b]]; [done..|].
    rewrite (Hd 0x80%Z _ d _ eq_refl) by done. by rewrite andb_false_r.
  - destruct b as [|d b]; [done|].
    rewrite (Hd 0x80%Z _ d b eq_refl) by done. by rewrite andb_false_r.
Qed.

(** A rune is no wider than what is left of the string. *)
Lemma Decode_width (c : ascii) (a : string) :
  (Nat.pred (snd (utf8.DecodeRuneInString (String c a))) <= String.length a)%nat.
Proof.
  unfold utf8.DecodeRuneInString.
  destruct (utf8.byte c <? 0x80)%Z; [simpl; lia|].
  destruct (utf8.byte c <? 0xC2)%Z; [simpl; lia|].
  destruct (utf8.byte c <? 0xE0)%Z.
  { destruct a as [|c1 a]; [simpl; lia|].
    destruct (utf8.within _ _ c1); simpl; lia. }
  destruct (utf8.byte c <? 0xF0)%Z.
  { destruct a as [|c1 [|c2 a]]; [simpl; lia..|].
    destruct (_ && _); simpl; lia. }
  destruct (utf8.byte c <? 0xF5)%Z; [|simpl; lia].
  destruct a as [|c1 [|c2 [|c3 a]]]; [simpl; lia..|].
  destruct (_ && _ && _); simpl; lia.
Qed.

Lemma runesFrom_app (a b : string) (skip : nat) :
  startsASCII b -> (skip <= String.length a)%nat ->
  strings.runesFrom skip (a +:+ b) = strings.runesFrom skip a ++ strings.runes b.
Proof.
  intros Hb. revert skip. induction a as [|c a IH]; intros skip Hskip.
  - simpl in Hskip. assert (skip = 0%nat) as -> by lia.
    by rewrite str_app_nil_l.
  - rewrite str_app_cons. destruct skip as [|k].
    + cbn [strings.runesFrom]. rewrite Decode_app by done.
      pose proof (Decode_width c a) as Hw.
      destruct (utf8.DecodeRuneInString (String c a)) as [r width].
      simpl in Hw. by rewrite IH.
    + cbn [strings.runesFrom]. apply IH. simpl in Hskip. lia.
Qed.

Lemma Map_app (mapping : Z -> Z) (a b : string) :
  startsASCII b ->
  strings.Map mapping (a +:+ b) = strings.Map mapping a +:+ strings.Map mapping b.
Proof.
  intros Hb. unfold strings.Map, strings.runes.
  rewrite runesFrom_app by (done || lia). fold (strings.runes b).
  rewrite fold_right_app.
  induction (strings.runesFrom 0 a) as [|r l IH]; simpl.
  - by rewrite str_app_nil_l.
  - rewrite IH. destruct (0 <=? mapping r)%Z; [|done].
    by rewrite str_app_assoc.
Qed.

(** An ASCII byte is a rune of its own, and its image is the byte in lower
    case. *)
Lemma Map_ASCII_cons (c : ascii) (s : string) :
  (utf8.byte c <? 0x80)%Z = true ->
  strings.Map unicode.ToLower (String c s)
  = String (strings.lowerByte c) (strings.Map unicode.ToLower s).
Proof.
  intros Hc. unfold strings.Map, strings.runes. cbn [strings.runesFrom].
  unfold utf8.DecodeRuneInString. rewrite Hc. cbn [Nat.pred fold_right].
  assert (E : (0 <=? unicode.ToLower (utf8.byte c))%Z = true
              /\ utf8.AppendRune (unicode.ToLower (utf8.byte c))
                 = String (strings.lowerByte c) "").
  { destruct c as [[] [] [] [] [] [] [] []];
      try (vm_compute in Hc; discriminate); vm_compute; done. }
  destruct E as [-> ->]. by rewrite str_app_cons, str_app_nil_l.
Qed.

Lemma Map_ASCII_app (k post : string) :
  strings.isASCII k = true ->
  strings.Map unicode.ToLower (k +:+ post)
  = strings.lowerASCII k +:+ strings.Map unicode.ToLower post.
Proof.
  induction k as [|c k IH]; intros Hk.
  - by rewrite !str_app_nil_l.
  - cbn [strings.isASCII] in Hk. apply andb_true_iff in Hk as [Hc Hk].
    rewrite str_app_cons, Map_ASCII_cons by done.
    rewrite IH by done. cbn [strings.lowerASCII]. by rewrite str_app_cons.
Qed.

(** [strings.ToLower], on every string, is [strings.Map] with
    [unicode.ToLower]: the loop over the bytes of an ASCII string gives
    the same. *)
Lemma ToLower_Map (s : string) :
  strings.ToLower s = strings.Map unicode.ToLower s.
Proof.
  destruct (strings.isASCII s) eqn:E.
  - rewrite ToLower_ASCII by done.
    rewrite <- (str_app_nil_r s) at 2. rewrite Map_ASCII_app by done.
    by rewrite str_app_nil_r.
  - unfold strings.ToLower. by rewrite E.
Qed.

End CaseFacts.



(** ** Redact *)

Section RedactClaims.
Import dyn configkit.
Context {caseTables : unicode.Tables}.

(** A key is secret when, put in lower case as Go does it, it contains one
    of the secret words. *)
Definition secretKey (k : string) : Prop :=
  exists w, w ∈ secretWords /\ occurs w (strings.ToLower k).

Lemma isSecretKey_spec (k : string) : isSecretKey k = true <-> secretKey k.
Proof.
  unfold isSecretKey, secretKey. rewrite existsb_exists.
  split; intros (w & Hw & H); exists w.
  - split; [by apply list_elem_of_In|]. by apply Contains_spec.
  - split; [by apply list_elem_of_In|]. by apply Contains_spec.
Qed.



(** The values made of scalars, sequences and maps with string keys. *)
Inductive NodeShaped : value -> Prop :=
| NodeShaped_scalar x : NodeShaped (VScalar x)
| NodeShaped_seq l : Forall NodeShaped l -> NodeShaped (VSeq l)
| NodeShaped_map m :
    (forall k x, m !! k = Some x -> NodeShaped x) -> NodeShaped (VMapStr m).

Lemma normalize_NodeShaped (v : value) : NodeShaped v -> normalize v = v.
Proof.
  induction v as [x | es _ | m IH | l IH] using value_ind'; simpl; intros H.
  - done.
  - inversion H.
  - inversion_clear H as [| |? Hm]. f_equal. apply map_eq. intros k.
    rewrite lookup_fmap. destruct (m !! k) as [x|] eqn:E; simpl; [|done].
    f_equal. eapply IH; eauto.
  - inversion_clear H as [|? Hl|]. f_equal.
    induction l as [|x l IHl]; simpl; [done|].
    inversion_clear Hl. f_equal.
    + apply IH; [by left | done].
    + apply IHl; [|done]. intros y Hy. apply IH. by right.
Qed.




End RedactClaims.

Module RedactExample.
Import dyn.

Definition str (s : string) : value := VScalar (SString s).

(** [{"database": {"user": "svc", "password": "secret"}}]. *)
Definition document : value :=
  VMapStr {[ "database" := VMapStr (<["user" := str "svc"]> {[ "password" := str "secret" ]}) ]}.

Definition redacted : value :=
  VMapStr {[ "database" := VMapStr (<["user" := str "svc"]> {[ "password" := str "***" ]}) ]}.

(** The same document as the YAML decoder hands it over, the maps of type
    [map[interface{}]interface{}]. *)
Definition decoded : value :=
  VMapAny [(SString "database",
            VMapAny [(SString "user", str "svc"); (SString "password", str "secret")])].

(** The Kelvin sign, U+212A, in UTF-8. *)
Definition kelvin : string := String "226" (String "132" (String "170" EmptyString)).

End RedactExample.

(** The example of the spec: the password is masked, the user is not. *)
Example Redact_database :
  configkit.Redact "" RedactExample.document = RedactExample.redacted.
Proof. vm_compute. reflexivity. Qed.

(** The same for the document as the YAML decoder hands it over. *)
Example Redact_decoded_database :
  configkit.Redact "" RedactExample.decoded = RedactExample.redacted.
Proof. vm_compute. reflexivity. Qed.

(** A key secret by a letter outside ASCII: with a case table that has the
    Kelvin sign above the letter k, as Unicode has, the key made of the
    Kelvin sign and [ey] is secret. *)
Remark isSecretKey_kelvin {caseTables : unicode.Tables} :
  unicode.To_LowerCase 0x212A = 0x6B%Z ->
  configkit.isSecretKey (RedactExample.kelvin +:+ "ey") = true.
Proof.
  intros Hk.
  assert (E : strings.ToLower (RedactExample.kelvin +:+ "ey") = "key").
  { unfold strings.ToLower.
    change (strings.isASCII (RedactExample.kelvin +:+ "ey")) with false.
    cbv iota. unfold strings.Map.
    change (strings.runes (RedactExample.kelvin +:+ "ey"))
      with [0x212A; 101; 121]%Z.
    cbn [fold_right].
    change (unicode.ToLower 0x212A) with (unicode.To_LowerCase 0x212A).
    rewrite Hk. reflexivity. }
  unfold configkit.isSecretKey. cbv zeta. rewrite E. reflexivity.
Qed.

(** ** The paths of validation issues *)

Section IssuePaths.
Import reflect configkit.
Context {caseTables : unicode.Tables}.

(** The document path of the field reached from the struct [cur] along the
    Go field names [names]: the yaml names of the fields on the way, an
    inline field adding none. *)
Fixpoint documentPath (cur : rtype) (names : list string) : option (list string) :=
  match names with
  | [] => Some []
  | name :: rest =>
      match cur with
      | TStruct _ _ _ fields =>
          if String.eqb name "" then None
          else
            match List.find (fun f => String.eqb (Name f) name) fields with
            | None => None
            | Some f =>
                let '(y, inline) := yamlName f in
                let seg := if inline then [] else [y] in
                option_map (app seg) (documentPath (indirect (Type_ f)) rest)
            end
      | _ => None
      end
  end.

(** The segments of a namespace, without the name of the root type in
    front, as [yamlPathFromStructNS] takes them. *)
Definition nsSegments (ns : string) (root : rtype) : list string :=
  let segs := strings.Split ns "." in
  if String.eqb (List.hd "" segs) (Type_Name root) then List.tl segs else segs.

(** The message of go-playground/validator for the failure of the rule
    [rule] on the field at [names] below the root type: the namespace after
    [Key:], and the name of the field alone in the sentence the package
    searches. *)
Definition validatorMessage (root : rtype) (names : list string) (rule : string)
    : string :=
  "Key: '" +:+ strings.Join (Type_Name root :: names) "."
    +:+ "' Error:Field validation for '" +:+ List.last names ""
    +:+ "' failed on the '" +:+ rule +:+ "' tag".

Lemma FieldByName_own name fields n p s f :
  name <> "" ->
  List.find (fun f => String.eqb (Name f) name) fields = Some f ->
  FieldByName (TStruct n p s fields) name = Some f.
Proof.
  intros Hne Hf. unfold FieldByName.
  destruct (String.eqb_spec name ""); [done|]. by rewrite Hf.
Qed.

Lemma yamlPathLoop_documentPath segs rest cur path p :
  documentPath cur rest = Some p ->
  yamlPathLoop segs rest cur path = strings.Join (path ++ p) ".".
Proof.
  revert cur path p. induction rest as [|name rest IH]; intros cur path p; simpl.
  - intros [= <-]. by rewrite List.app_nil_r.
  - destruct cur as [| n pk s fields |]; try done.
    destruct (String.eqb_spec name "") as [|Hne]; [done|].
    destruct (List.find _ fields) as [f|] eqn:Hf; [|done].
    rewrite (FieldByName_own _ _ _ _ _ f) by done.
    destruct (yamlName f) as [y inline].
    destruct (documentPath (indirect (Type_ f)) rest) as [p'|] eqn:Hp; [|done].
    simpl. intros [= <-].
    assert (Hpath : (if inline then path else path ++ [y]) ++ p'
                    = path ++ (if inline then [] else [y]) ++ p').
    { destruct inline; [done|]. by rewrite <- List.app_assoc. }
    rewrite <- Hpath.
    destruct (indirect (Type_ f)) eqn:Et.
    + destruct rest; simpl in Hp; [|done]. injection Hp as <-.
      by rewrite List.app_nil_r.
    + by apply IH.
    + destruct rest; simpl in Hp; [|done]. injection Hp as <-.
      by rewrite List.app_nil_r.
Qed.

(** What [yamlPathFromStructNS] makes of the name it is given: when the
    chain of Go field names (a leading root type name dropped) resolves
    field by field through the root type, the issue has the yaml names
    joined by dots, inline fields adding no segment; when its first name
    is no field of the root struct, the Go names are joined instead. *)
Lemma issue_path_of_resolved_field (root : rtype) (line field rule : string)
    (path : list string) :
  extractFieldAndRule line = (field, rule) ->
  field <> "" ->
  Kind_of (indirect root) = Struct ->
  (documentPath (indirect root) (nsSegments field (indirect root)) = Some path ->
   strings.Join path "." <> "" ->
   formatIssueLine root line = strings.Join path "." +:+ ": " +:+ rule)
  /\ (forall name rest,
        nsSegments field (indirect root) = name :: rest ->
        FieldByName (indirect root) name = None ->
        strings.Join (name :: rest) "." <> "" ->
        formatIssueLine root line
        = strings.Join (name :: rest) "." +:+ ": " +:+ rule).
Proof.
  intros Hx Hfield Hroot.
  assert (Hy : yamlPathFromStructNS field root
               = yamlPathLoop (nsSegments field (indirect root))
                   (nsSegments field (indirect root)) (indirect root) []).
  { unfold yamlPathFromStructNS, nsSegments.
    destruct (indirect root); try done.
    by destruct (String.eqb_spec field ""). }
  unfold formatIssueLine. rewrite Hx.
  destruct (String.eqb_spec field "") as [|_]; [done|]. simpl. rewrite Hy.
  split.
  - intros Hp Hne. rewrite (yamlPathLoop_documentPath _ _ _ _ path) by done.
    simpl. by destruct (String.eqb_spec (strings.Join path ".") "").
  - intros name rest Hsegs Hnone Hne. rewrite Hsegs.
    cbn [yamlPathLoop]. rewrite Hnone.
    by destruct (String.eqb_spec (strings.Join (name :: rest) ".") "").
Qed.

End IssuePaths.

Module IssueExample.
Import reflect Examples.

(** The type [baseConfig] of the package's tests:
    [Foo string `yaml:"foo" validate:"required"`],
    [Nested struct { Value int `yaml:"value" validate:"min=1"` } `yaml:"nested"`]. *)
Definition baseConfig : rtype :=
  TStruct "baseConfig" "example.com/app" "app.baseConfig"
    [field "Foo" "foo" "required" tString;
     field "Nested" "nested" ""
       (TStruct "" "" "struct { Value int }" [field "Value" "value" "min=1" tInt])].

(** [type Shadow struct { Value int `yaml:"top"`;
    Nested struct { Value int `yaml:"value" validate:"min=1"` } `yaml:"nested"` }]:
    the name of the nested field is also the name of a field of the root. *)
Definition Shadow : rtype :=
  TStruct "Shadow" "example.com/app" "app.Shadow"
    [field "Value" "top" "" tInt;
     field "Nested" "nested" ""
       (TStruct "" "" "struct { Value int }" [field "Value" "value" "min=1" tInt])].

End IssueExample.

Lemma issue_path_of_resolved_field_witness :
  configkit.formatIssueLine Examples.dbConfig Examples.hostRequiredMessage
  = strings.Join ["host"] "." +:+ ": " +:+ "required"
  /\ configkit.formatIssueLine IssueExample.baseConfig
       (validatorMessage IssueExample.baseConfig ["Nested"; "Value"] "min")
     = strings.Join ["Value"] "." +:+ ": " +:+ "min".
Proof.
  split.
  - refine (proj1 (issue_path_of_resolved_field Examples.dbConfig
                     Examples.hostRequiredMessage "Host" "required" ["host"]
                     _ _ _) _ _); by vm_compute.
  - refine (proj2 (issue_path_of_resolved_field IssueExample.baseConfig
                     (validatorMessage IssueExample.baseConfig ["Nested"; "Value"] "min")
                     "Value" "min" [] _ _ _) "Value" [] _ _ _); by vm_compute.
Defined.

(** C5. The issue of a nested field does not carry its document path.
    The package means to map the validator's namespace to the yaml path
    (its comments speak of [Nested.Value] and [Config.Nested.Value]), but
    the sentence it reads the name from holds the name of the field alone.
    For the failure of [min] on [Nested.Value] of the package's own test
    type the document path is [nested.value] and the issue is [Value: min];
    when the root has a field of that name too, the issue carries the path
    of that other field, [top: min]. *)
Theorem issue_path_nested_field {caseTables : unicode.Tables} :
  documentPath IssueExample.baseConfig ["Nested"; "Value"]
  = Some ["nested"; "value"]
  /\ configkit.formatValidationIssues
       (configkit.ExternalError
          (validatorMessage IssueExample.baseConfig ["Nested"; "Value"] "min"))
       IssueExample.baseConfig
     = ["Value: min"]
  /\ documentPath IssueExample.Shadow ["Nested"; "Value"]
     = Some ["nested"; "value"]
  /\ configkit.formatValidationIssues
       (configkit.ExternalError
          (validatorMessage IssueExample.Shadow ["Nested"; "Value"] "min"))
       IssueExample.Shadow
     = ["top: min"].
Proof. repeat split; vm_compute; reflexivity. Qed.

(** The message of the validator there. *)
Example validatorMessage_nested_value :
  validatorMessage IssueExample.baseConfig ["Nested"; "Value"] "min"
  = "Key: 'baseConfig.Nested.Value' Error:Field validation for 'Value' failed on the 'min' tag".
Proof. reflexivity. Qed.

(** A field of an embedded struct is found by its name alone, so the issue
    for it has its document path. *)
Example issue_path_promoted_field :
  reflect.FieldByName NestedExamples.Outer "X"
  = Some (Examples.field "X" "x" "" Examples.tString)
  /\ configkit.formatValidationIssues
       (configkit.ExternalError
          (validatorMessage NestedExamples.Outer ["Mid"; "Inner"; "X"] "required"))
       NestedExamples.Outer
     = ["x: required"].
Proof. vm_compute. done. Qed.

(** ** The paths of a field specification *)

Section SpecPaths.
Import reflect configkit.
Context {caseTables : unicode.Tables}.

(** Induction on a type, with the hypothesis for the type of every field
    of a struct. *)
Lemma rtype_ind' (P : rtype -> Prop) :
  (forall e, P e -> P (TPtr e)) ->
  (forall n p s fields, List.Forall (fun f => P (Type_ f)) fields ->
     P (TStruct n p s fields)) ->
  (forall k n p s, P (TLeaf k n p s)) ->
  forall t, P t.
Proof.
  intros Hp Hs Hl. fix IH 1. intros [e | n p s fields | k n p s].
  - apply Hp, IH.
  - apply Hs. induction fields as [|f fields IHf]; constructor.
    + apply IH.
    + exact IHf.
  - apply Hl.
Qed.

(** The path below [prefix] along a sequence of names. *)
Definition pathOf (prefix : string) (names : list string) : string :=
  fold_left (fun p n => fieldPath p n false) names prefix.

(** The segment a field adds to the paths below it. *)
Definition segment (name : string) (inline : bool) : list string :=
  if inline then [] else [name].

(** The name sequences of the leaves that [walkType] records for a field,
    from the field's own segment on. *)
Fixpoint leafNames (ft : rtype) (name : string) (inline : bool)
    : list (list string) :=
  match ft with
  | TPtr e => leafNames e name inline
  | TStruct _ _ _ fields =>
      map (app (segment name inline))
        (flat_map (fun f =>
            if exported f
            then let '(n, i) := yamlName f in leafNames (Type_ f) n i
            else [])
          fields)
  | TLeaf _ _ _ _ => if String.eqb name "-" then [] else [segment name inline]
  end.

Definition fieldLeafNames (f : StructField) : list (list string) :=
  if exported f
  then let '(n, i) := yamlName f in leafNames (Type_ f) n i
  else [].

Lemma pathOf_segment prefix name inline :
  pathOf prefix (segment name inline) = fieldPath prefix name inline.
Proof. by destruct inline. Qed.

Lemma pathOf_app prefix a b : pathOf prefix (a ++ b) = pathOf (pathOf prefix a) b.
Proof. apply fold_left_app. Qed.

Lemma walkType_TStruct n p s fields name inline required prefix out :
  walkType (TStruct n p s fields) name inline required prefix out
  = fold_left (walkField (fieldPath prefix name inline)) fields out.
Proof. reflexivity. Qed.

Lemma walkType_paths ft : forall name inline required prefix out,
  map FieldSpec.Path (walkType ft name inline required prefix out)
  = map FieldSpec.Path out ++ map (pathOf prefix) (leafNames ft name inline).
Proof.
  induction ft as [e IH | n p s fields IH | k nm p s] using rtype_ind';
    intros name inline required prefix out.
  - apply IH.
  - rewrite walkType_TStruct. cbn [leafNames]. fold fieldLeafNames.
    rewrite map_map.
    erewrite (map_ext (fun x => pathOf prefix (segment name inline ++ x)));
      [|intros x; by rewrite pathOf_app, pathOf_segment].
    generalize (fieldPath prefix name inline) as path. intros path.
    revert out. induction IH as [|f fields Hf _ IHfields]; intros out; simpl.
    + by rewrite List.app_nil_r.
    + rewrite IHfields, map_app, List.app_assoc. f_equal.
      unfold walkField, fieldLeafNames, exported.
      destruct (String.eqb (PkgPath f) ""); simpl.
      * unfold yamlName. destruct (parseYAMLTag _ f) as [n' i']. apply Hf.
      * by rewrite List.app_nil_r.
  - simpl. destruct (String.eqb name "-"); simpl.
    + by rewrite List.app_nil_r.
    + by rewrite map_app, pathOf_segment.
Qed.

(** A name without a dot. *)
Fixpoint dotless (s : string) : bool :=
  match s with
  | String c s' => negb (Ascii.eqb c ".") && dotless s'
  | EmptyString => true
  end.

(** A name that can stand as one segment of a path. *)
Definition goodName (n : string) : bool := negb (String.eqb n "") && dotless n.

(** The names a field shows at the level of its struct: its own, or, for
    an inline struct, those of the fields of that struct. *)
Fixpoint levelNames (ft : rtype) (name : string) (inline : bool) : list string :=
  match ft with
  | TPtr e => levelNames e name inline
  | TStruct _ _ _ fields =>
      if inline
      then flat_map (fun f =>
             if exported f
             then let '(n, i) := yamlName f in levelNames (Type_ f) n i
             else [])
           fields
      else [name]
  | TLeaf _ _ _ _ => if String.eqb name "-" then [] else [name]
  end.

Definition fieldLevelNames (f : StructField) : list string :=
  if exported f
  then let '(n, i) := yamlName f in levelNames (Type_ f) n i
  else [].

(** The names are in order below a field: at every struct level the names
    shown are pairwise distinct, the name of every field that adds a
    segment is not empty and has no dot, and no leaf is inline. *)
Fixpoint namesOK (ft : rtype) (name : string) (inline : bool) : bool :=
  match ft with
  | TPtr e => namesOK e name inline
  | TStruct _ _ _ fields =>
      (inline || goodName name)
      && bool_decide (NoDup (flat_map (fun f =>
             if exported f
             then let '(n, i) := yamlName f in levelNames (Type_ f) n i
             else [])
           fields))
      && forallb (fun f =>
             if exported f
             then let '(n, i) := yamlName f in namesOK (Type_ f) n i
             else true)
           fields
  | TLeaf _ _ _ _ => String.eqb name "-" || (negb inline && goodName name)
  end.

Definition fieldNamesOK (f : StructField) : bool :=
  if exported f
  then let '(n, i) := yamlName f in namesOK (Type_ f) n i
  else true.

(** The condition on the type of a requirement. *)
Definition uniqueNames (t : rtype) : bool :=
  match (match t with TPtr e => e | _ => t end) with
  | TStruct n p s fields => namesOK (TStruct n p s fields) "" true
  | _ => true
  end.

(** A name sequence starts with a name of the level and is made of good
    names. *)
Definition startsIn (names : list string) (seq : list string) : Prop :=
  exists h tl, seq = h :: tl /\ h ∈ names /\ List.Forall (fun n => goodName n = true) seq.

Lemma NoDup_flat_map_heads (fields : list StructField) :
  NoDup (flat_map fieldLevelNames fields) ->
  List.Forall (fun f => NoDup (fieldLeafNames f)
                 /\ forall seq, seq ∈ fieldLeafNames f ->
                      startsIn (fieldLevelNames f) seq) fields ->
  NoDup (flat_map fieldLeafNames fields)
  /\ forall seq, seq ∈ flat_map fieldLeafNames fields ->
       startsIn (flat_map fieldLevelNames fields) seq.
Proof.
  induction fields as [|f fields IH]; simpl; intros Hnd Hall.
  - split; [constructor|]. intros seq H. by apply elem_of_nil in H.
  - inversion_clear Hall as [|? ? [Hf Hheads] Hrest].
    apply NoDup_app in Hnd as (Hnd1 & Hdisj & Hnd2).
    destruct (IH Hnd2 Hrest) as [IHnd IHheads].
    split.
    + apply NoDup_app. split; [done|]. split; [|done].
      intros seq H1 H2.
      destruct (Hheads _ H1) as (h & tl & -> & Hh & _).
      destruct (IHheads _ H2) as (h' & tl' & [= <- <-] & Hh' & _).
      by eapply Hdisj.
    + intros seq [H | H]%elem_of_app.
      * destruct (Hheads _ H) as (h & tl & -> & Hh & Hgood).
        exists h, tl. split; [done|]. split; [|done]. apply elem_of_app. by left.
      * destruct (IHheads _ H) as (h & tl & -> & Hh & Hgood).
        exists h, tl. split; [done|]. split; [|done]. apply elem_of_app. by right.
Qed.

Lemma leafNames_unique ft : forall name inline,
  namesOK ft name inline = true ->
  NoDup (leafNames ft name inline)
  /\ forall seq, seq ∈ leafNames ft name inline ->
       startsIn (levelNames ft name inline) seq.
Proof.
  induction ft as [e IH | n p s fields IH | k nm p s] using rtype_ind';
    intros name inline Hok.
  - by apply IH.
  - cbn [namesOK] in Hok. fold fieldLevelNames fieldNamesOK in Hok.
    apply andb_true_iff in Hok as [[Hname Hnd]%andb_true_iff Hfields].
    apply bool_decide_eq_true in Hnd.
    cbn [leafNames levelNames]. fold fieldLeafNames fieldLevelNames.
    assert (Hall : List.Forall (fun f => NoDup (fieldLeafNames f)
                 /\ forall seq, seq ∈ fieldLeafNames f ->
                      startsIn (fieldLevelNames f) seq) fields).
    { rewrite forallb_forall in Hfields.
      rewrite List.Forall_forall in IH |- *. intros f Hf.
      specialize (IH f Hf). specialize (Hfields f Hf).
      unfold fieldLeafNames, fieldLevelNames, fieldNamesOK in *.
      destruct (exported f).
      - destruct (yamlName f) as [n' i']. by apply IH.
      - split; [constructor|]. intros seq H. by apply elem_of_nil in H. }
    destruct (NoDup_flat_map_heads fields Hnd Hall) as [Hnd' Hheads].
    split.
    + apply NoDup_ListNoDup, Finite.Injective_map_NoDup;
        [|by apply NoDup_ListNoDup].
      intros x y. apply app_inv_head.
    + intros seq (seq' & <- & Hin%list_elem_of_In)%list_elem_of_In%in_map_iff.
      destruct (Hheads _ Hin) as (h & tl & -> & Hh & Hgood).
      destruct inline; simpl.
      * by exists h, tl.
      * exists name, (h :: tl). split; [done|].
        split; [apply list_elem_of_singleton; done|]. by constructor.
  - simpl in *. destruct (String.eqb name "-"); simpl in *.
    + split; [constructor|]. intros seq H. by apply elem_of_nil in H.
    + apply andb_true_iff in Hok as [->%negb_true_iff Hgood]. simpl.
      split; [apply NoDup_singleton|].
      intros seq ->%list_elem_of_singleton. exists name, [].
      split; [done|]. split; [by apply list_elem_of_singleton|].
      by repeat constructor.
Qed.

(** The segments after the first, each behind its dot. *)
Fixpoint dotted (names : list string) : string :=
  match names with
  | [] => ""
  | n :: rest => String "." (n +:+ dotted rest)
  end.

Lemma pathOf_cons p n names :
  pathOf p (n :: names) = pathOf (fieldPath p n false) names.
Proof. reflexivity. Qed.

Lemma pathOf_dotted p names : p <> "" -> pathOf p names = p +:+ dotted names.
Proof.
  revert p. induction names as [|n names IH]; intros p Hp.
  - simpl. by rewrite str_app_nil_r.
  - rewrite pathOf_cons. unfold fieldPath.
    destruct (String.eqb_spec p "") as [|_]; [done|].
    rewrite IH.
    + cbn [dotted]. by rewrite !str_app_assoc.
    + by destruct p.
Qed.

Lemma pathOf_root h tl : h <> "" -> pathOf "" (h :: tl) = h +:+ dotted tl.
Proof. intros Hh. rewrite pathOf_cons. by apply pathOf_dotted. Qed.

(** Empty, or with a dot in front. *)
Definition dotFirst (x : string) : Prop := x = "" \/ exists x', x = String "." x'.

Lemma dotted_dotFirst names : dotFirst (dotted names).
Proof. destruct names; [by left | right; by eexists]. Qed.

Lemma dotless_split a b x y :
  dotless a = true -> dotless b = true -> dotFirst x -> dotFirst y ->
  a +:+ x = b +:+ y -> a = b /\ x = y.
Proof.
  revert b. induction a as [|c a IH]; intros [|d b] Ha Hb Hx Hy; simpl in *.
  - by rewrite !str_app_nil_l.
  - rewrite str_app_nil_l, str_app_cons. intros ->.
    destruct Hx as [|[x' [= -> _]]]; [done|]. by simpl in Hb.
  - rewrite str_app_nil_l, str_app_cons. intros <-.
    destruct Hy as [|[y' [= -> _]]]; [done|]. by simpl in Ha.
  - rewrite !str_app_cons. intros [= -> H].
    apply andb_true_iff in Ha as [_ Ha]. apply andb_true_iff in Hb as [_ Hb].
    destruct (IH b Ha Hb Hx Hy H) as [-> ->]. done.
Qed.

Lemma goodName_dotless n : goodName n = true -> dotless n = true.
Proof. unfold goodName. by intros [_ ?]%andb_true_iff. Qed.

Lemma goodName_nonempty n : goodName n = true -> n <> "".
Proof.
  unfold goodName. intros [H _]%andb_true_iff ->. done.
Qed.

Lemma dotted_inj l1 l2 :
  List.Forall (fun n => goodName n = true) l1 ->
  List.Forall (fun n => goodName n = true) l2 ->
  dotted l1 = dotted l2 -> l1 = l2.
Proof.
  revert l2. induction l1 as [|n l1 IH]; intros [|m l2] H1 H2; simpl; try done.
  intros [= E].
  apply List.Forall_cons_iff in H1 as [Hn H1].
  apply List.Forall_cons_iff in H2 as [Hm H2].
  apply dotless_split in E as [-> E];
    auto using goodName_dotless, dotted_dotFirst.
  f_equal. by apply IH.
Qed.

Lemma pathOf_root_inj s1 s2 names1 names2 :
  startsIn names1 s1 -> startsIn names2 s2 ->
  pathOf "" s1 = pathOf "" s2 -> s1 = s2.
Proof.
  intros (h1 & tl1 & -> & _ & Hg1) (h2 & tl2 & -> & _ & Hg2).
  apply List.Forall_cons_iff in Hg1 as [Hh1 Ht1].
  apply List.Forall_cons_iff in Hg2 as [Hh2 Ht2].
  rewrite !pathOf_root by by apply goodName_nonempty.
  intros E. apply dotless_split in E as [-> E];
    auto using goodName_dotless, dotted_dotFirst.
  f_equal. by apply dotted_inj.
Qed.

Lemma walkStruct_paths_unique (t : rtype) :
  uniqueNames t = true -> NoDup (map FieldSpec.Path (walkStruct t "" [])).
Proof.
  assert (Hstruct : forall n p s fields,
    namesOK (TStruct n p s fields) "" true = true ->
    NoDup (map FieldSpec.Path (fold_left (walkField "") fields []))).
  { intros n p s fields Hok.
    change (fold_left (walkField "") fields [])
      with (walkType (TStruct n p s fields) "" true false "" []).
    rewrite walkType_paths. simpl map at 1. rewrite List.app_nil_l.
    destruct (leafNames_unique _ _ _ Hok) as [Hnd Hheads].
    apply NoDup_ListNoDup, Finite.Injective_map_NoDup_in;
      [|by apply NoDup_ListNoDup].
    intros x y Hx%list_elem_of_In Hy%list_elem_of_In.
    eapply pathOf_root_inj; eauto. }
  unfold uniqueNames, walkStruct.
  destruct t as [[| n p s fields |] | n p s fields |];
    try (intros _; constructor).
  - exact (Hstruct n p s fields).
  - exact (Hstruct n p s fields).
Qed.

(** The requirement describes the entry: the base type of the entry has
    its package path and its type name. *)
Definition describes (req : Requirement.t) (r : reqEntry) : bool :=
  String.eqb (Type_PkgPath (base r)) (Requirement.PkgPath req)
  && String.eqb (Type_Name (base r)) (trimPkg (Requirement.Type_ req)).

(** The entry whose type [Spec] walks for a requirement: the first one the
    requirement describes. *)
Definition specEntry (req : Requirement.t) (st : Registry) : option reqEntry :=
  List.find (describes req) (reqs st).

Lemma Spec_specEntry (req : Requirement.t) (st : Registry) :
  fst (Spec req st)
  = match specEntry req st with
    | Some r => inl (walkStruct (base r) "" [])
    | None => inr (NotFoundError (Requirement.Key req) (Requirement.Type_ req))
    end.
Proof. unfold Spec, specEntry, describes. by destruct (List.find _ (reqs st)). Qed.

(** The entry of a requirement is the first entry that it describes. *)
Lemma specEntry_first (req : Requirement.t) (st : Registry) (r : reqEntry) :
  specEntry req st = Some r
  <-> exists before after,
        reqs st = before ++ r :: after
        /\ describes req r = true
        /\ forall e, e ∈ before -> describes req e = false.
Proof.
  unfold specEntry. induction (reqs st) as [|e l IH]; simpl.
  - split; [done|]. intros (before & after & E & _). by destruct before.
  - destruct (describes req e) eqn:He.
    + split.
      * intros [= <-]. exists [], l. split; [done|]. split; [done|].
        by intros e' ?%elem_of_nil.
      * intros ([|e' before] & after & E & Hr & Hbefore).
        -- by injection E as ->.
        -- injection E as <- _. rewrite Hbefore in He by (by left). done.
    + rewrite IH. split.
      * intros (before & after & -> & Hr & Hbefore).
        exists (e :: before), after. split; [done|]. split; [done|].
        intros e' [-> | H]%elem_of_cons; [done | by apply Hbefore].
      * intros ([|e' before] & after & E & Hr & Hbefore).
        -- injection E as -> _. congruence.
        -- injection E as <- ->. exists before, after. split; [done|].
           split; [done|]. intros e'' H. apply Hbefore. by right.
Qed.

(** C9, amended. The paths of the field specifications of a requirement
    are pairwise distinct when, at every struct level of its type, the
    names shown at that level (those of the fields that are not inline and
    those brought in by inline structs) are pairwise distinct, the names
    that make a segment are not empty and have no dot, and no leaf field is
    inline. *)
Theorem Spec_paths_unique (req : Requirement.t) (st : Registry)
    (specs : list FieldSpec.t) :
  fst (Spec req st) = inl specs ->
  (forall r, specEntry req st = Some r -> uniqueNames (base r) = true) ->
  NoDup (map FieldSpec.Path specs).
Proof.
  rewrite Spec_specEntry.
  destruct (specEntry req st) as [r|]; simpl; [|done].
  intros [= <-] Hok. by apply walkStruct_paths_unique, Hok.
Qed.

End SpecPaths.

Module PathExamples.
Import reflect Examples.

(** [type Dotted struct { A struct { B string `yaml:"b"` } `yaml:"a"`;
    AB string `yaml:"a.b"` }]: the document keys [a: {b: ...}] and
    ["a.b": ...] are different, the paths are not. *)
Definition Dotted : rtype :=
  TStruct "Dotted" "example.com/app" "app.Dotted"
    [field "A" "a" "" (TStruct "" "" "struct { B string }" [field "B" "b" "" tString]);
     field "AB" "a.b" "" tString].

(** [type Base struct { Name string `yaml:"name"` }],
    [type Service struct { Name string `yaml:"name"`; Base `yaml:",inline"` }]. *)
Definition Service : rtype :=
  TStruct "Service" "example.com/app" "app.Service"
    [field "Name" "name" "" tString;
     mkField "Base" ""
       (TStruct "Base" "example.com/app" "app.Base" [field "Name" "name" "" tString])
       [("yaml", ",inline")] true].

End PathExamples.

Lemma Spec_paths_unique_witness :
  NoDup (map configkit.FieldSpec.Path
           [configkit.FieldSpec.mk "a" "string" false;
            configkit.FieldSpec.mk "x" "string" false]).
Proof.
  apply (Spec_paths_unique
           (NestedExamples.requirementFor "app" NestedExamples.Outer)
           (configkit.registerRequirementType "app" NestedExamples.Outer
              (NestedExamples.registryOf "odd" PathExamples.Dotted))).
  - vm_compute. reflexivity.
  - intros r [= <-]. vm_compute. reflexivity.
Defined.

(** C9, as stated, fails, whatever the case table: a field named with a
    dot and a nested field give the same path twice. *)
Lemma Spec_paths_counterexample :
  ~ (exists caseTables : unicode.Tables,
       forall req st specs,
         fst (configkit.Spec req st) = inl specs ->
         NoDup (map configkit.FieldSpec.Path specs)).
Proof.
  intros [caseTables H].
  specialize (H (NestedExamples.requirementFor "app" PathExamples.Dotted)
                (NestedExamples.registryOf "app" PathExamples.Dotted) _ eq_refl).
  vm_compute in H. apply NoDup_cons in H as [H _]. apply H. by left.
Qed.

(** The same happens for a name an inline struct repeats. *)
Example Spec_paths_inline_repeat :
  map configkit.FieldSpec.Path (configkit.walkStruct PathExamples.Service "" [])
  = ["name"; "name"].
Proof. vm_compute. reflexivity. Qed.

(** * More of the package *)

From stdpp Require Import sorting.

(** ** The registry: string forms, invariants *)

Section RegistryMore.
Import configkit.
Context {caseTables : unicode.Tables}.

Local Abbreviation register := registerRequirementType.

(** Deduplication looks at the string form of the type alone: under one
    key, a type whose string form is that of a type registered before (two
    packages of the same name with a type of the same name) is dropped, and
    [Requirements()] does not change. *)
Theorem registration_same_string_form_dropped st k t1 t2 :
  reflect.Type_String t1 = reflect.Type_String t2 ->
  register k t2 (register k t1 st) = register k t1 st
  /\ fst (Requirements (register k t2 (register k t1 st)))
     = fst (Requirements (register k t1 st)).
Proof.
  intros Hs.
  assert (E : register k t2 (register k t1 st) = register k t1 st).
  { apply register_seen. unfold typeKey. rewrite <- Hs. apply register_marks_seen. }
  by rewrite E.
Qed.

Lemma registration_same_string_form_dropped_witness :
  let T1 := reflect.TStruct "Config" "example.com/a/config" "config.Config" [] in
  let T2 := reflect.TStruct "Config" "example.com/b/config" "config.Config" [] in
  fst (Requirements (register "svc" T2 (register "svc" T1 emptyRegistry)))
  = fst (Requirements (register "svc" T1 emptyRegistry)).
Proof.
  intros T1 T2.
  exact (proj2 (registration_same_string_form_dropped emptyRegistry "svc" T1 T2 eq_refl)).
Defined.

Lemma Reachable_base st :
  Reachable st ->
  forall e, e ∈ reqs st ->
    base e = reflect.indirect (t e) /\ reflect.Kind_of (base e) <> reflect.Ptr.
Proof.
  induction 1 as [|k typ st Hst IH]; [by intros e ?%elem_of_nil|].
  destruct (decide (typeKey k typ ∈ reqSeen st)) as [H | H].
  - by rewrite register_seen.
  - rewrite register_fresh by done. simpl.
    intros e [He | ->%list_elem_of_singleton]%elem_of_app; [by apply IH|].
    simpl. split; [done | apply indirect_not_ptr].
Qed.

(** What registration keeps true of the registry: the base of every entry
    is its type without the pointers and is no pointer type, no two entries
    have the same deduplication key, [reqSeen] holds the keys of the
    entries and no other, and [Requirements()] has one element for each. *)
Theorem Reachable_invariants st :
  Reachable st ->
  (forall e, e ∈ reqs st ->
     base e = reflect.indirect (t e) /\ reflect.Kind_of (base e) <> reflect.Ptr)
  /\ NoDup (map entryKey (reqs st))
  /\ (forall k, k ∈ reqSeen st <-> exists e, e ∈ reqs st /\ entryKey e = k)
  /\ List.length (fst (Requirements st)) = size (reqSeen st).
Proof.
  intros Hst.
  destruct (Reachable_consistent st Hst) as [Hseen Hnd].
  split; [|split; [done|split]].
  - by apply Reachable_base.
  - intros k. rewrite Hseen. split.
    + intros (e & <- & He%list_elem_of_In)%list_elem_of_In%in_map_iff. eauto.
    + intros (e & He & <-). apply list_elem_of_In, in_map_iff.
      exists e. split; [done | by apply list_elem_of_In].
  - rewrite Requirements_length.
    rewrite <- (length_map entryKey (reqs st)).
    assert (Hset : reqSeen st = list_to_set (map entryKey (reqs st))).
    { apply set_eq. intros k. by rewrite Hseen, elem_of_list_to_set. }
    rewrite Hset. symmetry. by apply size_list_to_set.
Qed.

Lemma Reachable_invariants_witness :
  List.length (fst (Requirements Examples.dbRegistry))
  = size (reqSeen Examples.dbRegistry).
Proof.
  refine (proj2 (proj2 (proj2 (Reachable_invariants Examples.dbRegistry _)))).
  repeat constructor.
Defined.

End RegistryMore.

(** ** The known modules registry *)

Module known.
Import reflect.

(** The package variable [knownTypes] (behind [knownMu]). *)
Definition Registry := gmap string rtype.

(** [RegisterKnown]: [None] is the nil sample. *)
Definition RegisterKnown (key : string) (sample : option rtype)
    (knownTypes : Registry) : Registry :=
  match sample with
  | None => knownTypes
  | Some t => <[key := indirect t]> knownTypes
  end.

Definition KnownType (key : string) (knownTypes : Registry) : option rtype :=
  knownTypes !! key.

Definition lessKey (a b : configkit.Requirement.t) : bool :=
  strings.lt (configkit.Requirement.Key a) (configkit.Requirement.Key b).

(** [Known]: the entries of the map, in the order of the [range], sorted
    by key. [sort.Slice] is not stable, but no two entries of a map have the
    same key, so the sorted list is the same for every algorithm and every
    order of the [range], as is proved below; it is taken here from the
    insertion sort. *)
Definition Known (knownTypes : Registry) : list configkit.Requirement.t :=
  sort.SliceStable lessKey
    (map (fun '(k, t) =>
            configkit.Requirement.mk k (configkit.displayName t) (Type_PkgPath t))
         (map_to_list knownTypes)).

End known.

Section SortedUnique.

Lemma str_le_antisym (a b : string) : str_le a b -> str_le b a -> a = b.
Proof.
  unfold str_le. intros Hab Hba.
  destruct (lt_trichotomy a b) as [H | [H | H]]; congruence.
Qed.

Lemma str_le_refl (a : string) : str_le a a.
Proof. apply lt_irrefl. Qed.

(** The sorted list of strings does not depend on the order they come in. *)
Lemma Strings_Permutation_eq (l1 l2 : list string) :
  Permutation l1 l2 -> sort.Strings l1 = sort.Strings l2.
Proof.
  intros Hp. apply (StronglySorted_unique_strong str_le).
  - intros x1 x2 _ _. apply str_le_antisym.
  - apply Strings_sorted.
  - apply Strings_sorted.
  - by rewrite !Strings_Permutation.
Qed.

Lemma NoDup_map_inj {A B : Type} (f : A -> B) (l : list A) (x y : A) :
  NoDup (map f l) -> x ∈ l -> y ∈ l -> f x = f y -> x = y.
Proof.
  induction l as [|z l IH]; simpl; [by intros _ ?%elem_of_nil|].
  intros [Hz Hnd]%NoDup_cons [-> | Hx]%elem_of_cons [-> | Hy]%elem_of_cons E;
    [done| | |by apply IH].
  - destruct Hz. rewrite E. apply list_elem_of_In, in_map, list_elem_of_In, Hy.
  - destruct Hz. rewrite <- E. apply list_elem_of_In, in_map, list_elem_of_In, Hx.
Qed.

Lemma NoDup_of_map {A B : Type} (f : A -> B) (l : list A) :
  NoDup (map f l) -> NoDup l.
Proof. rewrite !NoDup_ListNoDup. apply List.NoDup_map_inv. Qed.

End SortedUnique.

Section KnownFacts.
Import reflect known.
Context {caseTables : unicode.Tables}.

Definition knownEntries (knownTypes : Registry) : list configkit.Requirement.t :=
  map (fun '(k, t) =>
         configkit.Requirement.mk k (configkit.displayName t) (Type_PkgPath t))
      (map_to_list knownTypes).

Definition key_le (a b : configkit.Requirement.t) : Prop :=
  str_le (configkit.Requirement.Key a) (configkit.Requirement.Key b).

Definition key_lt (a b : configkit.Requirement.t) : Prop :=
  strings.lt (configkit.Requirement.Key a) (configkit.Requirement.Key b) = true.

Lemma knownEntries_keys (knownTypes : Registry) :
  map configkit.Requirement.Key (knownEntries knownTypes)
  = map fst (map_to_list knownTypes).
Proof.
  unfold knownEntries. rewrite map_map. apply map_ext. by intros [k t].
Qed.

Lemma knownEntries_NoDup (knownTypes : Registry) :
  NoDup (map configkit.Requirement.Key (knownEntries knownTypes)).
Proof. rewrite knownEntries_keys. apply NoDup_fst_map_to_list. Qed.

Lemma Known_Permutation (knownTypes : Registry) :
  Permutation (Known knownTypes) (knownEntries knownTypes).
Proof. apply SliceStable_Permutation. Qed.

Lemma Known_sorted (knownTypes : Registry) :
  StronglySorted key_le (Known knownTypes).
Proof.
  apply (SliceStable_StronglySorted lessKey).
  - intros a b. apply lt_asym.
  - intros a b c. apply str_le_trans.
Qed.

(** [RegisterKnown] and [KnownType]: the type found under a key is the
    last one registered under it, without its pointers; the other keys are
    not touched, and a nil sample changes nothing. *)
Theorem KnownType_RegisterKnown (knownTypes : Registry) (key : string) :
  (forall t, KnownType key (RegisterKnown key (Some t) knownTypes)
             = Some (indirect t)
             /\ Kind_of (indirect t) <> Ptr)
  /\ (forall t1 t2,
        RegisterKnown key (Some t2) (RegisterKnown key (Some t1) knownTypes)
        = RegisterKnown key (Some t2) knownTypes)
  /\ (forall sample key',
        key <> key' ->
        KnownType key' (RegisterKnown key sample knownTypes)
        = KnownType key' knownTypes)
  /\ RegisterKnown key None knownTypes = knownTypes.
Proof.
  split; [|split; [|split; [|done]]].
  - intros t. split; [apply lookup_insert_eq | apply indirect_not_ptr].
  - intros t1 t2. apply insert_insert_eq.
  - intros [t|] key' Hne; [|done]. by apply lookup_insert_ne.
Qed.

Lemma KnownType_RegisterKnown_witness :
  KnownType "db"
    (RegisterKnown "http" (Some (TPtr Examples.dbConfig))
       (RegisterKnown "db" (Some (TPtr Examples.dbConfig)) ∅))
  = KnownType "db" (RegisterKnown "db" (Some (TPtr Examples.dbConfig)) ∅).
Proof.
  apply (proj1 (proj2 (proj2 (KnownType_RegisterKnown
           (RegisterKnown "db" (Some (TPtr Examples.dbConfig)) ∅) "http")))).
  discriminate.
Defined.

(** [Known()] has one entry for every known key and no other, in strictly
    increasing order of the keys; it is the only list of the entries of the
    map that is sorted by key, so neither the order in which the map is
    ranged over nor the sorting algorithm shows in it. *)
Theorem Known_characterised (knownTypes : Registry) :
  StronglySorted key_lt (Known knownTypes)
  /\ List.length (Known knownTypes) = size knownTypes
  /\ (forall r, r ∈ Known knownTypes <->
        exists t, KnownType (configkit.Requirement.Key r) knownTypes = Some t
                  /\ r = configkit.Requirement.mk (configkit.Requirement.Key r)
                           (configkit.displayName t) (Type_PkgPath t))
  /\ (forall l, Permutation l (knownEntries knownTypes) ->
        StronglySorted key_le l -> l = Known knownTypes).
Proof.
  assert (Hinj : forall x y, x ∈ knownEntries knownTypes ->
            y ∈ knownEntries knownTypes ->
            configkit.Requirement.Key x = configkit.Requirement.Key y -> x = y).
  { intros x y. apply NoDup_map_inj, knownEntries_NoDup. }
  assert (Hin : forall x, x ∈ Known knownTypes <-> x ∈ knownEntries knownTypes).
  { intros x. by rewrite Known_Permutation. }
  split; [|split; [|split]].
  - assert (Hnd : NoDup (Known knownTypes)).
    { rewrite Known_Permutation.
      apply (NoDup_of_map configkit.Requirement.Key), knownEntries_NoDup. }
    pose proof (Known_sorted knownTypes) as Hs.
    assert (Hsub : forall x, x ∈ Known knownTypes -> x ∈ knownEntries knownTypes)
      by (intros x; apply Hin).
    clear Hin. revert Hs Hnd Hsub.
    generalize (Known knownTypes) as l. intros l Hs.
    induction Hs as [|x l Hs IH Hall]; intros Hnd Hsub; constructor.
    + apply IH; [by apply NoDup_cons in Hnd as [_ ?]|].
      intros y Hy. apply Hsub. by right.
    + apply NoDup_cons in Hnd as [Hx Hnd].
      rewrite List.Forall_forall in Hall |- *. intros y Hy.
      specialize (Hall y Hy). unfold key_le, str_le, key_lt in *.
      destruct (lt_trichotomy (configkit.Requirement.Key x)
                  (configkit.Requirement.Key y)) as [H | [H | H]];
        [done | | congruence].
      destruct Hx. apply list_elem_of_In in Hy.
      rewrite (Hinj x y); [done| | |done]; apply Hsub; [by left | by right].
  - unfold Known. rewrite SliceStable_length, length_map.
    apply length_map_to_list.
  - intros r. rewrite Hin. unfold knownEntries, KnownType. split.
    + intros ([k t] & <- & Hkt%list_elem_of_In%elem_of_map_to_list)%list_elem_of_In%in_map_iff.
      by exists t.
    + intros (t & Ht & ->). apply list_elem_of_In, in_map_iff.
      exists (configkit.Requirement.Key r, t). split; [done|].
      by apply list_elem_of_In, elem_of_map_to_list.
  - intros l Hp Hs. apply (StronglySorted_unique_strong key_le);
      [|done|apply Known_sorted|by rewrite Known_Permutation].
    intros x y Hx Hy Hxy Hyx. apply Hinj.
    + by rewrite <- Hp.
    + by apply Hin.
    + by apply str_le_antisym.
Qed.

Lemma Known_characterised_witness :
  let kt := RegisterKnown "a" (Some Examples.tInt)
              (RegisterKnown "b" (Some Examples.dbConfig) ∅) in
  [configkit.Requirement.mk "a" "int" "";
   configkit.Requirement.mk "b" "db.Config" "example.com/app/db"]
  = Known kt.
Proof.
  intros kt.
  apply (proj2 (proj2 (proj2 (Known_characterised kt)))).
  - apply NoDup_Permutation.
    + apply NoDup_ListNoDup. by vm_compute; repeat constructor; simpl; intuition discriminate.
    + apply (NoDup_of_map configkit.Requirement.Key), knownEntries_NoDup.
    + intros r. rewrite <- (Known_Permutation kt). vm_compute.
      split; intros H; apply list_elem_of_In; apply list_elem_of_In in H; exact H.
  - repeat constructor.
Defined.

End KnownFacts.

(** ** Spec: listed requirements, the accumulator, the prefix *)

Section SpecMore.
Import reflect configkit.
Context {caseTables : unicode.Tables}.

Lemma prefix_dot_cons c s : String.prefix "." (String c s) = Ascii.eqb "." c.
Proof.
  change (String.prefix "." (String c s))
    with (match ascii_dec "." c with
          | left _ => String.prefix "" s
          | right _ => false
          end).
  destruct (ascii_dec "." c) as [<- | Hne].
  - rewrite Ascii.eqb_refl. by destruct s.
  - symmetry. by apply Ascii.eqb_neq.
Qed.

Lemma LastIndex_dotless (s : string) :
  dotless s = true -> strings.LastIndex s "." = None.
Proof.
  induction s as [|c s IH]; [done|].
  cbn [dotless strings.LastIndex]. intros [Hc Hs]%andb_true_iff.
  rewrite IH by done. rewrite prefix_dot_cons, Ascii.eqb_sym.
  by apply negb_true_iff in Hc as ->.
Qed.

Lemma LastIndex_last_dot (a b : string) :
  dotless b = true ->
  strings.LastIndex (a +:+ "." +:+ b) "." = Some (String.length a).
Proof.
  intros Hb. induction a as [|c a IH].
  - rewrite str_app_nil_l.
    change ("." +:+ b) with (String "." b). cbn [strings.LastIndex].
    by rewrite LastIndex_dotless, prefix_dot_cons, Ascii.eqb_refl.
  - rewrite str_app_cons. cbn [strings.LastIndex]. by rewrite IH.
Qed.

Lemma sliceFrom_app (a b : string) :
  strings.sliceFrom (String.length a) (a +:+ b) = b.
Proof.
  induction a as [|c a IH]; [by destruct b|]. by rewrite str_app_cons.
Qed.

(** [trimPkg] undoes the package qualification of a name without a dot. *)
Lemma trimPkg_qualified (pkg name : string) :
  dotless name = true -> trimPkg (pkg +:+ "." +:+ name) = name.
Proof.
  intros Hn. unfold trimPkg. rewrite LastIndex_last_dot by done.
  replace (String.length pkg + 1)%nat with (String.length (pkg +:+ "."))
    by (rewrite str_length_app; simpl; lia).
  rewrite <- str_app_assoc. apply sliceFrom_app.
Qed.

Lemma trimPkg_dotless (name : string) : dotless name = true -> trimPkg name = name.
Proof. intros Hn. unfold trimPkg. by rewrite LastIndex_dotless. Qed.

Lemma trimPkg_displayName (typ : rtype) :
  dotless (Type_Name typ) = true -> trimPkg (displayName typ) = Type_Name typ.
Proof.
  intros Hn. unfold displayName.
  destruct (String.eqb (Type_PkgPath typ) ""); [by apply trimPkg_dotless|].
  destruct (String.eqb (List.last _ "") "");
    [by apply trimPkg_dotless | by apply trimPkg_qualified].
Qed.

Lemma find_is_Some {A : Type} (p : A -> bool) (l : list A) (x : A) :
  x ∈ l -> p x = true -> exists y, List.find p l = Some y.
Proof.
  induction l as [|z l IH]; [by intros ?%elem_of_nil|].
  intros [-> | Hx]%elem_of_cons Hp; simpl.
  - rewrite Hp. eauto.
  - destruct (p z); eauto.
Qed.

(** Every requirement that [Requirements()] lists for a type that is not
    recursive and whose name has no dot is found again by [Spec] and by
    [Skeleton], whatever key it is listed under: the answer is the
    specification of the first registered entry whose base type has that
    package path and name, never the not-found error. *)
Theorem Spec_of_listed_requirement (st : Registry) (r : reqEntry) :
  r ∈ reqs st ->
  dotless (Type_Name (base r)) = true ->
  requirementOf r ∈ fst (Requirements st)
  /\ (exists before r' after,
        reqs st = before ++ r' :: after
        /\ Type_PkgPath (base r') = Type_PkgPath (base r)
        /\ Type_Name (base r') = Type_Name (base r)
        /\ (forall e, e ∈ before ->
              ~ (Type_PkgPath (base e) = Type_PkgPath (base r)
                 /\ Type_Name (base e) = Type_Name (base r)))
        /\ fst (Spec (requirementOf r) st) = inl (walkStruct (base r') "" []))
  /\ (forall e, fst (Skeleton (requirementOf r) st) <> Some (inr e)).
Proof.
  intros Hr Hn.
  assert (Hdesc : forall e, describes (requirementOf r) e = true
            <-> Type_PkgPath (base e) = Type_PkgPath (base r)
                /\ Type_Name (base e) = Type_Name (base r)).
  { intros e. unfold describes. simpl. rewrite trimPkg_displayName by done.
    by rewrite andb_true_iff, !String.eqb_eq. }
  assert (Hfind : exists r', specEntry (requirementOf r) st = Some r').
  { apply (find_is_Some _ _ r); [done|]. by apply Hdesc. }
  destruct Hfind as [r' Hfind].
  split; [|split].
  - rewrite Requirements_Permutation.
    apply list_elem_of_In, in_map, list_elem_of_In, Hr.
  - pose proof Hfind as Hf.
    apply specEntry_first in Hf as (before & after & E & Hr' & Hbefore).
    exists before, r', after. apply Hdesc in Hr' as [Hp Hname].
    split; [done|]. split; [done|]. split; [done|]. split.
    + intros e He Hsame. apply Hdesc in Hsame.
      rewrite (Hbefore e He) in Hsame. done.
    + by rewrite Spec_specEntry, Hfind.
  - intros e. unfold Skeleton. rewrite Spec_specEntry, Hfind.
    destruct (buildTree _); [|done].
    by destruct (negb _).
Qed.

(** A type name with a dot, as instantiated generic types have, is cut at
    its last dot by [trimPkg], and the requirement is not found again. *)
Example Spec_generic_type_not_found :
  let T := TStruct "Box[example.com/app.Item]" "example.com/app"
             "app.Box[example.com/app.Item]" [] in
  let st := registerRequirementType "box" T emptyRegistry in
  map (fun r => fst (Spec r st)) (fst (Requirements st))
  = [inr (NotFoundError "box" "app.Box[example.com/app.Item]")].
Proof. vm_compute. reflexivity. Qed.

Lemma walkField_fold_app prefix fields :
  (forall f out, f ∈ fields -> walkField prefix out f = out ++ walkField prefix [] f) ->
  forall out,
    fold_left (walkField prefix) fields out
    = out ++ fold_left (walkField prefix) fields [].
Proof.
  induction fields as [|f fields IH]; intros Hf out; simpl.
  - by rewrite List.app_nil_r.
  - assert (Hrest : forall f' out', f' ∈ fields ->
              walkField prefix out' f' = out' ++ walkField prefix [] f').
    { intros f' out' Hin. apply Hf. by right. }
    rewrite (IH Hrest (walkField prefix out f)).
    rewrite (IH Hrest (walkField prefix [] f)).
    rewrite (Hf f out) by by left. by rewrite List.app_assoc.
Qed.

Lemma walkType_app ft : forall name inline required prefix out,
  walkType ft name inline required prefix out
  = out ++ walkType ft name inline required prefix [].
Proof.
  induction ft as [e IH | n p s fields IH | k nm p s] using rtype_ind';
    intros name inline required prefix out.
  - apply IH.
  - rewrite !walkType_TStruct. apply walkField_fold_app.
    intros f out' Hf. rewrite List.Forall_forall in IH.
    apply list_elem_of_In in Hf. specialize (IH f Hf).
    unfold walkField. destruct (negb _); [by rewrite List.app_nil_r|].
    destruct (parseYAMLTag _ f) as [n' i']. apply IH.
  - simpl. destruct (String.eqb name "-"); [by rewrite List.app_nil_r | done].
Qed.

(** [walkStruct] only appends to the slice it is given: what was in it
    stays in front, and what is added does not depend on it. *)
Theorem walkStruct_appends (t : rtype) (prefix : string) (out : list FieldSpec.t) :
  walkStruct t prefix out = out ++ walkStruct t prefix [].
Proof.
  unfold walkStruct.
  destruct (match t with TPtr e => e | _ => t end) as [e | n p s fields | k nm p s];
    try by rewrite List.app_nil_r.
  apply (walkType_app (TStruct n p s fields) "" true false prefix out).
Qed.

Lemma pathOf_extends prefix names :
  exists rest, pathOf prefix names = prefix +:+ rest.
Proof.
  destruct (String.eqb_spec prefix "") as [-> | Hne].
  - eexists. by rewrite str_app_nil_l.
  - exists (dotted names). by apply pathOf_dotted.
Qed.

(** Every path that [walkStruct] records below a prefix starts with that
    prefix. *)
Theorem walkStruct_paths_extend_prefix (t : rtype) (prefix : string)
    (s : FieldSpec.t) :
  s ∈ walkStruct t prefix [] ->
  exists rest, FieldSpec.Path s = prefix +:+ rest.
Proof.
  unfold walkStruct.
  destruct (match t with TPtr e => e | _ => t end) as [e | n p st fields | k nm p st];
    try by intros ?%elem_of_nil.
  change (fold_left (walkField prefix) fields [])
    with (walkType (TStruct n p st fields) "" true false prefix []).
  intros Hs.
  assert (Hp : FieldSpec.Path s
               ∈ map FieldSpec.Path
                   (walkType (TStruct n p st fields) "" true false prefix [])).
  { apply list_elem_of_In, in_map, list_elem_of_In, Hs. }
  rewrite walkType_paths in Hp. simpl in Hp.
  apply list_elem_of_In, in_map_iff in Hp as (names & <- & _).
  apply pathOf_extends.
Qed.

(** [strings.ToLower] of one byte: an ASCII byte is put in lower case; any
    other byte is no valid UTF-8, is read as [utf8.RuneError], and gives
    way to the encoding of the lower-case image of that rune. *)
Lemma ToLower_one_byte (c : ascii) :
  strings.ToLower (String c "")
  = if (utf8.byte c <? 0x80)%Z then String (strings.lowerByte c) ""
    else if (0 <=? unicode.ToLower utf8.RuneError)%Z
         then utf8.AppendRune (unicode.ToLower utf8.RuneError)
         else "".
Proof.
  assert (Hr : (utf8.byte c <? 0x80)%Z = false ->
               strings.runes (String c "") = [utf8.RuneError]).
  { destruct c as [[] [] [] [] [] [] [] []]; vm_compute; congruence. }
  destruct (utf8.byte c <? 0x80)%Z eqn:E.
  - rewrite ToLower_ASCII by (simpl; unfold utf8.RuneSelf; by rewrite E).
    done.
  - unfold strings.ToLower, strings.Map.
    assert (Ha : strings.isASCII (String c "") = false).
    { simpl. unfold utf8.RuneSelf. by rewrite E. }
    rewrite Ha, (Hr eq_refl). simpl.
    destruct (0 <=? unicode.ToLower utf8.RuneError)%Z; [|done].
    by rewrite str_app_nil_r.
Qed.

(** [parseYAMLTag] gives a field whose Go name starts with an ASCII byte a
    name that is not empty; without a [yaml] tag the field is never
    inline, and without a [json] tag either its name is the Go name with
    the first byte in lower case when that byte is ASCII; the first byte
    of a name that starts with another letter is lost: it gives way to the
    lower-case image of the replacement character. *)
Theorem parseYAMLTag_name (tag : string) (f : StructField) :
  (forall c rest, Name f = String c rest -> (utf8.byte c < 0x80)%Z ->
     fst (parseYAMLTag tag f) <> "")
  /\ (strings.TrimSpace tag = "" -> snd (parseYAMLTag tag f) = false)
  /\ (strings.TrimSpace tag = "" ->
      strings.TrimSpace (Tag_Get (Tag f) "json") = "" ->
      forall c rest, Name f = String c rest ->
        ((utf8.byte c < 0x80)%Z ->
         fst (parseYAMLTag tag f) = String (strings.lowerByte c) rest)
        /\ ((0x80 <= utf8.byte c)%Z ->
            fst (parseYAMLTag tag f)
            = (if (0 <=? unicode.ToLower utf8.RuneError)%Z
               then utf8.AppendRune (unicode.ToLower utf8.RuneError)
               else "") +:+ rest)).
Proof.
  unfold parseYAMLTag.
  destruct (String.eqb_spec (strings.TrimSpace tag) "") as [Htag | Htag].
  - set (j := strings.TrimSpace (Tag_Get (Tag f) "json")).
    split; [|split].
    + intros c rest Hn Hc.
      destruct (negb (String.eqb j "") && negb (String.eqb (List.hd "" (strings.Split j ",")) "")
                && negb (String.eqb (List.hd "" (strings.Split j ",")) "-")) eqn:E;
        cbn [fst].
      * apply andb_true_iff in E as [[_ E]%andb_true_iff _].
        apply negb_true_iff in E. by apply String.eqb_neq in E.
      * rewrite Hn. cbn [strings.sliceTo strings.sliceFrom].
        rewrite ToLower_one_byte.
        apply Z.ltb_lt in Hc. by rewrite Hc.
    + intros _. by destruct (negb _ && _ && _).
    + intros _ Hj c rest Hn. rewrite Hj. cbn [fst String.eqb negb andb].
      rewrite Hn. cbn [strings.sliceTo strings.sliceFrom].
      rewrite ToLower_one_byte. split.
      * intros Hc. apply Z.ltb_lt in Hc. by rewrite Hc.
      * intros Hc. apply Z.ltb_ge in Hc. by rewrite Hc.
  - split; [|split; [done|done]].
    intros c rest Hn _. cbn [fst].
    destruct (String.eqb_spec (List.hd "" (strings.Split (strings.TrimSpace tag) ",")) "");
      [by rewrite Hn | done].
Qed.

End SpecMore.

Lemma walkStruct_paths_extend_prefix_witness :
  exists rest,
    configkit.FieldSpec.Path (configkit.FieldSpec.mk "db.host" "string" true)
    = "db" +:+ rest.
Proof.
  apply (walkStruct_paths_extend_prefix Examples.dbConfig "db").
  vm_compute. by left.
Defined.


Lemma Spec_of_listed_requirement_witness :
  fst (configkit.Spec (configkit.requirementOf (configkit.mkReqEntry "db" Examples.dbConfig Examples.dbConfig))
         Examples.dbRegistry)
  = inl (configkit.walkStruct Examples.dbConfig "" []).
Proof.
  destruct (Spec_of_listed_requirement Examples.dbRegistry
              (configkit.mkReqEntry "db" Examples.dbConfig Examples.dbConfig))
    as (_ & (before & r' & after & E & _ & _ & _ & Hspec) & _).
  - by apply list_elem_of_singleton.
  - reflexivity.
  - assert (Hr' : r' ∈ configkit.reqs Examples.dbRegistry).
    { rewrite E. apply elem_of_app. right. by left. }
    apply list_elem_of_singleton in Hr'. by subst r'.
Defined.


Lemma parseYAMLTag_name_witness :
  fst (configkit.parseYAMLTag "" (reflect.mkField "EnablePprof" "" Examples.tInt [] false))
  = String (strings.lowerByte "E") "nablePprof".
Proof.
  refine (proj1 (proj2 (proj2 (parseYAMLTag_name ""
                   (reflect.mkField "EnablePprof" "" Examples.tInt [] false)))
                   _ _ "E"%char "nablePprof" _) _); by vm_compute.
Defined.

(** ** Reading the validator's sentence *)

Section SentenceFacts.
Import configkit.
Context {caseTables : unicode.Tables}.

(** The byte [c] does not occur in [s]. *)
Fixpoint lacks (c : ascii) (s : string) : bool :=
  match s with
  | String d s' => negb (Ascii.eqb d c) && lacks c s'
  | EmptyString => true
  end.

Lemma lacks_app c a b : lacks c (a +:+ b) = lacks c a && lacks c b.
Proof.
  induction a as [|d a IH]; [done|].
  rewrite str_app_cons. simpl. by rewrite IH, andb_assoc.
Qed.

Lemma prefix_cons_ne c d sub s :
  c <> d -> String.prefix (String c sub) (String d s) = false.
Proof. intros Hne. simpl. by destruct (ascii_dec c d). Qed.

Lemma prefix_app (sub rest : string) : String.prefix sub (sub +:+ rest) = true.
Proof. apply prefix_spec. by exists rest. Qed.

Lemma Index_here (sub rest : string) : strings.Index (sub +:+ rest) sub = Some 0%nat.
Proof. by rewrite Index_unfold, prefix_app. Qed.

Lemma Index_next c s sub :
  String.prefix sub (String c s) = false ->
  strings.Index (String c s) sub = S <$> strings.Index s sub.
Proof. intros H. by rewrite Index_unfold, H. Qed.

(** No occurrence of a string starts where its first byte is absent. *)
Lemma Index_skip c sub a b :
  lacks c a = true ->
  strings.Index (a +:+ b) (String c sub)
  = (fun i => String.length a + i)%nat <$> strings.Index b (String c sub).
Proof.
  intros Ha. induction a as [|d a IH].
  - rewrite str_app_nil_l. by destruct (strings.Index b _).
  - simpl in Ha. apply andb_true_iff in Ha as [Hd%negb_true_iff%Ascii.eqb_neq Ha].
    rewrite str_app_cons, Index_next by (apply prefix_cons_ne; congruence).
    rewrite IH by done. by destruct (strings.Index b _).
Qed.

Lemma prefix_within sub a b :
  String.prefix sub (a +:+ b) = true -> (String.length sub <= String.length a)%nat ->
  String.prefix sub a = true.
Proof.
  revert a. induction sub as [|c sub IH]; intros a; [by destruct a|].
  destruct a as [|d a]; [simpl; lia|].
  rewrite str_app_cons. simpl.
  destruct (ascii_dec c d); [|done]. intros H Hlen. apply IH; [done | lia].
Qed.

(** [strings.Index] returns the first occurrence: if the string does not
    occur before, not even with its last byte cut off, it is found where it
    is put. *)
Lemma Index_first (init : string) (q : ascii) (a b : string) :
  ~ occurs (init +:+ String q "") (a +:+ init) ->
  strings.Index (a +:+ (init +:+ String q "") +:+ b) (init +:+ String q "")
  = Some (String.length a).
Proof.
  induction a as [|c a IH]; intros Hno.
  - rewrite str_app_nil_l. apply Index_here.
  - rewrite str_app_cons, Index_next.
    + rewrite IH; [done|]. intros (x & y & E). apply Hno.
      exists (String c x), y. by rewrite !str_app_cons, E.
    + destruct (String.prefix _ _) eqn:E; [|done]. destruct Hno.
      rewrite <- str_app_cons in E.
      replace (String c a +:+ (init +:+ String q "") +:+ b)
        with ((String c a +:+ init) +:+ String q b) in E
        by (by rewrite !str_app_assoc).
      apply prefix_within in E.
      * apply prefix_spec in E as [y E]. exists "", y. by rewrite str_app_nil_l.
      * rewrite !str_length_app. simpl. lia.
Qed.

Lemma LastIndex_lacks c s :
  lacks c s = true -> strings.LastIndex s (String c "") = None.
Proof.
  induction s as [|d s IH]; [done|].
  cbn [lacks strings.LastIndex]. intros [Hd%negb_true_iff%Ascii.eqb_neq Hs]%andb_true_iff.
  rewrite IH by done. by rewrite prefix_cons_ne by congruence.
Qed.

Lemma LastIndex_last c a b :
  lacks c b = true ->
  strings.LastIndex (a +:+ String c b) (String c "") = Some (String.length a).
Proof.
  intros Hb. induction a as [|d a IH].
  - rewrite str_app_nil_l. cbn [strings.LastIndex].
    rewrite LastIndex_lacks by done.
    replace (String.prefix (String c "") (String c b)) with true; [done|].
    symmetry. apply prefix_spec. by exists b.
  - rewrite str_app_cons. cbn [strings.LastIndex]. by rewrite IH.
Qed.

Lemma sliceTo_app (a b : string) : strings.sliceTo (String.length a) (a +:+ b) = a.
Proof.
  induction a as [|c a IH]; [by destruct b|].
  rewrite str_app_cons. simpl. by rewrite IH.
Qed.

Definition failedOn : string := "' failed on the '".

(** The sentence of the validator, read back: from a line that holds
    [Field validation for 'F' failed on the 'R' tag], with no earlier start
    of that sentence, no quote in [F] and neither quote nor blank in [R],
    [extractFieldAndRule] takes [F] and [R], whatever is around. *)
Theorem extractFieldAndRule_sentence (pre field rule post : string) :
  ~ occurs fieldPattern (pre +:+ "Field validation for ") ->
  lacks "'" field = true ->
  lacks "'" rule = true ->
  lacks " " rule = true ->
  extractFieldAndRule
    (pre +:+ fieldPattern +:+ field +:+ failedOn +:+ rule +:+ "' tag" +:+ post)
  = (field, rule).
Proof.
  intros Hpre Hfield Hrule Hblank.
  set (tail := "' tag" +:+ post).
  set (rest := field +:+ failedOn +:+ rule +:+ tail).
  unfold extractFieldAndRule.
  (* the sentence starts after [pre] *)
  change fieldPattern with ("Field validation for " +:+ String "'" "") in *.
  rewrite (Index_first "Field validation for " "'" pre rest Hpre).
  rewrite <- str_app_assoc, <- str_length_app, sliceFrom_app.
  (* the field ends at the first quote *)
  assert (Hj : strings.Index rest "'" = Some (String.length field)).
  { unfold rest. rewrite Index_skip by done.
    change (failedOn +:+ rule +:+ tail)
      with ("'" +:+ (" failed on the '" +:+ rule +:+ tail)).
    rewrite Index_here. simpl. f_equal. lia. }
  rewrite Hj.
  replace (strings.sliceTo (String.length field) rest) with field
    by (unfold rest; by rewrite sliceTo_app).
  (* the rule ends at the first quote that is followed by the word tag *)
  assert (Hk : strings.Index rest "' tag"
               = Some (String.length (field +:+ failedOn +:+ rule))).
  { unfold rest. rewrite Index_skip by done.
    change (failedOn +:+ rule +:+ tail)
      with (String "'" (" failed on the " +:+ String "'" (rule +:+ tail))).
    rewrite Index_next.
    2:{ destruct (String.prefix _ _) eqn:E; [|done].
        apply prefix_spec in E as [y E]. by rewrite !str_app_cons in E. }
    rewrite Index_skip by done.
    rewrite Index_next.
    2:{ destruct (String.prefix _ _) eqn:E; [|done].
        apply prefix_spec in E as [y E]. rewrite !str_app_cons in E.
        destruct rule as [|c rule]; [done|].
        rewrite str_app_cons in E. injection E as -> _. by simpl in Hblank. }
    rewrite Index_skip by done.
    unfold tail. rewrite Index_here. simpl.
    rewrite !str_length_app. simpl. f_equal. lia. }
  rewrite Hk.
  replace rest with ((field +:+ failedOn +:+ rule) +:+ tail)
    by (unfold rest; by rewrite !str_app_assoc).
  rewrite sliceTo_app.
  (* the rule starts after the last quote before it *)
  replace (field +:+ failedOn +:+ rule)
    with ((field +:+ "' failed on the ") +:+ String "'" rule)
    by (by rewrite !str_app_assoc).
  rewrite LastIndex_last by done.
  replace (String.length (field +:+ "' failed on the ") + 1)%nat
    with (String.length ((field +:+ "' failed on the ") +:+ "'"))
    by (rewrite !str_length_app; simpl; lia).
  replace ((field +:+ "' failed on the ") +:+ String "'" rule)
    with (((field +:+ "' failed on the ") +:+ "'") +:+ rule)
    by (by rewrite !str_app_assoc).
  by rewrite sliceFrom_app.
Qed.

End SentenceFacts.

Lemma extractFieldAndRule_sentence_witness :
  configkit.extractFieldAndRule
    ("Key: 'Config.Host' Error:" +:+ configkit.fieldPattern +:+ "Host" +:+ failedOn
       +:+ "required" +:+ "' tag" +:+ "")
  = ("Host", "required").
Proof.
  apply extractFieldAndRule_sentence; [|done..].
  intros H%Index_is_Some. vm_compute in H. by destruct H.
Defined.

(** ** The lines of a validation error *)

Section IssueLines.
Import configkit.
Context {caseTables : unicode.Tables}.

(** The lines of a message that are not blank, trimmed. *)
Definition issueLines (msg : string) : list string :=
  List.filter (fun p => negb (String.eqb p ""))
    (map strings.TrimSpace (strings.Split msg "010")).

Lemma formatIssues_fold root (parts acc : list string) :
  fold_left (fun out p =>
      let p := strings.TrimSpace p in
      if String.eqb p "" then out else out ++ [formatIssueLine root p])
    parts acc
  = acc ++ map (formatIssueLine root)
             (List.filter (fun p => negb (String.eqb p ""))
                (map strings.TrimSpace parts)).
Proof.
  revert acc. induction parts as [|p parts IH]; intros acc; simpl.
  - by rewrite List.app_nil_r.
  - rewrite IH. destruct (String.eqb (strings.TrimSpace p) ""); simpl; [done|].
    by rewrite <- List.app_assoc.
Qed.

Lemma formatValidationIssues_lines (err : error) (root : reflect.rtype) :
  formatValidationIssues err root
  = map (formatIssueLine root) (issueLines (Error err)).
Proof. unfold formatValidationIssues. by rewrite formatIssues_fold. Qed.

Lemma allSpace_Split (s : string) (sep : ascii) :
  allSpace s = true ->
  List.Forall (fun p => allSpace p = true) (strings.Split s sep).
Proof.
  induction s as [|c s IH]; simpl; [by repeat constructor|].
  intros [Hc Hs]%andb_true_iff. specialize (IH Hs).
  destruct (Ascii.eqb c sep); [by constructor|].
  destruct (strings.Split s sep) as [|p ps]; [by repeat constructor; simpl; rewrite Hc|].
  inversion_clear IH. constructor; [|done]. simpl. by rewrite Hc.
Qed.

Lemma occurs_trans a b c : occurs a b -> occurs b c -> occurs a c.
Proof.
  intros (p1 & q1 & ->) (p2 & q2 & ->).
  exists (p2 +:+ p1), (q1 +:+ q2). by rewrite !str_app_assoc.
Qed.

Lemma trimLeft_suffix (s : string) : exists pre, s = pre +:+ strings.trimLeft s.
Proof.
  induction s as [|c s [pre IH]]; simpl; [by exists ""|].
  destruct (strings.isSpace c).
  - exists (String c pre). by rewrite str_app_cons, <- IH.
  - by exists "".
Qed.

Lemma trimRight_prefix (s : string) : exists post, s = strings.trimRight s +:+ post.
Proof.
  induction s as [|c s [post IH]]; simpl; [by exists ""|].
  destruct (strings.trimRight s) as [|d r] eqn:E.
  - destruct (strings.isSpace c).
    + exists (String c s). by rewrite str_app_nil_l.
    + exists s. by rewrite str_app_cons, str_app_nil_l.
  - exists post. by rewrite str_app_cons, <- IH.
Qed.

Lemma TrimSpace_occurs (s : string) : occurs (strings.TrimSpace s) s.
Proof.
  unfold strings.TrimSpace.
  destruct (trimLeft_suffix s) as [pre Hpre].
  destruct (trimRight_prefix (strings.trimLeft s)) as [post Hpost].
  exists pre, post. by rewrite <- Hpost.
Qed.

Lemma Split_hd_prefix (s : string) (sep : ascii) :
  exists post, s = List.hd "" (strings.Split s sep) +:+ post.
Proof.
  induction s as [|c s [post IH]]; simpl; [by exists ""|].
  destruct (Ascii.eqb c sep); simpl; [by exists (String c s)|].
  destruct (strings.Split s sep) as [|p ps]; simpl in *.
  - exists s. by rewrite str_app_cons, str_app_nil_l.
  - exists post. by rewrite str_app_cons, <- IH.
Qed.

Lemma Split_occurs (s : string) (sep : ascii) (p : string) :
  p ∈ strings.Split s sep -> occurs p s.
Proof.
  revert p. induction s as [|c s IH]; intros p; simpl.
  - intros ->%list_elem_of_singleton. by exists "", "".
  - assert (Hshift : forall q, occurs q s -> occurs q (String c s)).
    { intros q (x & y & ->). exists (String c x), y. by rewrite str_app_cons. }
    destruct (Ascii.eqb c sep).
    + intros [-> | Hp]%elem_of_cons; [by exists "", (String c s)|]. by apply Hshift, IH.
    + destruct (Split_hd_prefix s sep) as [post Hpost].
      destruct (strings.Split s sep) as [|q qs]; simpl in *.
      * intros ->%list_elem_of_singleton. exists "", s.
        by rewrite str_app_nil_l, str_app_cons, str_app_nil_l.
      * intros [-> | Hp]%elem_of_cons.
        -- exists "", post. by rewrite str_app_nil_l, str_app_cons, <- Hpost.
        -- apply Hshift, IH. by right.
Qed.

(** The issues are empty exactly for a blank message, and there are never
    more of them than the message has lines. *)
Theorem formatValidationIssues_blank (err : error) (root : reflect.rtype) :
  (formatValidationIssues err root = [] <-> strings.TrimSpace (Error err) = "")
  /\ (List.length (formatValidationIssues err root)
      <= List.length (strings.Split (Error err) "010"))%nat.
Proof.
  split.
  - split.
    + intros H. destruct (String.eqb_spec (strings.TrimSpace (Error err)) "") as [|Hne];
        [done|]. by apply (formatValidationIssues_nonempty err root) in Hne.
    + intros H%TrimSpace_empty. rewrite formatValidationIssues_lines.
      unfold issueLines.
      apply (allSpace_Split _ "010") in H.
      induction H as [|p ps Hp _ IH]; [done|]. simpl.
      apply TrimSpace_empty in Hp. rewrite Hp. exact IH.
  - rewrite formatValidationIssues_lines, length_map. unfold issueLines.
    etrans; [apply List.filter_length_le|]. by rewrite length_map.
Qed.

(** A line that does not hold the validator's sentence is reported as it
    is: the issues of a message without the sentence are its lines, trimmed,
    without the blank ones. *)
Theorem formatValidationIssues_verbatim (msg : string) (root : reflect.rtype) :
  ~ occurs fieldPattern msg ->
  formatValidationIssues (ExternalError msg) root = issueLines msg.
Proof.
  intros Hno. rewrite formatValidationIssues_lines. simpl.
  rewrite <- (List.map_id (issueLines msg)) at 2.
  apply map_ext_in. intros p Hp.
  unfold issueLines in Hp. apply filter_In in Hp as [Hp _].
  apply in_map_iff in Hp as (line & <- & Hline%list_elem_of_In).
  unfold formatIssueLine, extractFieldAndRule.
  destruct (strings.Index (strings.TrimSpace line) fieldPattern) as [i|] eqn:E; [|done].
  destruct Hno.
  eapply occurs_trans; [|by eapply Split_occurs].
  eapply occurs_trans; [|apply TrimSpace_occurs].
  apply Index_is_Some. by rewrite E.
Qed.

End IssueLines.

Lemma formatValidationIssues_verbatim_witness :
  configkit.formatValidationIssues
    (configkit.ExternalError "validator: (nil *db.Config)") Examples.dbConfig
  = issueLines "validator: (nil *db.Config)".
Proof.
  apply formatValidationIssues_verbatim.
  intros H%Index_is_Some. vm_compute in H. by destruct H.
Defined.

(** ** The unknown-key scan: the order of the entries, flat structs *)

Section ScanMore.
Import reflect configkit.
Context {caseTables : unicode.Tables}.

(** What the third loop of [findUnknownKeys] adds for one entry of the
    map. *)
Definition reportFor (fields : list StructField) (prefix ks : string)
    (v : dyn.value) : list string :=
  match allowedFields fields !! ks with
  | None => [joinPrefix prefix ks]
  | Some f =>
      match indirect (Type_ f) with
      | TStruct _ _ _ _ =>
          findUnknownKeys v (indirect (Type_ f)) (joinPrefix prefix ks)
      | _ => []
      end
  end.

Lemma fold_left_app_flat_map {A B : Type} (g : A -> list B) (l : list A) (acc : list B) :
  fold_left (fun acc x => acc ++ g x) l acc = acc ++ flat_map g l.
Proof.
  revert acc. induction l as [|x l IH]; intros acc; simpl.
  - by rewrite List.app_nil_r.
  - by rewrite IH, List.app_assoc.
Qed.

Lemma fold_left_pointwise {A B : Type} (f g : A -> B -> A) (l : list B) (a : A) :
  (forall a x, f a x = g a x) -> fold_left f l a = fold_left g l a.
Proof.
  intros H. revert a. induction l as [|x l IH]; intros a; simpl; [done|].
  by rewrite H, IH.
Qed.

Lemma foldr_pointwise {A B : Type} (f g : B -> A -> A) (l : list B) (a : A) :
  (forall x a, f x a = g x a) -> foldr f a l = foldr g a l.
Proof.
  intros H. induction l as [|x l IH]; simpl; [done|]. by rewrite H, IH.
Qed.

Lemma findUnknownKeys_VMapAny es t n p s fields prefix :
  indirect t = TStruct n p s fields ->
  findUnknownKeys (dyn.VMapAny es) t prefix
  = sort.Strings (flat_map (fun '(k, v) => reportFor fields prefix (dyn.Sprint k) v) es).
Proof.
  intros Ht. simpl. rewrite Ht. f_equal.
  rewrite <- (List.app_nil_l (flat_map _ es)).
  rewrite <- fold_left_app_flat_map. apply fold_left_pointwise.
  intros acc [k v]. unfold reportFor.
  destruct (allowedFields fields !! dyn.Sprint k) as [f|]; [|done].
  destruct (indirect (Type_ f)); by rewrite ?List.app_nil_r.
Qed.

Lemma foldr_app_flat_map {A B : Type} (g : A -> list B) (l : list A) :
  Permutation (foldr (fun x acc => acc ++ g x) [] l) (flat_map g l).
Proof.
  induction l as [|x l IH]; simpl; [done|].
  rewrite IH. apply Permutation_app_comm.
Qed.

Lemma findUnknownKeys_VMapStr (mm : gmap string dyn.value) t n p s fields prefix :
  indirect t = TStruct n p s fields ->
  findUnknownKeys (dyn.VMapStr mm) t prefix
  = sort.Strings
      (flat_map (fun '(k, v) => reportFor fields prefix k v) (map_to_list mm)).
Proof.
  intros Ht. simpl. rewrite Ht. apply Strings_Permutation_eq.
  rewrite map_fold_foldr.
  rewrite <- (foldr_app_flat_map (fun '(k, v) => reportFor fields prefix k v)).
  erewrite foldr_pointwise; [done|].
  intros [k v] acc. simpl. unfold reportFor.
  destruct (allowedFields fields !! k) as [f|]; [|done].
  destruct (indirect (Type_ f)); by rewrite ?List.app_nil_r.
Qed.

(** The scan does not depend on the order in which the entries of the map
    are visited, nor on which of the two map types holds them. *)
Theorem findUnknownKeys_order_independent (t : rtype) (prefix : string) :
  (forall es es', Permutation es es' ->
     findUnknownKeys (dyn.VMapAny es) t prefix
     = findUnknownKeys (dyn.VMapAny es') t prefix)
  /\ (forall mm : gmap string dyn.value,
        findUnknownKeys (dyn.VMapStr mm) t prefix
        = findUnknownKeys
            (dyn.VMapAny (map (fun '(k, v) => (dyn.SString k, v)) (map_to_list mm)))
            t prefix).
Proof.
  destruct (indirect t) as [e | n p s fields | k nm p s] eqn:Ht.
  1,3: split; intros; simpl; by rewrite Ht.
  split.
  - intros es es' Hp.
    rewrite !(findUnknownKeys_VMapAny _ t n p s fields) by done.
    apply Strings_Permutation_eq. by apply Permutation_flat_map.
  - intros mm.
    rewrite (findUnknownKeys_VMapStr _ t n p s fields) by done.
    rewrite (findUnknownKeys_VMapAny _ t n p s fields) by done.
    f_equal.
    rewrite (flat_map_concat_map _ (map _ _)), map_map, <- flat_map_concat_map.
    apply flat_map_ext. by intros [k v].
Qed.

(** For a struct none of whose allowed fields is a struct, the scan returns
    the keys of the map that are not allowed, each below the prefix, in
    sorted order, and nothing else. *)
Theorem findUnknownKeys_flat es t n p s fields prefix :
  indirect t = TStruct n p s fields ->
  (forall ks f, allowedFields fields !! ks = Some f ->
     Kind_of (indirect (Type_ f)) <> Struct) ->
  findUnknownKeys (dyn.VMapAny es) t prefix
  = sort.Strings
      (map (joinPrefix prefix)
         (List.filter (fun ks => bool_decide (allowedFields fields !! ks = None))
            (map (fun kv => dyn.Sprint (fst kv)) es))).
Proof.
  intros Ht Hflat. rewrite (findUnknownKeys_VMapAny _ t n p s fields) by done.
  f_equal. induction es as [|[k v] es IH]; simpl; [done|].
  rewrite IH. unfold reportFor.
  destruct (allowedFields fields !! dyn.Sprint k) as [f|] eqn:E; simpl; [|done].
  specialize (Hflat _ _ E). by destruct (indirect (Type_ f)).
Qed.

End ScanMore.

Lemma findUnknownKeys_flat_witness :
  let es := [(dyn.SString "host", dyn.VScalar (dyn.SString "localhost"));
             (dyn.SString "extra", dyn.VScalar (dyn.SBool true))] in
  let fields := [Examples.field "Host" "host" "required" Examples.tString;
                 Examples.field "Port" "port" "" Examples.tInt] in
  configkit.findUnknownKeys (dyn.VMapAny es) Examples.dbConfig "db"
  = sort.Strings
      (map (configkit.joinPrefix "db")
         (List.filter (fun ks => bool_decide (configkit.allowedFields fields !! ks = None))
            (map (fun kv => dyn.Sprint (fst kv)) es))).
Proof.
  intros es fields.
  refine (findUnknownKeys_flat es Examples.dbConfig "Config" "example.com/app/db"
            "db.Config" fields "db" eq_refl _).
  intros ks f Hf. apply elem_of_map_to_list in Hf. vm_compute in Hf.
  apply list_elem_of_In in Hf. simpl in Hf.
  destruct Hf as [[= <- <-] | [[= <- <-] | []]]; done.
Defined.


Lemma findUnknownKeys_order_independent_witness :
  configkit.findUnknownKeys
    (dyn.VMapAny [(dyn.SString "zeta", dyn.VScalar dyn.SNil);
                  (dyn.SString "alpha", dyn.VScalar dyn.SNil)])
    Examples.dbConfig ""
  = configkit.findUnknownKeys
      (dyn.VMapAny [(dyn.SString "alpha", dyn.VScalar dyn.SNil);
                    (dyn.SString "zeta", dyn.VScalar dyn.SNil)])
      Examples.dbConfig "".
Proof.
  apply (proj1 (findUnknownKeys_order_independent Examples.dbConfig "")).
  apply perm_swap.
Defined.


(** ** Check beside Requirements *)

Section CheckMore.
Import configkit.
Context {caseTables : unicode.Tables}.
Context {bound : Type}.
Variable Populate : string -> reflect.rtype -> bound + error.
Variable PopulateRaw : string -> dyn.value + error.
Variable validateStruct : reflect.rtype -> bound -> option error.

Lemma insert_map {A B : Type} (lessA : A -> A -> bool) (lessB : B -> B -> bool)
    (g : A -> B) (x : A) (l : list A) :
  (forall a b, lessA a b = lessB (g a) (g b)) ->
  map g (sort.insert lessA x l) = sort.insert lessB (g x) (map g l).
Proof.
  intros H. induction l as [|y l IH]; simpl; [done|].
  rewrite <- H. destruct (lessA y x); simpl; [by rewrite IH | done].
Qed.

Lemma SliceStable_map {A B : Type} (lessA : A -> A -> bool) (lessB : B -> B -> bool)
    (g : A -> B) (l : list A) :
  (forall a b, lessA a b = lessB (g a) (g b)) ->
  map g (sort.SliceStable lessA l) = sort.SliceStable lessB (map g l).
Proof.
  intros H. induction l as [|x l IH]; simpl; [done|].
  by rewrite (insert_map lessA lessB g), IH.
Qed.

(** The results of [Check] stand in the order of [Requirements()]: the
    i-th result has the key and the type name of the i-th requirement. *)
Theorem Check_follows_Requirements (st : Registry) :
  map (fun c => (CheckResult.Key c, CheckResult.Type_ c))
      (fst (Check Populate PopulateRaw validateStruct st))
  = map (fun r => (Requirement.Key r, Requirement.Type_ r))
        (fst (Requirements st)).
Proof.
  set (lessPair := fun a b : string * string =>
                     lessByKeyType (fst a) (snd a) (fst b) (snd b)).
  simpl.
  rewrite (SliceStable_map lessCheckResult lessPair) by done.
  rewrite (SliceStable_map lessRequirement lessPair) by done.
  f_equal. rewrite !map_map. apply map_ext. intros r.
  unfold checkEntry.
  by destruct (Populate _ _) as [v|]; [destruct (validateStruct _ v)|].
Qed.

End CheckMore.

(** ** Package [configkit]: config.go *)

Module providing.
Import reflect.

(** The errors [ProvideFromKey] wraps:
    [fmt.Errorf("config: could not populate key %q into %T: %w", key, cfg, err)]
    and
    [fmt.Errorf("config: validation failed for key %q (%T): %w", key, cfg, err)],
    with the key, the string form of [T] and the wrapped error. *)
Inductive provideError :=
| PopulateFailed (key typ : string) (cause : configkit.error)
| ValidationFailed (key typ : string) (cause : configkit.error).

(** The cause, as [errors.Unwrap] returns it. *)
Definition Unwrap (e : provideError) : configkit.error :=
  match e with
  | PopulateFailed _ _ cause => cause
  | ValidationFailed _ _ cause => cause
  end.

(** [registerRequirementFor[T]]: the type of the zero value of [T], or, when
    that value has no type ([T] an interface), the element type of [*T];
    both are [T]. *)
Definition registerRequirementFor (key : string) (T : rtype)
    (st : configkit.Registry) : configkit.Registry :=
  configkit.registerRequirementType key T st.

Section Provider.
Context {bound : Type}.
(** [provider.Get(key).Populate(&cfg)] for [cfg] of the type given. *)
Variable Populate : string -> rtype -> bound + configkit.error.
(** [validate.Struct(&cfg)]. *)
Variable validateStruct : rtype -> bound -> option configkit.error.

(** The function that [ProvideFromKey[T](key)] returns, called with the
    provider. *)
Definition provideFromKey (key : string) (T : rtype) : bound + provideError :=
  match Populate key T with
  | inr err => inr (PopulateFailed key (Type_String T) err)
  | inl cfg =>
      match validateStruct T cfg with
      | Some err => inr (ValidationFailed key (Type_String T) err)
      | None => inl cfg
      end
  end.

(** [ProvideFromKey[T](key)]: the requirement is registered when the
    provider function is built, not when it is called. *)
Definition ProvideFromKey (key : string) (T : rtype) (st : configkit.Registry)
    : (bound + provideError) * configkit.Registry :=
  (provideFromKey key T, registerRequirementFor key T st).

(** [Provide[T]()] is [ProvideFromKey[T](uber.Root)], and the root key is the
    empty string. *)
Definition Provide (T : rtype) (st : configkit.Registry)
    : (bound + provideError) * configkit.Registry :=
  ProvideFromKey "" T st.

End Provider.

End providing.

Section ProvideFacts.
Import reflect configkit providing.
Context {caseTables : unicode.Tables}.
Context {bound : Type}.
Variable Populate : string -> rtype -> bound + error.
Variable PopulateRaw : string -> dyn.value + error.
Variable validateStruct : rtype -> bound -> option error.

(** [Check] tells what [ProvideFromKey] will do: for a type [T] that is no
    pointer, registered by [ProvideFromKey[T](key)] in a registry without
    it, the entry is there for [Check], and the [Err] of its result is the
    cause with which the provider function fails, and is nil exactly when
    that function succeeds; a result that is [OK] means it succeeds. *)
Theorem Check_predicts_ProvideFromKey (key : string) (T : rtype) (st : Registry) :
  Kind_of T <> Ptr ->
  typeKey key T ∉ reqSeen st ->
  let provided := ProvideFromKey Populate validateStruct key T st in
  let entry := mkReqEntry key T T in
  let result := checkEntry Populate PopulateRaw validateStruct entry in
  reqs (snd provided) = reqs st ++ [entry]
  /\ (CheckResult.Err result = None <-> exists cfg, fst provided = inl cfg)
  /\ (forall cause, CheckResult.Err result = Some cause <->
        exists e, fst provided = inr e /\ Unwrap e = cause)
  /\ (CheckResult.OK result = true -> exists cfg, fst provided = inl cfg).
Proof.
  intros Hk Hfresh provided entry result.
  assert (HT : indirect T = T) by (by destruct T).
  assert (Herr : CheckResult.Err result
                 = match fst provided with inl _ => None | inr e => Some (Unwrap e) end).
  { unfold result, checkEntry, provided, ProvideFromKey, provideFromKey. simpl.
    destruct (Populate key T) as [cfg | err]; [|done].
    by destruct (validateStruct T cfg). }
  split; [|split; [|split]].
  - unfold provided, ProvideFromKey, registerRequirementFor. simpl.
    rewrite register_fresh by done. simpl. by rewrite HT.
  - rewrite Herr. destruct (fst provided) as [cfg | e]; split; try done; eauto.
    by intros [cfg ?].
  - intros cause. rewrite Herr. destruct (fst provided) as [cfg | e]; split.
    + done.
    + by intros (e & ? & _).
    + intros [= <-]. eauto.
    + by intros (e' & [= <-] & <-).
  - intros Hok. apply checkEntry_OK_elim in Hok as (_ & Hnone & _).
    unfold result in Herr. rewrite Herr in Hnone.
    destruct (fst provided) as [cfg | e]; [eauto | done].
Qed.

End ProvideFacts.

Lemma Check_predicts_ProvideFromKey_witness :
  exists e,
    fst (providing.ProvideFromKey Examples.portOnlyPopulate Examples.portOnlyValidate
           "db" Examples.dbConfig configkit.emptyRegistry) = inr e
    /\ providing.Unwrap e = configkit.ExternalError Examples.hostRequiredMessage.
Proof.
  apply (Check_predicts_ProvideFromKey Examples.portOnlyPopulate Examples.portOnlyRaw
           Examples.portOnlyValidate "db" Examples.dbConfig configkit.emptyRegistry).
  - discriminate.
  - simpl. set_solver.
  - reflexivity.
Defined.

(** ** The tree of Skeleton *)

Section TreeFacts.
Import configkit.
Context {caseTables : unicode.Tables}.

(** The value at the end of a path of the tree. *)
Fixpoint getPath (cur : gmap string any) (parts : list string) : option any :=
  match parts with
  | [] => None
  | [seg] => cur !! seg
  | seg :: rest =>
      match cur !! seg with
      | Some (ANode nxt) => getPath nxt rest
      | _ => None
      end
  end.

(** The path runs into a value that is no [node] before its last segment. *)
Fixpoint blocked (cur : gmap string any) (parts : list string) : Prop :=
  match parts with
  | [] => False
  | seg :: rest =>
      match rest with
      | [] => False
      | _ :: _ =>
          match cur !! seg with
          | Some (ANode nxt) => blocked nxt rest
          | Some _ => True
          | None => False
          end
      end
  end.

Lemma setPath_cons2 cur seg seg' rest ph :
  setPath cur (seg :: seg' :: rest) ph =
    let cur := match cur !! seg with
               | None => <[seg := ANode ∅]> cur
               | Some _ => cur
               end in
    match cur !! seg with
    | Some (ANode nxt) =>
        match setPath nxt (seg' :: rest) ph with
        | Some nxt' => Some (<[seg := ANode nxt']> cur)
        | None => None
        end
    | _ => None
    end.
Proof. reflexivity. Qed.

(** [setPath] fails, with the panic of a write to a nil map, exactly on a
    path that runs through a value that is no [node]: a placeholder set
    before, for one. *)
Theorem setPath_panics_iff_blocked (parts : list string) (ph : string) :
  forall cur, setPath cur parts ph = None <-> blocked cur parts.
Proof.
  induction parts as [|seg [|seg' rest] IH]; intros cur; [done..|].
  rewrite setPath_cons2. cbn [blocked].
  destruct (cur !! seg) as [[s | nxt | m]|] eqn:E; cbn zeta.
  - by rewrite E.
  - rewrite E. specialize (IH nxt).
    destruct (setPath nxt (seg' :: rest) ph); [|tauto].
    split; [done|]. intros H. by apply IH in H.
  - by rewrite E.
  - rewrite lookup_insert_eq. specialize (IH ∅).
    destruct (setPath ∅ (seg' :: rest) ph); [done|].
    exfalso. assert (Hb : blocked ∅ (seg' :: rest)) by by apply IH.
    destruct rest; simpl in Hb; [done|]. by rewrite lookup_empty in Hb.
Qed.

(** What [setPath] writes is found again at the end of the path, and the
    keys of the map other than the first segment keep their values. *)
Theorem setPath_getPath (parts : list string) (ph : string) :
  forall cur cur',
    setPath cur parts ph = Some cur' ->
    parts <> [] ->
    getPath cur' parts = Some (AString ph)
    /\ forall k, k <> List.hd "" parts -> cur' !! k = cur !! k.
Proof.
  induction parts as [|seg [|seg' rest] IH]; intros cur cur' Hset Hne; [done| |].
  - injection Hset as <-. split; [apply lookup_insert_eq|].
    intros k Hk. by apply lookup_insert_ne.
  - rewrite setPath_cons2 in Hset. cbn zeta in Hset.
    set (cur1 := match cur !! seg with
                 | None => <[seg := ANode ∅]> cur
                 | Some _ => cur
                 end) in *.
    assert (Hother : forall k, k <> seg -> cur1 !! k = cur !! k).
    { intros k Hk. unfold cur1. destruct (cur !! seg); [done|].
      by apply lookup_insert_ne. }
    destruct (cur1 !! seg) as [[s | nxt | m]|] eqn:E; try done.
    destruct (setPath nxt (seg' :: rest) ph) as [nxt'|] eqn:En; [|done].
    injection Hset as <-.
    destruct (IH nxt nxt' En) as [Hget _]; [done|].
    split.
    + change (getPath (<[seg:=ANode nxt']> cur1) (seg :: seg' :: rest))
        with (match <[seg:=ANode nxt']> cur1 !! seg with
              | Some (ANode nxt0) => getPath nxt0 (seg' :: rest)
              | _ => None
              end).
      by rewrite lookup_insert_eq.
    + intros k Hk. simpl in Hk. rewrite lookup_insert_ne by done. by apply Hother.
Qed.

End TreeFacts.

Lemma setPath_panics_iff_blocked_witness :
  configkit.setPath {[ "a" := configkit.AString "x" ]} ["a"; "b"] "y" = None.
Proof.
  apply setPath_panics_iff_blocked. simpl. by rewrite lookup_singleton_eq.
Defined.

Lemma setPath_getPath_witness :
  getPath (<["a" := configkit.ANode {[ "b" := configkit.AString "y" ]}]> ∅) ["a"; "b"]
  = Some (configkit.AString "y").
Proof.
  refine (proj1 (setPath_getPath ["a"; "b"] "y" ∅ _ _ _)); [|done].
  vm_compute. reflexivity.
Defined.

(** A leaf named [a] and a leaf named [a.b] in one struct: [Skeleton]
    panics. *)
Example Skeleton_panics_below_leaf :
  let T := reflect.TStruct "Odd" "example.com/app" "app.Odd"
             [Examples.field "A" "a" "" Examples.tString;
              Examples.field "AB" "a.b" "" Examples.tString] in
  fst (configkit.Skeleton (NestedExamples.requirementFor "odd" T)
         (NestedExamples.registryOf "odd" T)) = None.
Proof. vm_compute. reflexivity. Qed.

(** ** Skeleton of a flat type *)

Section FlatSkeleton.
Import configkit.
Context {caseTables : unicode.Tables}.

(** The placeholders by path, a later field replacing an earlier one of the
    same path; a field with the empty path has none. *)
Definition flatPlaceholders (specs : list FieldSpec.t) : gmap string string :=
  fold_left (fun m s =>
      if String.eqb (FieldSpec.Path s) "" then m
      else <[FieldSpec.Path s := placeholderFor s]> m)
    specs ∅.

(** One line of a skeleton. *)
Definition skeletonLine (indent : nat) (k ph : string) : string :=
  strings.Repeat " " indent +:+ k +:+ ": " +:+ ph +:+ String "010" EmptyString.

Definition skeletonLines (flat : gmap string string) (indent : nat) : string :=
  strings.Join
    (map (fun k => skeletonLine indent k (default "" (flat !! k))) (sortedKeys flat))
    "".

Lemma Split_dotless (s : string) : dotless s = true -> strings.Split s "." = [s].
Proof.
  induction s as [|c s IH]; [done|]. simpl.
  intros [Hc Hs]%andb_true_iff. apply negb_true_iff in Hc. rewrite Hc.
  by rewrite IH.
Qed.

Lemma buildTree_flat_from (specs : list FieldSpec.t) (m : gmap string string) :
  List.Forall (fun s => dotless (FieldSpec.Path s) = true) specs ->
  fold_left (fun root s =>
      match root with
      | None => None
      | Some root =>
          if String.eqb (FieldSpec.Path s) "" then Some root
          else setPath root (strings.Split (FieldSpec.Path s) ".") (placeholderFor s)
      end)
    specs (Some (AString <$> m))
  = Some (AString <$> fold_left (fun m s =>
            if String.eqb (FieldSpec.Path s) "" then m
            else <[FieldSpec.Path s := placeholderFor s]> m) specs m).
Proof.
  intros Hall. revert m. induction Hall as [|s specs Hs _ IH]; intros m; [done|].
  cbn [fold_left]. destruct (String.eqb (FieldSpec.Path s) ""); [apply IH|].
  rewrite Split_dotless by done. cbn [setPath].
  rewrite <- fmap_insert. apply IH.
Qed.

Lemma buildTree_flat (specs : list FieldSpec.t) :
  List.Forall (fun s => dotless (FieldSpec.Path s) = true) specs ->
  buildTree specs = Some (AString <$> flatPlaceholders specs).
Proof.
  intros Hall. unfold buildTree, flatPlaceholders.
  rewrite <- (fmap_empty AString). by apply buildTree_flat_from.
Qed.

Lemma sortedKeys_same_keys {V W : Type} (m1 : gmap string V) (m2 : gmap string W) :
  (forall k, is_Some (m1 !! k) <-> is_Some (m2 !! k)) ->
  sortedKeys m1 = sortedKeys m2.
Proof.
  intros Hk. unfold sortedKeys. apply Strings_Permutation_eq.
  apply NoDup_Permutation; [apply NoDup_fst_map_to_list..|].
  intros k.
  assert (Hin : forall (U : Type) (m : gmap string U),
            k ∈ map fst (map_to_list m) <-> is_Some (m !! k)).
  { intros U m. split.
    - intros ([k' v] & <- & Hkv%list_elem_of_In%elem_of_map_to_list)%list_elem_of_In%in_map_iff.
      by exists v.
    - intros [v Hv]. apply list_elem_of_In, in_map_iff. exists (k, v).
      split; [done|]. by apply list_elem_of_In, elem_of_map_to_list. }
  by rewrite !Hin.
Qed.

Lemma sortedKeys_lookup {V : Type} (m : gmap string V) (k : string) :
  k ∈ sortedKeys m <-> is_Some (m !! k).
Proof.
  unfold sortedKeys. rewrite Strings_Permutation. split.
  - intros ([k' v] & <- & Hkv%list_elem_of_In%elem_of_map_to_list)%list_elem_of_In%in_map_iff.
    by exists v.
  - intros [v Hv]. apply list_elem_of_In, in_map_iff. exists (k, v).
    split; [done|]. by apply list_elem_of_In, elem_of_map_to_list.
Qed.

Lemma renderNode_flat (flat : gmap string string) (indent : nat) :
  renderNode (AString <$> flat) indent = skeletonLines flat indent.
Proof.
  unfold renderNode, skeletonLines, inKeyOrder. f_equal.
  erewrite (sortedKeys_same_keys _ flat).
  2:{ intros k. rewrite map_lookup_imap, lookup_fmap.
      destruct (flat !! k); simpl; split; intros [? ?]; by eauto. }
  apply map_ext_in. intros k Hk%list_elem_of_In%sortedKeys_lookup.
  destruct Hk as [ph Hph].
  by rewrite map_lookup_imap, lookup_fmap, Hph.
Qed.

Lemma find_snoc {A : Type} (f : A -> bool) (l : list A) (x : A) :
  List.find f (l ++ [x])
  = match List.find f l with
    | Some y => Some y
    | None => if f x then Some x else None
    end.
Proof.
  induction l as [|y l IH]; simpl; [done|].
  by destruct (f y).
Qed.

Lemma flatPlaceholders_lookup (specs : list FieldSpec.t) (m : gmap string string) k :
  fold_left (fun m s =>
      if String.eqb (FieldSpec.Path s) "" then m
      else <[FieldSpec.Path s := placeholderFor s]> m) specs m !! k
  = match List.find (fun s => String.eqb (FieldSpec.Path s) k) (rev specs) with
    | Some s => if String.eqb k "" then m !! k else Some (placeholderFor s)
    | None => m !! k
    end.
Proof.
  revert m. induction specs as [|s specs IH]; intros m; [done|].
  cbn [fold_left rev]. rewrite IH, find_snoc.
  destruct (List.find _ (rev specs)) as [s'|]; simpl.
  - destruct (String.eqb_spec k "") as [-> | Hk]; [|done].
    destruct (String.eqb_spec (FieldSpec.Path s) ""); [done|].
    by rewrite lookup_insert_ne.
  - destruct (String.eqb_spec (FieldSpec.Path s) k) as [<- | Hne].
    + destruct (String.eqb_spec (FieldSpec.Path s) ""); [done|].
      by rewrite lookup_insert_eq.
    + destruct (String.eqb_spec (FieldSpec.Path s) ""); [done|].
      by rewrite lookup_insert_ne.
Qed.

(** For a requirement none of whose paths has a dot, [Skeleton] does not
    panic and renders one line [path: placeholder] for every path that is
    not empty, in the sorted order of the paths, indented by two spaces
    below the line of the key, or not indented for the root key; the
    placeholder of a path is that of the last field with it. *)
Theorem Skeleton_flat (req : Requirement.t) (st : Registry)
    (specs : list FieldSpec.t) :
  fst (Spec req st) = inl specs ->
  List.Forall (fun s => dotless (FieldSpec.Path s) = true) specs ->
  let flat := flatPlaceholders specs in
  fst (Skeleton req st)
  = Some (inl (if String.eqb (Requirement.Key req) "" then skeletonLines flat 0
               else Requirement.Key req +:+ (":" +:+ String "010" EmptyString)
                      +:+ skeletonLines flat 2))
  /\ (forall k, k ∈ sortedKeys flat <->
        k <> "" /\ exists s, s ∈ specs /\ FieldSpec.Path s = k)
  /\ (forall k, k <> "" ->
        flat !! k
        = placeholderFor
            <$> List.find (fun s => String.eqb (FieldSpec.Path s) k) (rev specs)).
Proof.
  intros Hspec Hall flat.
  assert (Hlookup : forall k, k <> "" ->
    flat !! k
    = placeholderFor <$> List.find (fun s => String.eqb (FieldSpec.Path s) k) (rev specs)).
  { intros k Hk. unfold flat, flatPlaceholders. rewrite flatPlaceholders_lookup.
    destruct (List.find _ (rev specs)); simpl; [|done].
    by destruct (String.eqb_spec k ""). }
  split; [|split; [|done]].
  - unfold Skeleton. rewrite Hspec, buildTree_flat by done.
    rewrite !renderNode_flat. by destruct (String.eqb (Requirement.Key req) "").
  - intros k. rewrite sortedKeys_lookup. split.
    + intros [ph Hph]. destruct (String.eqb_spec k "") as [-> | Hk].
      * unfold flat, flatPlaceholders in Hph. rewrite flatPlaceholders_lookup in Hph.
        by destruct (List.find _ (rev specs)).
      * split; [done|]. rewrite Hlookup in Hph by done.
        destruct (List.find _ (rev specs)) as [s|] eqn:E; [|done].
        apply find_some in E as [Hin <-%String.eqb_eq].
        exists s. split; [|done]. by apply list_elem_of_In, in_rev.
    + intros (Hk & s & Hs & <-). rewrite Hlookup by done.
      destruct (find_is_Some (fun s0 => String.eqb (FieldSpec.Path s0) (FieldSpec.Path s))
                  (rev specs) s) as [s' ->].
      * by apply list_elem_of_In, in_rev; rewrite rev_involutive; apply list_elem_of_In.
      * apply String.eqb_refl.
      * by eexists.
Qed.

End FlatSkeleton.

Lemma Skeleton_flat_witness :
  fst (configkit.Skeleton Examples.dbRequirement Examples.dbRegistry)
  = Some (inl ("db" +:+ (":" +:+ String "010" EmptyString)
               +:+ skeletonLines
                     (flatPlaceholders
                        [configkit.FieldSpec.mk "host" "string" true;
                         configkit.FieldSpec.mk "port" "int" false]) 2)).
Proof.
  refine (proj1 (Skeleton_flat Examples.dbRequirement Examples.dbRegistry
                   [configkit.FieldSpec.mk "host" "string" true;
                    configkit.FieldSpec.mk "port" "int" false] _ _)).
  - vm_compute. reflexivity.
  - by repeat constructor.
Defined.

(** ** Command [stackctl]: main.go *)

Module stackctl.
Import dyn reflect configkit.

(** [normalizeForPrint]: the copy of [configkit.normalize] in the command,
    with [fmt.Sprint] for the keys. *)
Fixpoint normalizeForPrint (v : value) : value :=
  match v with
  | VMapAny es =>
      VMapStr
        (fold_left (fun out '(k, val) => <[Sprint k := normalizeForPrint val]> out) es ∅)
  | VMapStr m => VMapStr (normalizeForPrint <$> m)
  | VSeq l => VSeq (normalizeForPrint <$> l)
  | _ => v
  end.

Definition formatPath (key path : string) : string :=
  if String.eqb path "" then key else key +:+ "." +:+ path.

Module configCheckOptions.
Record t := mk { key : string; all : bool; cfgRef : string }.
End configCheckOptions.

(** The errors [runConfigCheck] returns, by where they come from: one the
    command makes itself with [fmt.Errorf], an [*exitError], or an error
    value that [loadProvider] or the writer returned and that is handed on
    as it is, whatever made it ([configkit.NewYAML] makes its own with
    [fmt.Errorf] too). *)
Inductive cliError :=
| Errorf (msg : string)
| exitError (code : Z)
| Other (e : error).

Definition validateCheckArgs (opts : configCheckOptions.t) : option cliError :=
  if configCheckOptions.all opts then None
  else if String.eqb (configCheckOptions.key opts) ""
  then Some (Errorf "--key is required unless --all is set")
  else None.

Definition collectKeys (single : string) (all : bool)
    (knownTypes : known.Registry) : list string + cliError :=
  if all then
    let keys := sort.Strings (map Requirement.Key (known.Known knownTypes)) in
    if Nat.eqb (List.length keys) 0
    then inr (Errorf "--all requested but no known configuration keys registered")
    else inl keys
  else inl [single].

(** A [for ... range] whose body may return an error: the loop stops at
    the first error, with the state the body left. *)
Fixpoint forEach {A S : Type} (body : S -> A -> S * option error)
    (items : list A) (s : S) : S * option error :=
  match items with
  | [] => (s, None)
  | x :: rest =>
      match body s x with
      | (s', Some e) => (s', Some e)
      | (s', None) => forEach body rest s'
      end
  end.

Section Run.
Context {caseTables : unicode.Tables}.
(** What the command is given from outside: the output of the command with
    [fmt.Fprintf] on it (the text is the formatted one), the provider that
    [loadProvider] builds from the files and the environment, and, as for
    [configkit.Check], the provider's [Populate] and the shared validator. *)
Context {W P bound : Type}.
Variable writef : W -> string -> W * option error.
Variable loadProvider : string -> P + error.
Variable Populate : P -> string -> rtype -> bound + error.
Variable PopulateRaw : P -> string -> value + error.
Variable validateStruct : rtype -> bound -> option error.

Definition nl : string := String "010" EmptyString.

(** The loop that registers the requirements of the selected keys. *)
Definition registerSelected (keys : list string) (knownTypes : known.Registry)
    (st : Registry) : Registry :=
  fold_left (fun st k =>
      match known.KnownType k knownTypes with
      | Some t => RegisterRequirementType k (Some t) st
      | None => st
      end)
    keys st.

(** The body of the loop over the results; the state is the output and
    [exitCode]. *)
Definition reportResult (selected : gset string) (s : W * Z) (r : CheckResult.t)
    : (W * Z) * option error :=
  if negb (bool_decide (CheckResult.Key r ∈ selected)) then (s, None)
  else if CheckResult.OK r then
    let '(out, e) := writef (fst s) ("[OK] " +:+ CheckResult.Key r +:+ nl) in
    ((out, snd s), e)
  else
    match
      forEach (fun s issue =>
          match writef (fst s)
                  ("[ERROR] " +:+ formatPath (CheckResult.Key r) "" +:+ ": "
                     +:+ issue +:+ nl) with
          | (out, Some e) => ((out, snd s), Some e)
          | (out, None) => ((out, 1%Z), None)
          end)
        (CheckResult.Issues r) s
    with
    | (s, Some e) => (s, Some e)
    | (s, None) =>
        match
          forEach (fun s unk =>
              let '(out, e) :=
                writef (fst s)
                  ("[WARN] " +:+ CheckResult.Key r +:+ ": unknown key " +:+ unk +:+ nl) in
              ((out, snd s), e))
            (CheckResult.Unknown r) s
        with
        | (s, Some e) => (s, Some e)
        | (s, None) =>
            match CheckResult.Err r with
            | Some err =>
                if Nat.eqb (List.length (CheckResult.Issues r)) 0 then
                  match writef (fst s)
                          ("[ERROR] " +:+ CheckResult.Key r +:+ ": " +:+ Error err +:+ nl) with
                  | (out, Some e) => ((out, snd s), Some e)
                  | (out, None) => ((out, 1%Z), None)
                  end
                else (s, None)
            | None => (s, None)
            end
        end
    end.

(** [runConfigCheck]: the error returned, the registry and the output. *)
Definition runConfigCheck (opts : configCheckOptions.t)
    (knownTypes : known.Registry) (st : Registry) (out : W)
    : option cliError * Registry * W :=
  match validateCheckArgs opts with
  | Some err => (Some err, st, out)
  | None =>
      match collectKeys (configCheckOptions.key opts) (configCheckOptions.all opts)
              knownTypes with
      | inr err => (Some err, st, out)
      | inl keys =>
          let st := registerSelected keys knownTypes st in
          match loadProvider (configCheckOptions.cfgRef opts) with
          | inr err => (Some (Other err), st, out)
          | inl provider =>
              let '(results, st) :=
                Check (Populate provider) (PopulateRaw provider) validateStruct st in
              let selected : gset string := list_to_set keys in
              match forEach (reportResult selected) results (out, 0%Z) with
              | ((out, _), Some err) => (Some (Other err), st, out)
              | ((out, exitCode), None) =>
                  if negb (Z.eqb exitCode 0)
                  then (Some (exitError exitCode), st, out)
                  else (None, st, out)
              end
          end
      end
  end.

End Run.

End stackctl.

Section StackctlFacts.
Import dyn reflect configkit stackctl.
Context {caseTables : unicode.Tables}.

Lemma fold_left_ext_in {A B : Type} (f g : A -> B -> A) (l : list B) (a : A) :
  (forall a x, List.In x l -> f a x = g a x) -> fold_left f l a = fold_left g l a.
Proof.
  revert a. induction l as [|x l IH]; intros a H; simpl; [done|].
  rewrite H by (by left). apply IH. intros a' y Hy. apply H. by right.
Qed.

Lemma asString_Sprint (k : scalar) : asString k = Sprint k.
Proof. by destruct k. Qed.

(** The command's own [normalizeForPrint] computes what [configkit]'s
    [normalize] computes, on every value: [--show-secrets] changes the
    masking and nothing else. *)
Theorem normalizeForPrint_is_normalize (v : value) :
  normalizeForPrint v = normalize v.
Proof.
  induction v as [x | es IH | m IH | l IH] using value_ind'; simpl.
  - done.
  - f_equal. apply fold_left_ext_in. intros out [k x] Hin.
    by rewrite asString_Sprint, (IH k x Hin).
  - f_equal. apply map_eq. intros k. rewrite !lookup_fmap.
    destruct (m !! k) as [x|] eqn:E; simpl; [|done]. f_equal. by eapply IH.
  - f_equal. apply map_ext_in. intros x Hx. by apply IH.
Qed.

Context {W P bound : Type}.
Variable writef : W -> string -> W * option error.
Variable loadProvider : string -> P + error.
Variable Populate : P -> string -> rtype -> bound + error.
Variable PopulateRaw : P -> string -> value + error.
Variable validateStruct : rtype -> bound -> option error.

(** The requirement cannot be populated from the provider, or the
    validator rejects the populated value. *)
Definition fails (p : P) (r : reqEntry) : bool :=
  match Populate p (key r) (base r) with
  | inr _ => true
  | inl v =>
      match validateStruct (base r) v with
      | Some _ => true
      | None => false
      end
  end.

(** The results that set the exit code. *)
Definition setsExitCode (selected : gset string) (r : CheckResult.t) : bool :=
  bool_decide (CheckResult.Key r ∈ selected)
  && negb (CheckResult.OK r)
  && (negb (Nat.eqb (List.length (CheckResult.Issues r)) 0)
      || match CheckResult.Err r with Some _ => true | None => false end).

Lemma forEach_skip {A S : Type} (body : S -> A -> S * option error)
    (items : list A) (s : S) :
  (forall x, x ∈ items -> body s x = (s, None)) ->
  forEach body items s = (s, None).
Proof.
  induction items as [|x items IH]; intros H; simpl; [done|].
  rewrite H by (by left). apply IH. intros y Hy. apply H. by right.
Qed.

Section GoodWrites.
Hypothesis writes : forall w s, snd (writef w s) = None.

Lemma issues_loop (fmt : string -> string) (items : list string) (s : W * Z) :
  exists w,
    forEach (fun s issue =>
        match writef (fst s) (fmt issue) with
        | (out, Some e) => ((out, snd s), Some e)
        | (out, None) => ((out, 1%Z), None)
        end) items s
    = ((w, match items with [] => snd s | _ :: _ => 1%Z end), None).
Proof.
  revert s. induction items as [|x items IH]; intros [w c]; simpl; [by eexists|].
  pose proof (writes w (fmt x)) as Hw.
  destruct (writef w (fmt x)) as [w' [e|]]; [done|].
  destruct (IH (w', 1%Z)) as [w'' ->]. exists w''. by destruct items.
Qed.

Lemma unknown_loop (fmt : string -> string) (items : list string) (s : W * Z) :
  exists w,
    forEach (fun s unk =>
        let '(out, e) := writef (fst s) (fmt unk) in ((out, snd s), e)) items s
    = ((w, snd s), None).
Proof.
  revert s. induction items as [|x items IH]; intros [w c]; simpl; [by eexists|].
  pose proof (writes w (fmt x)) as Hw.
  destruct (writef w (fmt x)) as [w' [e|]]; [done|].
  apply (IH (w', c)).
Qed.

Lemma reportResult_code (selected : gset string) (s : W * Z) (r : CheckResult.t) :
  exists w,
    reportResult writef selected s r
    = ((w, if setsExitCode selected r then 1%Z else snd s), None).
Proof.
  unfold reportResult, setsExitCode. destruct s as [w c].
  destruct (bool_decide (CheckResult.Key r ∈ selected)); simpl; [|by eexists].
  destruct (CheckResult.OK r); simpl.
  { pose proof (writes w ("[OK] " +:+ CheckResult.Key r +:+ nl)) as Hw.
    destruct (writef w _) as [w' [e|]]; [done|]. by eexists. }
  destruct (issues_loop
              (fun issue => "[ERROR] " +:+ formatPath (CheckResult.Key r) "" +:+ ": "
                              +:+ issue +:+ nl)
              (CheckResult.Issues r) (w, c)) as [w1 H1].
  cbn [snd] in H1. rewrite H1. clear H1.
  destruct (unknown_loop
              (fun unk => "[WARN] " +:+ CheckResult.Key r +:+ ": unknown key "
                            +:+ unk +:+ nl)
              (CheckResult.Unknown r)
              (w1, match CheckResult.Issues r with [] => c | _ :: _ => 1%Z end))
    as [w2 ->].
  cbn [fst snd].
  destruct (CheckResult.Err r) as [err|], (CheckResult.Issues r) as [|i rest];
    simpl; try by eexists.
  pose proof (writes w2 ("[ERROR] " +:+ CheckResult.Key r +:+ ": " +:+ Error err +:+ nl))
    as Hw.
  destruct (writef w2 _) as [w' [e|]]; [done|]. by eexists.
Qed.

Lemma report_loop_code (selected : gset string) (results : list CheckResult.t)
    (s : W * Z) :
  exists w,
    forEach (reportResult writef selected) results s
    = ((w, if existsb (setsExitCode selected) results then 1%Z else snd s), None).
Proof.
  revert s. induction results as [|r results IH]; intros s; simpl.
  { exists (fst s). by destruct s. }
  destruct (reportResult_code selected s r) as [w ->].
  destruct (IH (w, if setsExitCode selected r then 1%Z else snd s)) as [w' ->].
  exists w'. cbn [snd]. by destruct (setsExitCode selected r), (existsb _ results).
Qed.

End GoodWrites.

Lemma existsb_Permutation {A : Type} (f : A -> bool) (l l' : list A) :
  Permutation l l' -> existsb f l = existsb f l'.
Proof.
  induction 1 as [|x l l' _ IH|x y l|l l' l'' _ IH1 _ IH2]; simpl.
  - done.
  - by rewrite IH.
  - by destruct (f x), (f y).
  - by rewrite IH1.
Qed.

Lemma setsExitCode_checkEntry (p : P) (selected : gset string) (r : reqEntry) :
  setsExitCode selected (checkEntry (Populate p) (PopulateRaw p) validateStruct r)
  = bool_decide (key r ∈ selected) && fails p r.
Proof.
  unfold setsExitCode, checkEntry, fails.
  destruct (Populate p (key r) (base r)) as [v | e]; simpl.
  - destruct (validateStruct (base r) v) as [verr|]; simpl.
    + by rewrite orb_true_r, !andb_true_r.
    + by rewrite !andb_false_r.
  - by rewrite !andb_true_r.
Qed.

(** When the arguments are accepted, the provider loads and the output
    takes every write, [runConfigCheck] returns the exit code 1 exactly
    when a registered requirement of a selected key cannot be populated or
    is rejected by the validator, and no error otherwise: unknown keys are
    warned about and never change the status. The registry it leaves is
    the one after registering the known types of the selected keys. *)
Theorem runConfigCheck_exit_status (opts : configCheckOptions.t)
    (knownTypes : known.Registry) (st : Registry) (out : W)
    (keys : list string) (p : P) :
  (forall w s, snd (writef w s) = None) ->
  validateCheckArgs opts = None ->
  collectKeys (configCheckOptions.key opts) (configCheckOptions.all opts) knownTypes
    = inl keys ->
  loadProvider (configCheckOptions.cfgRef opts) = inl p ->
  let st' := registerSelected keys knownTypes st in
  fst (runConfigCheck writef loadProvider Populate PopulateRaw validateStruct
         opts knownTypes st out)
  = (if existsb (fun r => bool_decide (key r ∈ keys) && fails p r) (reqs st')
     then Some (exitError 1) else None,
     st').
Proof.
  intros Hw Hargs Hkeys Hload st'. unfold runConfigCheck.
  rewrite Hargs, Hkeys, Hload. fold st'. unfold Check.
  destruct (report_loop_code Hw (list_to_set keys)
              (sort.SliceStable lessCheckResult
                 (map (checkEntry (Populate p) (PopulateRaw p) validateStruct) (reqs st')))
              (out, 0%Z)) as [w ->].
  cbn [snd].
  rewrite (existsb_Permutation _ _ _ (SliceStable_Permutation _ _)).
  assert (E : existsb (setsExitCode (list_to_set keys))
                (map (checkEntry (Populate p) (PopulateRaw p) validateStruct) (reqs st'))
              = existsb (fun r => bool_decide (key r ∈ keys) && fails p r) (reqs st')).
  { induction (reqs st') as [|r l IH]; simpl; [done|].
    rewrite IH, setsExitCode_checkEntry. f_equal. f_equal.
    apply bool_decide_ext. by rewrite elem_of_list_to_set. }
  rewrite E. by destruct (existsb _ (reqs st')).
Qed.

(** Checking one key that no module made known and no requirement was
    registered for passes in silence: nothing is written and nothing is
    registered; the error returned is that of loading the provider, and
    none when the provider loads. *)
Theorem runConfigCheck_unregistered_key (opts : configCheckOptions.t)
    (knownTypes : known.Registry) (st : Registry) (out : W) :
  configCheckOptions.all opts = false ->
  configCheckOptions.key opts <> "" ->
  known.KnownType (configCheckOptions.key opts) knownTypes = None ->
  (forall r, r ∈ reqs st -> key r <> configCheckOptions.key opts) ->
  runConfigCheck writef loadProvider Populate PopulateRaw validateStruct
    opts knownTypes st out
  = (match loadProvider (configCheckOptions.cfgRef opts) with
     | inl _ => None
     | inr err => Some (Other err)
     end, st, out).
Proof.
  intros Hall Hkey Hknown Hreqs.
  unfold runConfigCheck, validateCheckArgs, collectKeys. rewrite Hall.
  destruct (String.eqb_spec (configCheckOptions.key opts) ""); [done|].
  unfold registerSelected. cbn [fold_left]. rewrite Hknown.
  destruct (loadProvider (configCheckOptions.cfgRef opts)) as [p | err]; [|done].
  unfold Check.
  rewrite forEach_skip; [done|].
  intros c Hc. unfold reportResult.
  rewrite bool_decide_eq_false_2; [done|].
  rewrite elem_of_list_to_set, list_elem_of_singleton.
  apply list_elem_of_In in Hc.
  apply (Permutation_in _ (SliceStable_Permutation _ _)) in Hc.
  apply in_map_iff in Hc as (r & <- & Hr%list_elem_of_In).
  intros H. apply (Hreqs r Hr). rewrite <- H. unfold checkEntry.
  destruct (Populate p (key r) (base r)) as [v|]; [|done].
  by destruct (validateStruct (base r) v).
Qed.

(** [runConfigCheck] rejects, before anything is registered, loaded or
    written, the arguments with neither [--all] nor a key, and [--all] when
    no module made a key known, each with its own message. Otherwise the
    keys it goes on with are the one key given or, with [--all], every
    known key once, in sorted order. *)
Theorem runConfigCheck_rejected_arguments (opts : configCheckOptions.t)
    (knownTypes : known.Registry) (st : Registry) (out : W) :
  let run :=
    runConfigCheck writef loadProvider Populate PopulateRaw validateStruct
      opts knownTypes st out in
  let keys :=
    collectKeys (configCheckOptions.key opts) (configCheckOptions.all opts)
      knownTypes in
  (configCheckOptions.all opts = false -> configCheckOptions.key opts = "" ->
   run = (Some (Errorf "--key is required unless --all is set"), st, out))
  /\ (configCheckOptions.all opts = true -> knownTypes = ∅ ->
      run = (Some (Errorf "--all requested but no known configuration keys registered"),
             st, out))
  /\ (configCheckOptions.all opts = false -> configCheckOptions.key opts <> "" ->
      validateCheckArgs opts = None /\ keys = inl [configCheckOptions.key opts])
  /\ (configCheckOptions.all opts = true -> knownTypes <> ∅ ->
      validateCheckArgs opts = None /\ keys = inl (sortedKeys knownTypes)).
Proof.
  intros run keys. subst run keys.
  unfold runConfigCheck, validateCheckArgs, collectKeys.
  assert (Hkeys : sort.Strings (map Requirement.Key (known.Known knownTypes))
                  = sortedKeys knownTypes).
  { unfold sortedKeys. apply Strings_Permutation_eq.
    rewrite <- knownEntries_keys. apply Permutation_map, Known_Permutation. }
  assert (Hlen : Nat.eqb (List.length (sortedKeys knownTypes)) 0 = true
                 <-> knownTypes = ∅).
  { unfold sortedKeys, sort.Strings.
    rewrite Nat.eqb_eq, SliceStable_length, length_map.
    rewrite (length_map_to_list (M := gmap string) (A := rtype) knownTypes).
    apply (map_size_empty_iff (M := gmap string) (A := rtype)). }
  rewrite Hkeys.
  split; [|split; [|split]].
  - intros -> ->. done.
  - intros -> Hempty. apply Hlen in Hempty. by rewrite Hempty.
  - intros -> Hkey. by destruct (String.eqb_spec (configCheckOptions.key opts) "").
  - intros -> Hne. split; [done|].
    destruct (Nat.eqb _ 0) eqn:E; [|done]. destruct Hne. by apply Hlen.
Qed.

End StackctlFacts.

(** The command on the example provider, writing to a buffer. *)
Module CliExample.
Import reflect.

Definition write (w : list string) (s : string)
    : list string * option configkit.error :=
  (w ++ [s], None).

Definition load (_ : string) : unit + configkit.error := inl ().

Definition knownDb : known.Registry :=
  known.RegisterKnown "db" (Some (TPtr Examples.dbConfig)) ∅.

Definition run (validate : rtype -> unit -> option configkit.error)
    (key : string) (st : configkit.Registry) :=
  stackctl.runConfigCheck write load
    (fun _ => Examples.portOnlyPopulate) (fun _ => Examples.portOnlyRaw) validate
    (stackctl.configCheckOptions.mk key false "") knownDb st [].

End CliExample.

Lemma runConfigCheck_exit_status_witness :
  fst (CliExample.run Examples.portOnlyValidate "db" configkit.emptyRegistry)
  = (Some (stackctl.exitError 1), Examples.dbRegistry).
Proof.
  etrans.
  - apply (runConfigCheck_exit_status CliExample.write CliExample.load
             (fun _ => Examples.portOnlyPopulate) (fun _ => Examples.portOnlyRaw)
             Examples.portOnlyValidate
             (stackctl.configCheckOptions.mk "db" false "")
             CliExample.knownDb configkit.emptyRegistry [] ["db"] ());
      reflexivity.
  - vm_compute. reflexivity.
Defined.

Lemma runConfigCheck_unregistered_key_witness :
  CliExample.run Examples.portOnlyValidate "cache" Examples.dbRegistry
  = (None, Examples.dbRegistry, []).
Proof.
  apply (runConfigCheck_unregistered_key CliExample.write CliExample.load
           (fun _ => Examples.portOnlyPopulate) (fun _ => Examples.portOnlyRaw)
           Examples.portOnlyValidate
           (stackctl.configCheckOptions.mk "cache" false "")
           CliExample.knownDb Examples.dbRegistry []).
  - reflexivity.
  - discriminate.
  - vm_compute. reflexivity.
  - intros r Hr. apply list_elem_of_singleton in Hr as ->. discriminate.
Defined.

Lemma runConfigCheck_rejected_arguments_witness :
  CliExample.run Examples.portOnlyValidate "" Examples.dbRegistry
  = (Some (stackctl.Errorf "--key is required unless --all is set"),
     Examples.dbRegistry, []).
Proof.
  apply (proj1 (runConfigCheck_rejected_arguments CliExample.write CliExample.load
                  (fun _ => Examples.portOnlyPopulate) (fun _ => Examples.portOnlyRaw)
                  Examples.portOnlyValidate
                  (stackctl.configCheckOptions.mk "" false "")
                  CliExample.knownDb Examples.dbRegistry [])); reflexivity.
Defined.

(** The lines of the command for the document without the host, and for
    the document that passes. *)
Example runConfigCheck_missing_required :
  CliExample.run Examples.portOnlyValidate "db" configkit.emptyRegistry
  = (Some (stackctl.exitError 1), Examples.dbRegistry,
     ["[ERROR] db: host: required" +:+ String "010" EmptyString]).
Proof. vm_compute. reflexivity. Qed.

Example runConfigCheck_pass :
  stackctl.runConfigCheck CliExample.write CliExample.load
    (fun _ => Examples.portOnlyPopulate) (fun _ => PassExample.raw)
    PassExample.validate
    (stackctl.configCheckOptions.mk "db" false "") CliExample.knownDb
    configkit.emptyRegistry []
  = (None, Examples.dbRegistry, ["[OK] db" +:+ String "010" EmptyString]).
Proof. vm_compute. reflexivity. Qed.

(** ** More on Redact *)

Section RedactMore.
Import dyn configkit.
Context {caseTables : unicode.Tables}.

Lemma normalize_entries_NodeShaped (es : list (scalar * value))
    (out : gmap string value) :
  (forall k x, List.In (k, x) es -> NodeShaped (normalize x)) ->
  (forall k x, out !! k = Some x -> NodeShaped x) ->
  forall k x,
    fold_left (fun out '(k, val) => <[asString k := normalize val]> out) es out !! k
      = Some x ->
    NodeShaped x.
Proof.
  revert out. induction es as [|[k0 x0] es IH]; intros out Hes Hout; [done|].
  cbn [fold_left]. apply IH.
  - intros k x Hin. eapply Hes. by right.
  - intros k x. rewrite lookup_insert. case_decide as E.
    + intros [= <-]. eapply Hes. by left.
    + apply Hout.
Qed.

Lemma normalize_is_NodeShaped (v : value) : NodeShaped (normalize v).
Proof.
  induction v as [x | es IH | m IH | l IH] using value_ind'; simpl.
  - constructor.
  - constructor. apply normalize_entries_NodeShaped; [done|].
    intros k x. by rewrite lookup_empty.
  - constructor. intros k x. rewrite lookup_fmap.
    destruct (m !! k) as [y|] eqn:E; simpl; [|done].
    intros [= <-]. by eapply IH.
  - constructor. apply List.Forall_forall. intros x (y & <- & Hy)%in_map_iff.
    by apply IH.
Qed.

Lemma redact_keeps_NodeShaped (v : value) : NodeShaped v -> NodeShaped (redact v).
Proof.
  induction v as [x | es _ | m IH | l IH] using value_ind'; simpl; intros H.
  - done.
  - done.
  - inversion_clear H as [| |? Hm]. constructor. intros k x.
    rewrite map_lookup_imap. destruct (m !! k) as [y|] eqn:E; simpl; [|done].
    intros [= <-]. destruct (isSecretKey k); [constructor|].
    eapply IH; eauto.
  - inversion_clear H as [|? Hl|]. constructor.
    apply List.Forall_forall. intros x (y & <- & Hy)%in_map_iff.
    apply IH; [done|]. by eapply List.Forall_forall in Hl.
Qed.

Lemma redact_idempotent (v : value) : redact (redact v) = redact v.
Proof.
  induction v as [x | es _ | m IH | l IH] using value_ind'; simpl.
  - done.
  - done.
  - f_equal. apply map_eq. intros k. rewrite !map_lookup_imap.
    destruct (m !! k) as [y|] eqn:E; simpl; [|done].
    destruct (isSecretKey k); [done|]. f_equal. by eapply IH.
  - f_equal. rewrite <- list_fmap_compose. apply map_ext_in.
    intros x Hx. by apply IH.
Qed.

(** What [Redact] returns is made of scalars, sequences and maps with
    string keys only: no [map[interface{}]interface{}] is left at any
    depth; and redacting it again, under any key, changes nothing. *)
Theorem Redact_shape_and_idempotent (key key' : string) (v : value) :
  NodeShaped (Redact key v)
  /\ Redact key' (Redact key v) = Redact key v.
Proof.
  assert (H : NodeShaped (Redact key v)).
  { apply redact_keeps_NodeShaped, normalize_is_NodeShaped. }
  split; [done|]. unfold Redact at 1.
  rewrite normalize_NodeShaped by done. apply redact_idempotent.
Qed.

(** [v] and [w] are the same outside the values of secret keys. *)
Inductive sameButSecrets : value -> value -> Prop :=
| sameButSecrets_scalar x : sameButSecrets (VScalar x) (VScalar x)
| sameButSecrets_opaque es : sameButSecrets (VMapAny es) (VMapAny es)
| sameButSecrets_seq l l' :
    Forall2 sameButSecrets l l' -> sameButSecrets (VSeq l) (VSeq l')
| sameButSecrets_map (m m' : gmap string value) :
    (forall k, is_Some (m !! k) <-> is_Some (m' !! k)) ->
    (forall k x x', m !! k = Some x -> m' !! k = Some x' ->
       isSecretKey k = false -> sameButSecrets x x') ->
    sameButSecrets (VMapStr m) (VMapStr m').

Lemma redact_scalar_inv (v : value) (x : scalar) :
  redact v = VScalar x -> v = VScalar x.
Proof. by destruct v. Qed.

Lemma redact_opaque_inv (v : value) es :
  redact v = VMapAny es -> v = VMapAny es.
Proof. by destruct v. Qed.

(** Two values have the same redaction exactly when they differ in the
    values of secret keys only: [redact] shows nothing of a masked value,
    and hides nothing else. *)
Theorem redact_shows_no_secret (v w : value) :
  redact v = redact w <-> sameButSecrets v w.
Proof.
  revert w. induction v as [x | es _ | m IH | l IH] using value_ind'; intros w.
  - split.
    + intros H. symmetry in H. apply redact_scalar_inv in H as ->. constructor.
    + by inversion 1.
  - split.
    + intros H. symmetry in H. apply redact_opaque_inv in H as ->. constructor.
    + by inversion 1.
  - split.
    + destruct w as [y | es' | m' | l']; simpl; try done.
      intros [= H].
      assert (Hk : forall k,
                map_imap (fun k val => Some (if isSecretKey k then mask else redact val)) m !! k
                = map_imap (fun k val => Some (if isSecretKey k then mask else redact val)) m' !! k)
        by (intros k; by rewrite H).
      constructor.
      * intros k. specialize (Hk k). rewrite !map_lookup_imap in Hk.
        destruct (m !! k), (m' !! k); simpl in Hk; try done;
          split; intros _; by eexists.
      * intros k x x' Hx Hx' Hs. specialize (Hk k).
        rewrite !map_lookup_imap, Hx, Hx' in Hk. simpl in Hk. rewrite Hs in Hk.
        injection Hk as Hk. by apply (IH k x Hx).
    + inversion_clear 1 as [| | |? m' Hdom Hsame]. simpl. f_equal.
      apply map_eq. intros k. rewrite !map_lookup_imap.
      specialize (Hdom k).
      destruct (m !! k) as [x|] eqn:Ex, (m' !! k) as [x'|] eqn:Ex'; simpl.
      * destruct (isSecretKey k) eqn:Hs; [done|]. f_equal.
        apply (IH k x Ex). by eapply Hsame.
      * destruct Hdom as [Hdom _]. by destruct Hdom.
      * destruct Hdom as [_ Hdom]. by destruct Hdom.
      * done.
  - split.
    + destruct w as [y | es' | m' | l']; simpl; try done.
      intros [= H]. constructor.
      revert l' H. induction l as [|x l IHl]; intros [|x' l'] H; try done.
      simpl in H. injection H as Hx Hl. constructor.
      * apply IH; [by left | done].
      * apply IHl; [|done]. intros y Hy. apply IH. by right.
    + inversion_clear 1 as [| |? l' Hl|]. simpl. f_equal.
      induction Hl as [|x x' l l' Hx _ IHl]; [done|]. simpl. f_equal.
      * apply IH; [by left | done].
      * apply IHl. intros y Hy. apply IH. by right.
Qed.

(** *** Secret parts of a key *)

(** A key is secret as soon as an ASCII part of it is: whatever bytes are
    put in front of an ASCII secret key or behind it, the key stays
    secret. *)
Theorem isSecretKey_substring (pre k post : string) :
  strings.isASCII k = true ->
  isSecretKey k = true -> isSecretKey (pre +:+ k +:+ post) = true.
Proof.
  intros Hk. rewrite !isSecretKey_spec.
  intros (w & Hw & Hocc). exists w. split; [done|].
  rewrite ToLower_ASCII in Hocc by done.
  apply (occurs_trans _ (strings.lowerASCII k)); [done|].
  rewrite ToLower_Map.
  assert (Hstart : startsASCII (k +:+ post)).
  { destruct k as [|c k]; [|rewrite str_app_cons; simpl in *;
                            by apply andb_true_iff in Hk as [? _]].
    exfalso. destruct Hocc as (a & b & E).
    assert (Hwe : w = "").
    { destruct a; [|done]. rewrite str_app_nil_l in E. by destruct w. }
    subst w. revert Hw. unfold secretWords.
    rewrite !elem_of_cons, elem_of_nil. intros H. by decompose [or] H. }
  rewrite Map_app by done. rewrite Map_ASCII_app by done.
  exists (strings.Map unicode.ToLower pre), (strings.Map unicode.ToLower post).
  done.
Qed.

End RedactMore.

Lemma isSecretKey_substring_witness :
  configkit.isSecretKey ("mon" +:+ "key" +:+ "s") = true.
Proof. apply (isSecretKey_substring "mon" "key" "s"); reflexivity. Defined.

(** ** The order of a map and normalize *)

Section NormalizeOrder.
Import dyn configkit.
Context {caseTables : unicode.Tables}.

Lemma normalize_entries_lookup (es : list (scalar * value))
    (out : gmap string value) (k : string) :
  fold_left (fun out '(k, val) => <[asString k := normalize val]> out) es out !! k
  = match List.find (fun e => String.eqb (asString (fst e)) k) (rev es) with
    | Some e => Some (normalize (snd e))
    | None => out !! k
    end.
Proof.
  revert out. induction es as [|[k0 x0] es IH]; intros out; [done|].
  cbn [fold_left rev]. rewrite IH, find_snoc.
  destruct (List.find _ (rev es)); [done|]. cbn [fst snd].
  destruct (String.eqb_spec (asString k0) k) as [<- | Hne].
  - by rewrite lookup_insert_eq.
  - by rewrite lookup_insert_ne.
Qed.

Lemma find_unique {A : Type} (f : A -> string) (l : list A) (e : A) :
  List.NoDup (map f l) -> List.In e l ->
  List.find (fun e' => String.eqb (f e') (f e)) l = Some e.
Proof.
  induction l as [|y l IH]; [done|]. simpl.
  intros Hnd [-> | Hin].
  - by rewrite String.eqb_refl.
  - inversion_clear Hnd as [|? ? Hy Hl].
    destruct (String.eqb_spec (f y) (f e)) as [E | _]; [|by apply IH].
    destruct Hy. rewrite E. by apply in_map.
Qed.

Lemma find_Permutation {A : Type} (f : A -> string) (k : string) (l l' : list A) :
  List.NoDup (map f l) -> Permutation l l' ->
  List.find (fun e => String.eqb (f e) k) l = List.find (fun e => String.eqb (f e) k) l'.
Proof.
  intros Hnd Hp.
  assert (Hnd' : List.NoDup (map f l')).
  { eapply Permutation_NoDup; [|done]. by apply Permutation_map. }
  destruct (List.find _ l) as [e|] eqn:E.
  - apply find_some in E as [Hin <-%String.eqb_eq].
    symmetry. apply find_unique; [done|]. by eapply Permutation_in.
  - destruct (List.find _ l') as [e'|] eqn:E'; [|done].
    apply find_some in E' as [Hin Hk].
    eapply find_none in E; [|eapply Permutation_in; [symmetry|]; done].
    simpl in E. congruence.
Qed.

(** When no two keys of a [map[interface{}]interface{}] have the same
    text, the map that [normalize] builds from it does not depend on the
    order in which the [range] visits the entries. *)
Theorem normalize_order_independent (es es' : list (scalar * value)) :
  List.NoDup (map (fun e => asString (fst e)) es) ->
  Permutation es es' ->
  normalize (VMapAny es) = normalize (VMapAny es').
Proof.
  intros Hnd Hp. simpl. f_equal. apply map_eq. intros k.
  rewrite !normalize_entries_lookup.
  rewrite (find_Permutation (fun e => asString (fst e)) k (rev es) (rev es')).
  - done.
  - eapply Permutation_NoDup; [|done].
    apply Permutation_map, Permutation_rev.
  - by rewrite <- !Permutation_rev.
Qed.

End NormalizeOrder.

Lemma normalize_order_independent_witness :
  configkit.normalize
    (dyn.VMapAny [(dyn.SInt 1, dyn.VScalar (dyn.SString "a"));
                  (dyn.SString "b", dyn.VScalar dyn.SNil)])
  = configkit.normalize
      (dyn.VMapAny [(dyn.SString "b", dyn.VScalar dyn.SNil);
                    (dyn.SInt 1, dyn.VScalar (dyn.SString "a"))]).
Proof.
  apply normalize_order_independent.
  - simpl. apply List.NoDup_cons; [simpl; intros [H | []]; discriminate|].
    apply List.NoDup_cons; [simpl; tauto | apply List.NoDup_nil].
  - apply perm_swap.
Defined.

(** Two keys with the same text, the number 1 and the string [1], take
    one place in the result: which value stays depends on the order of
    the [range]. *)
Example normalize_colliding_keys :
  configkit.normalize
    (dyn.VMapAny [(dyn.SInt 1, dyn.VScalar (dyn.SString "a"));
                  (dyn.SString "1", dyn.VScalar (dyn.SString "b"))])
  <> configkit.normalize
       (dyn.VMapAny [(dyn.SString "1", dyn.VScalar (dyn.SString "b"));
                     (dyn.SInt 1, dyn.VScalar (dyn.SString "a"))]).
Proof.
  intros H.
  assert (E : forall x y : dyn.value, x = y ->
            match x, y with
            | dyn.VMapStr m, dyn.VMapStr m' => m !! "1" = m' !! "1"
            | _, _ => True
            end).
  { intros x y ->. by destruct y. }
  apply E in H. vm_compute in H. discriminate.
Qed.

(** ** Package [configkit]: loader.go *)

Module loader.

(** The options of [uber/config] the package builds: a file, a reader
    with its content, and the expansion of environment variables. *)
Inductive YAMLOption :=
| File (path : string)
| Source (content : string)
| Expand.

Record moduleOpts := mkModuleOpts { extra : list YAMLOption }.

(** A [ModuleOption] changes the options it is given a pointer to. *)
Definition ModuleOption := moduleOpts -> moduleOpts.

Definition WithSources (srcs : list YAMLOption) : ModuleOption :=
  fun o => mkModuleOpts (extra o ++ srcs).

(** What the process sees of its surroundings: [isFile path] is
    [os.Stat(path)] without error on something that is not a directory,
    [CONFIG] the environment variable of that name, when it is set. *)
Record Env := mkEnv { isFile : string -> bool; CONFIG : option string }.

(** The errors of [NewYAML]: its two own, and those of [uber.NewYAML]. *)
Inductive loadError :=
| ConfigPathError (cfgPath : string)
    (* fmt.Errorf("config: CONFIG path %q not found or not a file", cfgPath) *)
| NoSources
    (* errors.New("config: no configuration sources available") *)
| ProviderError (e : configkit.error).

Definition DefaultSources (env : Env) : list YAMLOption :=
  if isFile env "config/config.yml" then [File "config/config.yml"] else [].

Section NewYAML.
Context {P : Type}.
Variable uberNewYAML : list YAMLOption -> P + configkit.error.

Definition NewYAML (env : Env) (opts : list ModuleOption) : P + loadError :=
  let o := fold_left (fun o opt => opt o) opts (mkModuleOpts []) in
  let chain := [] ++ DefaultSources env in
  match
    match CONFIG env with
    | Some cfgPath =>
        if isFile env cfgPath then inl (chain ++ [File cfgPath])
        else inr (ConfigPathError cfgPath)
    | None => inl chain
    end
  with
  | inr err => inr err
  | inl chain =>
      let chain :=
        if Nat.ltb 0 (List.length (extra o)) then chain ++ extra o else chain in
      let chain := chain ++ [Expand] in
      if Nat.eqb (List.length chain) 0 then inr NoSources
      else
        match uberNewYAML chain with
        | inl p => inl p
        | inr e => inr (ProviderError e)
        end
  end.

End NewYAML.

End loader.

Section LoaderFacts.
Import loader.
Context {P : Type}.
Variable uberNewYAML : list YAMLOption -> P + configkit.error.

(** [NewYAML] never reports that there are no sources: the expansion of
    the environment is always one. It reports the [CONFIG] path exactly
    when [CONFIG] is set to something that is not a file; otherwise the
    provider is built from the default file if there is one, then the file
    of [CONFIG], then the sources of the options in their order, then the
    expansion. *)
Theorem NewYAML_sources (env : Env) (opts : list ModuleOption) :
  NewYAML uberNewYAML env opts <> inr NoSources
  /\ (forall p, NewYAML uberNewYAML env opts = inr (ConfigPathError p)
                <-> CONFIG env = Some p /\ isFile env p = false)
  /\ ((forall p, CONFIG env = Some p -> isFile env p = true) ->
      NewYAML uberNewYAML env opts
      = match uberNewYAML
                (DefaultSources env
                   ++ match CONFIG env with Some p => [File p] | None => [] end
                   ++ extra (fold_left (fun o opt => opt o) opts (mkModuleOpts []))
                   ++ [Expand]) with
        | inl p => inl p
        | inr e => inr (ProviderError e)
        end).
Proof.
  unfold NewYAML.
  set (o := fold_left (fun o opt => opt o) opts (mkModuleOpts [])).
  assert (Hextra : forall chain,
            (if Nat.ltb 0 (List.length (extra o)) then chain ++ extra o else chain)
            = chain ++ extra o).
  { intros chain. destruct (extra o); [by rewrite app_nil_r | done]. }
  assert (Hlen : forall chain : list YAMLOption,
            Nat.eqb (List.length (chain ++ [Expand])) 0 = false).
  { intros chain. apply Nat.eqb_neq. rewrite length_app. simpl. lia. }
  destruct (CONFIG env) as [cfgPath|].
  - destruct (isFile env cfgPath) eqn:Hfile.
    + rewrite Hextra, Hlen. simpl. split; [|split].
      * by destruct (uberNewYAML _).
      * intros p. split.
        -- by destruct (uberNewYAML _).
        -- intros [[= <-] ?]. congruence.
      * intros _. by rewrite <- !app_assoc.
    + split; [done|split].
      * intros p. split; [by intros [= <-] | by intros [[= <-] _]].
      * intros H. specialize (H cfgPath eq_refl). congruence.
  - rewrite Hextra, Hlen. simpl. split; [|split].
    + by destruct (uberNewYAML _).
    + intros p. split; [by destruct (uberNewYAML _) | by intros [? _]].
    + intros _. by rewrite <- !app_assoc.
Qed.

End LoaderFacts.

Lemma NewYAML_sources_witness :
  loader.NewYAML (fun chain => inl chain : _ + configkit.error)
    (loader.mkEnv (fun _ => true) (Some "local.yml"))
    [loader.WithSources [loader.File "cli.yml"]]
  = inl [loader.File "config/config.yml"; loader.File "local.yml";
         loader.File "cli.yml"; loader.Expand].
Proof.
  etrans.
  - apply (proj2 (proj2 (NewYAML_sources (fun chain => inl chain : _ + configkit.error)
                           (loader.mkEnv (fun _ => true) (Some "local.yml"))
                           [loader.WithSources [loader.File "cli.yml"]]))).
    reflexivity.
  - reflexivity.
Defined.
